(** * Zerolog-to-slog rewrite scripts: a shallow embedding

    The repository's conversion scripts are regular-expression driven text
    rewriters.  This development embeds

    - [convert_zerolog_to_slog.py]   (engine and batch driver),
    - [fix_pipeline_logging.py]      (pipeline variant, regex based),
    - [fix_pipeline_logging_v2.py]   (pipeline variant, line based),
    - [fix_security_test_logging.py] (exact substitutions),
    - [scripts/fix_messagef_simple.py] (Messagef/%w decomposition),

    on top of a small backtracking matcher that follows the semantics of
    Python's [re] module for the constructs these scripts use.

    Text is a list of code points; the model covers code points below 256
    and classifies them as Python does for [str] patterns. *)

From Stdlib Require Import Ascii String List Arith Lia Bool ZArith DecimalString.
From stdpp Require Import gmap strings.
Import ListNotations.

Set Default Proof Using "Type".
Set Warnings "-comment-terminator-in-string".
Local Open Scope list_scope.

(** ** Text *)

Abbreviation text := (list ascii).

Definition dq : ascii := ascii_of_nat 34.   (* the double quote *)
Definition nl : ascii := ascii_of_nat 10.   (* \n *)
Definition tab : ascii := ascii_of_nat 9.   (* \t *)
Definition cr : ascii := ascii_of_nat 13.   (* \r *)

(** Literals: [t "abc"] is the text abc. *)
Definition t (s : string) : text := list_ascii_of_string s.

(** Go and Python fragments are full of double quotes, tabs and newlines.
    [go] reads a literal in which an apostrophe stands for a double quote,
    a vertical bar for a newline and a tilde for a tab. *)
Definition go_char (c : ascii) : ascii :=
  if Ascii.eqb c "'"%char then dq
  else if Ascii.eqb c "|"%char then nl
  else if Ascii.eqb c "~"%char then tab
  else c.

Definition go (s : string) : text := map go_char (t s).

(** ** Character classes, as [re] classifies code points of a [str] *)

Definition code (c : ascii) : nat := nat_of_ascii c.

Definition in_range (lo hi : nat) (c : ascii) : bool :=
  (lo <=? code c) && (code c <=? hi).

(** [\s]: [str.isspace] on the code points below 256. *)
Definition is_space (c : ascii) : bool :=
  in_range 9 13 c || in_range 28 32 c || (code c =? 133) || (code c =? 160).

Definition is_digit (c : ascii) : bool := in_range 48 57 c.
Definition is_upper (c : ascii) : bool := in_range 65 90 c.
Definition is_lower (c : ascii) : bool := in_range 97 122 c.

(** [[a-zA-Z0-9_]] *)
Definition is_ident (c : ascii) : bool :=
  is_lower c || is_upper c || is_digit c || (code c =? 95).

(** [\w]: alphanumeric code points and the underscore. *)
Definition is_word (c : ascii) : bool :=
  is_ident c
  || (code c =? 170) || (code c =? 178) || (code c =? 179) || (code c =? 181)
  || (code c =? 185) || (code c =? 186) || in_range 188 190 c
  || in_range 192 214 c || in_range 216 246 c || in_range 248 255 c.

Definition is_char (x : ascii) (c : ascii) : bool := Ascii.eqb c x.
Definition not_char (x : ascii) (c : ascii) : bool := negb (Ascii.eqb c x).

(** [.] without DOTALL *)
Definition dot (c : ascii) : bool := not_char nl c.

(** ** Regular expressions *)

Inductive regex : Type :=
| Eps
| Chr (p : ascii -> bool)
| Lit (l : text)
| Seq (a b : regex)
| Alt (a b : regex)
| Star (greedy : bool) (a : regex)
| Group (n : nat) (a : regex).

(** Concatenation and ordered alternation of several parts. *)
Definition cat (l : list regex) : regex := fold_right Seq Eps l.

Fixpoint alts (l : list regex) : regex :=
  match l with
  | [] => Chr (fun _ => false)
  | [a] => a
  | a :: l' => Alt a (alts l')
  end.

Definition star (a : regex) : regex := Star true a.            (* a*  *)
Definition lazy_star (a : regex) : regex := Star false a.      (* a*? *)
Definition plus (a : regex) : regex := Seq a (Star true a).    (* a+  *)
Definition lazy_plus (a : regex) : regex := Seq a (Star false a). (* a+? *)
Definition opt (a : regex) : regex := Alt a Eps.               (* a?  *)
Definition lit (s : string) : regex := Lit (t s).

(** Captures: group number to captured text, most recent binding first. *)
Definition caps := list (nat * text).

Fixpoint group (cs : caps) (n : nat) : option text :=
  match cs with
  | [] => None
  | (i, w) :: cs' => if i =? n then Some w else group cs' n
  end.

(** [match.group(n) or ''], also what a template writes for [\n]. *)
Definition group_or_empty (cs : caps) (n : nat) : text :=
  match group cs n with Some w => w | None => [] end.

Fixpoint strip_prefix (l s : text) : option text :=
  match l with
  | [] => Some s
  | c :: l' =>
      match s with
      | [] => None
      | d :: s' => if Ascii.eqb c d then strip_prefix l' s' else None
      end
  end.

(** ** The backtracking matcher

    Continuation-passing: [rmatch r s cs k] matches [r] at the head of [s]
    and hands the remaining text and the captures to [k]; a [None] from [k]
    makes the matcher backtrack into [r].  Alternatives are tried left to
    right, a greedy star tries one more iteration before stopping, a lazy
    star tries stopping first.  An iteration of a star has to consume
    text. *)

Definition cont := text -> caps -> option (text * caps).

Fixpoint star_loop (body : text -> caps -> cont -> option (text * caps))
    (greedy : bool) (k : cont) (fuel : nat) (s : text) (cs : caps)
    : option (text * caps) :=
  match fuel with
  | 0 => k s cs
  | S f =>
      let again s' cs' :=
        if length s' <? length s then star_loop body greedy k f s' cs'
        else None in
      if greedy then
        match body s cs again with
        | Some x => Some x
        | None => k s cs
        end
      else
        match k s cs with
        | Some x => Some x
        | None => body s cs again
        end
  end.

Fixpoint rmatch (r : regex) (s : text) (cs : caps) (k : cont)
    : option (text * caps) :=
  match r with
  | Eps => k s cs
  | Chr p =>
      match s with
      | c :: s' => if p c then k s' cs else None
      | [] => None
      end
  | Lit l =>
      match strip_prefix l s with
      | Some s' => k s' cs
      | None => None
      end
  | Seq a b => rmatch a s cs (fun s' cs' => rmatch b s' cs' k)
  | Alt a b =>
      match rmatch a s cs k with
      | Some x => Some x
      | None => rmatch b s cs k
      end
  | Star greedy a => star_loop (rmatch a) greedy k (length s) s cs
  | Group n a =>
      rmatch a s cs
        (fun s' cs' => k s' ((n, firstn (length s - length s') s) :: cs'))
  end.

Definition accept : cont := fun s cs => Some (s, cs).

(** A match object: the matched text (group 0), the groups, and the text
    that follows the match. *)
Record match_obj := MatchObj {
  m_text : text;
  m_groups : caps;
  m_rest : text
}.

(** [re.match]: a match anchored at the head of [s]. *)
Definition re_match (r : regex) (s : text) : option match_obj :=
  match rmatch r s [] accept with
  | Some (rest, cs) =>
      Some (MatchObj (firstn (length s - length rest) s) cs rest)
  | None => None
  end.

(** [re.search]: the leftmost match; the first component is the text in
    front of it. *)
Fixpoint re_search (r : regex) (s : text) : option (text * match_obj) :=
  match re_match r s with
  | Some mo => Some ([], mo)
  | None =>
      match s with
      | [] => None
      | c :: s' =>
          match re_search r s' with
          | Some (pre, mo) => Some (c :: pre, mo)
          | None => None
          end
      end
  end.

(** [re.sub] with a function as replacement: leftmost non-overlapping
    matches, scanning resumes where the previous match ended. *)
Fixpoint sub_loop (fuel : nat) (r : regex) (repl : match_obj -> text)
    (s : text) : text :=
  match fuel with
  | 0 => s
  | S f =>
      let step :=
        match s with
        | [] => []
        | c :: s' => c :: sub_loop f r repl s'
        end in
      match re_match r s with
      | Some mo =>
          if length (m_rest mo) <? length s
          then repl mo ++ sub_loop f r repl (m_rest mo)
          else repl mo ++ step
      | None => step
      end
  end.

Definition re_sub (r : regex) (repl : match_obj -> text) (s : text) : text :=
  sub_loop (S (length s)) r repl s.

(** [re.findall]: the groups of every match, in order. *)
Fixpoint findall_loop (fuel : nat) (r : regex) (s : text) : list caps :=
  match fuel with
  | 0 => []
  | S f =>
      let step :=
        match s with
        | [] => []
        | _ :: s' => findall_loop f r s'
        end in
      match re_match r s with
      | Some mo =>
          if length (m_rest mo) <? length s
          then m_groups mo :: findall_loop f r (m_rest mo)
          else m_groups mo :: step
      | None => step
      end
  end.

Definition re_findall (r : regex) (s : text) : list caps :=
  findall_loop (S (length s)) r s.

(** * convert_zerolog_to_slog.py *)

Definition ws : regex := Chr is_space.
Definition word : regex := Chr is_word.
Definition level_names : regex :=
  alts [lit "Debug"; lit "Info"; lit "Warn"; lit "Error"].



(** ** String helpers of the Python runtime *)

(** [sep.join(parts)] *)
Fixpoint join (sep : text) (parts : list text) : text :=
  match parts with
  | [] => []
  | [p] => p
  | p :: ps => p ++ sep ++ join sep ps
  end.

Fixpoint lstrip_with (p : ascii -> bool) (s : text) : text :=
  match s with
  | c :: s' => if p c then lstrip_with p s' else s
  | [] => []
  end.

Definition rstrip_with (p : ascii -> bool) (s : text) : text :=
  rev (lstrip_with p (rev s)).

(** [s.strip()], [s.rstrip()] and [s.rstrip(')')] *)
Definition strip (s : text) : text := rstrip_with is_space (lstrip_with is_space s).
Definition rstrip (s : text) : text := rstrip_with is_space s.
Definition rstrip_char (x : ascii) (s : text) : text := rstrip_with (is_char x) s.

(** [needle in s] *)
Fixpoint contains (needle s : text) : bool :=
  match strip_prefix needle s with
  | Some _ => true
  | None =>
      match s with
      | [] => false
      | _ :: s' => contains needle s'
      end
  end.

Definition teq (a b : text) : bool := bool_decide (a = b).

(** A replacement template such as "\1(\4)": literal pieces and group
    references; a group that took no part in the match expands to
    nothing. *)
Inductive tpl_item := TLit (l : text) | TGroup (n : nat).

Definition expand (tpl : list tpl_item) (mo : match_obj) : text :=
  concat (map (fun it => match it with
                         | TLit l => l
                         | TGroup n => group_or_empty (m_groups mo) n
                         end) tpl).

Module Zerolog.

(** The parts the two patterns of the script are made of (in the patterns
    quoted here an apostrophe stands for the double quote).

    The anchor: "(\s*)(\w+\.)?logger\.(Debug|Info|Warn|Error)\(\)" *)
Definition anchor_part : list regex :=
  [ Group 1 (star ws);
    opt (Group 2 (cat [plus word; lit "."]));
    lit "logger.";
    Group 3 level_names;
    lit "()" ].

(** One call of the chain: "\s*\.\s*\w+\([^)]*\)" *)
Definition chain_call : regex :=
  cat [star ws; lit "."; star ws; plus word; lit "(";
       star (Chr (not_char ")"%char)); lit ")"].

(** The finishing call, its message in group [n]:
    "\s*\.\s*Msg\('([^']*)'\)" *)
Definition msg_call (n : nat) : list regex :=
  [ star ws; lit "."; star ws; lit "Msg("; Chr (is_char dq);
    Group n (star (Chr (not_char dq)));
    Chr (is_char dq); lit ")" ].

(** The chain pattern:
    "(\s*)(\w+\.)?logger\.(Debug|Info|Warn|Error)\(\)((?:\s*\.\s*\w+\([^)]*\))*)\s*\.\s*Msg\('([^']*)'\)" *)
Definition pattern : regex :=
  cat (anchor_part ++ [Group 4 (star chain_call)] ++ msg_call 5).

(** "\.\s*(\w+)\(([^)]*)\)" *)
Definition kv_pattern : regex :=
  cat [ lit "."; star ws; Group 1 (plus word); lit "(";
        Group 2 (star (Chr (not_char ")"%char))); lit ")" ].

(** "'([^']+)',\s*(.+)" *)
Definition keyed_pattern : regex :=
  cat [ Chr (is_char dq); Group 1 (plus (Chr (not_char dq)));
        Chr (is_char dq); lit ","; star ws; Group 2 (plus (Chr dot)) ].

(** "(\s*)(\w+\.)?logger\.(Debug|Info|Warn|Error)\(\)\s*\.\s*Msg\('([^']*)'\)" *)
Definition simple_pattern : regex := cat (anchor_part ++ msg_call 4).

(** The body shared by the Str, Int, Bool and Interface/Any branches: the
    value has to look like a quoted key, a comma and the rest. *)
Definition keyed_pair (value : text) : list text :=
  match re_match keyed_pattern value with
  | Some km =>
      let key := group_or_empty (m_groups km) 1 in
      let val := strip (group_or_empty (m_groups km) 2) in
      [[dq] ++ key ++ [dq] ++ t ", " ++ val]
  | None => []
  end.

(** One turn of the loop over [kv_matches]: what it appends to [args]. *)
Definition field_args (method value : text) : list text :=
  if teq method (t "Str") then keyed_pair value
  else if teq method (t "Int") then keyed_pair value
  else if teq method (t "Err") then [[dq] ++ t "error" ++ [dq] ++ t ", " ++ value]
  else if teq method (t "Bool") then keyed_pair value
  else if teq method (t "Interface") || teq method (t "Any") then keyed_pair value
  else [].

Definition kv_matches (chain : text) : list (text * text) :=
  map (fun cs => (group_or_empty cs 1, group_or_empty cs 2))
      (re_findall kv_pattern chain).

Definition build_args (kvs : list (text * text)) : list text :=
  flat_map (fun kv => field_args (fst kv) (snd kv)) kvs.

(** The call that replaces a chain. *)
Definition render (indent prefix level message : text) (args : list text) : text :=
  match args with
  | _ :: _ =>
      let sep := t "," ++ [nl] ++ indent ++ [tab] in
      let args_str := sep ++ join sep args in
      indent ++ prefix ++ t "logger." ++ level ++ t "(" ++ [dq] ++ message ++ [dq]
        ++ args_str ++ t ")"
  | [] =>
      indent ++ prefix ++ t "logger." ++ level ++ t "(" ++ [dq] ++ message ++ [dq]
        ++ t ")"
  end.

Definition replace_match (mo : match_obj) : text :=
  let indent := group_or_empty (m_groups mo) 1 in
  let prefix := group_or_empty (m_groups mo) 2 in
  let level := group_or_empty (m_groups mo) 3 in
  let chain := group_or_empty (m_groups mo) 4 in
  let message := group_or_empty (m_groups mo) 5 in
  render indent prefix level message (build_args (kv_matches chain)).

(** "\1\2logger.\3('\4')" *)
Definition simple_template : list tpl_item :=
  [TGroup 1; TGroup 2; TLit (t "logger."); TGroup 3; TLit (t "(" ++ [dq]);
   TGroup 4; TLit ([dq] ++ t ")")].

Definition convert_zerolog_to_slog (content : text) : text :=
  let content := re_sub pattern replace_match content in
  re_sub simple_pattern (expand simple_template) content.

End Zerolog.

(** ** More of the string runtime *)

(** [s.replace(old, new)]: every non-overlapping occurrence, left to right. *)
Fixpoint replace_loop (fuel : nat) (old new s : text) : text :=
  match fuel with
  | 0 => s
  | S f =>
      let step :=
        match s with
        | [] => []
        | c :: s' => c :: replace_loop f old new s'
        end in
      match strip_prefix old s with
      | Some rest =>
          if length rest <? length s
          then new ++ replace_loop f old new rest
          else new ++ step
      | None => step
      end
  end.

Definition replace (old new s : text) : text :=
  replace_loop (S (length s)) old new s.

(** [s.split(sep)] for a one-character separator: never empty. *)
Fixpoint split_on (sep : ascii) (s : text) : list text :=
  match s with
  | [] => [[]]
  | c :: s' =>
      if Ascii.eqb c sep then [] :: split_on sep s'
      else match split_on sep s' with
           | l :: ls => (c :: l) :: ls
           | [] => [[c]]
           end
  end.

Definition is_empty {A} (l : list A) : bool :=
  match l with [] => true | _ => false end.

(** * scripts/fix_messagef_simple.py *)

Module Messagef.

Definition ident : regex := Chr is_ident.

(** The tail shared by the three substitutions: "'\s*,\s*([a-zA-Z0-9_]+)\)" *)
Definition cause_tail : list regex :=
  [ Chr (is_char dq); star ws; lit ","; star ws; Group 2 (plus ident); lit ")" ].

(** "\.Messagef\('([^']*?):\s*%w'\s*,\s*([a-zA-Z0-9_]+)\)" *)
Definition colon_pattern : regex :=
  cat ([ lit ".Messagef("; Chr (is_char dq);
         Group 1 (lazy_star (Chr (not_char dq)));
         lit ":"; star ws; lit "%w" ] ++ cause_tail).

(** "\.Messagef\('([^']*?)\s+%w'\s*,\s*([a-zA-Z0-9_]+)\)" *)
Definition space_pattern : regex :=
  cat ([ lit ".Messagef("; Chr (is_char dq);
         Group 1 (lazy_star (Chr (not_char dq)));
         plus ws; lit "%w" ] ++ cause_tail).

(** "\.Messagef\('([^']*?)%w'\s*,\s*([a-zA-Z0-9_]+)\)" *)
Definition bare_pattern : regex :=
  cat ([ lit ".Messagef("; Chr (is_char dq);
         Group 1 (lazy_star (Chr (not_char dq)));
         lit "%w" ] ++ cause_tail).

(** ".Message('\1').Cause(\2)" *)
Definition cause_template : list tpl_item :=
  [ TLit (t ".Message(" ++ [dq]); TGroup 1; TLit ([dq] ++ t ").Cause(");
    TGroup 2; TLit (t ")") ].

(** Pattern 1 of the script: the three substitutions for a lone %w. *)
Definition single_verb_pass (content : text) : text :=
  let content := re_sub colon_pattern (expand cause_template) content in
  let content := re_sub space_pattern (expand cause_template) content in
  re_sub bare_pattern (expand cause_template) content.

(** "\.Messagef\('([^']+)'\s*,(.+)\)" *)
Definition line_pattern : regex :=
  cat [ lit ".Messagef("; Chr (is_char dq); Group 1 (plus (Chr (not_char dq)));
        Chr (is_char dq); star ws; lit ","; Group 2 (plus (Chr dot)); lit ")" ].

(** "%[^%\s]" *)
Definition verb_pattern : regex :=
  cat [ lit "%"; Chr (fun c => negb (Ascii.eqb c "%"%char || is_space c)) ].

Definition is_open (c : ascii) : bool :=
  Ascii.eqb c "("%char || Ascii.eqb c "{"%char || Ascii.eqb c "["%char.
Definition is_close (c : ascii) : bool :=
  Ascii.eqb c ")"%char || Ascii.eqb c "}"%char || Ascii.eqb c "]"%char.

(** The character loop that splits [args_str]: the state is the bracket
    depth, the argument being collected and the arguments found so far. *)
Fixpoint split_loop (s : text) (paren_depth : Z) (current_arg : text)
    (args_parts : list text) : text * list text :=
  match s with
  | [] => (current_arg, args_parts)
  | char :: s' =>
      if is_open char then
        split_loop s' (paren_depth + 1)%Z (current_arg ++ [char]) args_parts
      else if is_close char then
        split_loop s' (paren_depth - 1)%Z (current_arg ++ [char]) args_parts
      else if Ascii.eqb char ","%char && (paren_depth =? 0)%Z then
        split_loop s' paren_depth [] (args_parts ++ [strip current_arg])
      else
        split_loop s' paren_depth (current_arg ++ [char]) args_parts
  end.

Definition split_args (args_str : text) : list text :=
  let '(current_arg, args_parts) := split_loop args_str 0%Z [] [] in
  if is_empty current_arg then args_parts
  else args_parts ++ [strip current_arg].

(** [new_format]: the %w verb and its separator removed. *)
Definition strip_wrap_verb (format_str : text) : text :=
  replace (t "%w") [] (replace (t " %w") [] (replace (t ": %w") [] format_str)).

(** The rewrite of one line whose format has %w among other verbs. *)
Definition rewrite_line (line format_str args_str : text) : text :=
  let format_verbs := re_findall verb_pattern format_str in
  if contains (t "%w") format_str && (1 <? length format_verbs) then
    let new_format := strip_wrap_verb format_str in
    let args_parts := split_args args_str in
    if length format_verbs <=? length args_parts then
      let error_arg := rstrip_char ")"%char (List.last args_parts []) in
      let other_args := List.removelast args_parts in
      let old := t ".Messagef(" ++ [dq] ++ format_str ++ [dq] ++ t ", " ++ args_str in
      if negb (is_empty other_args) then
        let new_args := join (t ", ") other_args in
        replace old
          (t ".Message(fmt.Sprintf(" ++ [dq] ++ new_format ++ [dq] ++ t ", "
             ++ new_args ++ t ")).Cause(" ++ error_arg)
          line
      else
        replace old
          (t ".Message(" ++ [dq] ++ new_format ++ [dq] ++ t ").Cause(" ++ error_arg)
          line
    else line
  else line.

(** The body of the loop over the lines. *)
Definition fix_line (line : text) : text :=
  if contains (t "Messagef") line && contains (t "%w") line
     && negb (contains (t ".Cause(") line) then
    match re_search line_pattern line with
    | Some (_, mo) =>
        let format_str := group_or_empty (m_groups mo) 1 in
        let args_str := strip (group_or_empty (m_groups mo) 2) in
        rewrite_line line format_str args_str
    | None => line
    end
  else line.

(** Pattern 2 of the script: line by line. *)
Definition multi_verb_pass (content : text) : text :=
  join [nl] (map fix_line (split_on nl content)).

(** The content after both passes, before the import is looked at. *)
Definition rewrite_content (content : text) : text :=
  multi_verb_pass (single_verb_pass content).

(** "import\s*\(([^)]+)\)" *)
Definition import_pattern : regex :=
  cat [ lit "import"; star ws; lit "(";
        Group 1 (plus (Chr (not_char ")"%char))); lit ")" ].

(** The import fix-up applied to changed content before it is written. *)
Definition add_fmt_import (content : text) : text :=
  if contains (t "fmt.Sprintf") content
     && negb (contains (t "import " ++ [dq] ++ t "fmt" ++ [dq]) content) then
    match re_search import_pattern content with
    | Some (_, mo) =>
        let imports := group_or_empty (m_groups mo) 1 in
        if negb (contains ([dq] ++ t "fmt" ++ [dq]) imports) then
          let new_imports := rstrip imports ++ [nl; tab; dq] ++ t "fmt" ++ [dq; nl] in
          replace (m_text mo) (t "import (" ++ new_imports ++ t ")") content
        else content
    | None => content
    end
  else content.

(** What [fix_messagef_in_file] decides for the content it read: [Some c]
    is the content it writes, [None] means the file is left alone. *)
Definition fix_messagef (original_content : text) : option text :=
  let content := rewrite_content original_content in
  if negb (teq content original_content) then Some (add_fmt_import content)
  else None.

End Messagef.

(** * fix_pipeline_logging.py *)

Definition pipeline_levels : regex :=
  alts [lit "Info"; lit "Debug"; lit "Warn"; lit "Error"].

Definition not_close : regex := Chr (not_char ")"%char).
Definition not_quote : regex := Chr (not_char dq).

(** "\.NAME\('([^']+)',\s*([^)]+)\)" for a keyed setter NAME *)
Definition setter_pattern (name : string) : regex :=
  cat [ lit "."; lit name; lit "("; Chr (is_char dq); Group 1 (plus not_quote);
        Chr (is_char dq); lit ","; star ws; Group 2 (plus not_close); lit ")" ].

(** "\.Err\(([^)]+)\)" *)
Definition err_pattern : regex :=
  cat [ lit ".Err("; Group 1 (plus not_close); lit ")" ].

(** The (key, value) pairs of one keyed setter, in the order found. *)
Definition setter_pairs (name : string) (s : text) : list (text * text) :=
  map (fun cs => (group_or_empty cs 1, group_or_empty cs 2))
      (re_findall (setter_pattern name) s).

Definition err_pairs (s : text) : list (text * text) :=
  map (fun cs => (t "error", group_or_empty cs 1)) (re_findall err_pattern s).

(** The five passes, in the order the scripts run them. *)
Definition gather_pairs (s : text) : list (text * text) :=
  setter_pairs "Str" s ++ setter_pairs "Int" s ++ setter_pairs "Bool" s
    ++ setter_pairs "Dur" s ++ err_pairs s.

(** [f"'{key}', {value}"] *)
Definition show_pair (kv : text * text) : text :=
  [dq] ++ fst kv ++ [dq] ++ t ", " ++ snd kv.

Module Pipeline.

(** "(\w+\.logger\.(Info|Debug|Warn|Error))\(\)\s*\.((?:[\s\n]*\.?(?:Str|Int|Bool|Err|Dur)\([^)]+\))+)\s*\.(Msg|Msgf)\(([^)]+)\)" *)
Definition pattern : regex :=
  cat [ Group 1 (cat [plus word; lit ".logger."; Group 2 pipeline_levels]);
        lit "()"; star ws; lit ".";
        Group 3 (plus (cat [star ws; opt (lit ".");
                            alts [lit "Str"; lit "Int"; lit "Bool"; lit "Err"; lit "Dur"];
                            lit "("; plus not_close; lit ")"]));
        star ws; lit ".";
        Group 4 (alts [lit "Msg"; lit "Msgf"]);
        lit "("; Group 5 (plus not_close); lit ")" ].

Definition replace_logging (mo : match_obj) : text :=
  let logger_prefix := group_or_empty (m_groups mo) 1 in
  let method_chain := group_or_empty (m_groups mo) 3 in
  let message := group_or_empty (m_groups mo) 5 in
  let pairs := map show_pair (gather_pairs method_chain) in
  if negb (is_empty pairs) then
    logger_prefix ++ t "(" ++ message ++ t ", " ++ join (t ", ") pairs ++ t ")"
  else
    logger_prefix ++ t "(" ++ message ++ t ")".

(** "(\w+\.logger\.(Info|Debug|Warn|Error))\(\)\s*\.(Msg|Msgf)\(([^)]+)\)" *)
Definition simple_pattern : regex :=
  cat [ Group 1 (cat [plus word; lit ".logger."; Group 2 pipeline_levels]);
        lit "()"; star ws; lit ".";
        Group 3 (alts [lit "Msg"; lit "Msgf"]);
        lit "("; Group 4 (plus not_close); lit ")" ].

(** "\1(\4)" *)
Definition simple_template : list tpl_item :=
  [TGroup 1; TLit (t "("); TGroup 4; TLit (t ")")].

Definition fix_logging_style (content : text) : text :=
  let content := re_sub pattern replace_logging content in
  re_sub simple_pattern (expand simple_template) content.

End Pipeline.

(** * fix_pipeline_logging_v2.py *)

(** [f.readlines()]: the lines with their terminators. *)
Fixpoint readlines (s : text) : list text :=
  match s with
  | [] => []
  | c :: s' =>
      if Ascii.eqb c nl then [c] :: readlines s'
      else match readlines s' with
           | l :: ls => (c :: l) :: ls
           | [] => [[c]]
           end
  end.

Module PipelineV2.

(** The files the script is written for. *)
Definition pipeline_dir : string :=
  "/home/tng/workspace/container-kit/pkg/mcp/application/orchestration/pipeline/".

Definition files : list text :=
  [ t (pipeline_dir +:+ "atomic_framework.go");
    t (pipeline_dir +:+ "monitoring_integration.go");
    t (pipeline_dir +:+ "basic_validator.go");
    t (pipeline_dir +:+ "cache_service.go") ].

(** "\.logger\.(Info|Debug|Warn|Error)\(\)\s*\." *)
Definition chain_start : regex :=
  cat [ lit ".logger."; Group 1 pipeline_levels; lit "()"; star ws; lit "." ].

(** "\.Msg(f)?\(" *)
Definition msg_call : regex :=
  cat [ lit ".Msg"; opt (Group 1 (lit "f")); lit "(" ].

(** "(\s*)(.+\.logger\.(Info|Debug|Warn|Error))\(\)" *)
Definition logger_pattern : regex :=
  cat [ Group 1 (star ws);
        Group 2 (cat [plus (Chr dot); lit ".logger."; Group 3 pipeline_levels]);
        lit "()" ].

(** "\.Msg(f)?\(([^)]+)\)" *)
Definition msg_pattern : regex :=
  cat [ lit ".Msg"; opt (Group 1 (lit "f")); lit "("; Group 2 (plus not_close);
        lit ")" ].

Definition found {A} (o : option A) : bool :=
  match o with Some _ => true | None => false end.

(** The inner while loop: [prev] is [lines[j-1]], [rest] is [lines[j:]];
    returns the lines appended to the statement and the lines from [j] on. *)
Fixpoint collect (prev : text) (rest : list text) : list text * list text :=
  match rest with
  | [] => ([], [])
  | l :: rest' =>
      if found (re_search msg_call prev) then ([], rest)
      else let '(more, remaining) := collect l rest' in (l :: more, remaining)
  end.

(** The statement that replaces a collected chain, if its parts are found. *)
Definition rewrite_statement (full_statement : text) : option text :=
  match re_match logger_pattern full_statement with
  | Some lm =>
      let indent := group_or_empty (m_groups lm) 1 in
      let logger_call := group_or_empty (m_groups lm) 2 in
      match re_search msg_pattern full_statement with
      | Some (_, mm) =>
          let message := group_or_empty (m_groups mm) 2 in
          let pairs := gather_pairs full_statement in
          if negb (is_empty pairs) then
            let kv_args := join (t ", ") (map show_pair pairs) in
            Some (indent ++ logger_call ++ t "(" ++ message ++ t ", " ++ kv_args
                    ++ t ")" ++ [nl])
          else
            Some (indent ++ logger_call ++ t "(" ++ message ++ t ")" ++ [nl])
      | None => None
      end
  | None => None
  end.

(** The outer while loop over [lines[i:]]. *)
Fixpoint process_lines (fuel : nat) (lines : list text) : list text :=
  match fuel with
  | 0 => lines
  | S f =>
      match lines with
      | [] => []
      | line :: rest =>
          if found (re_search chain_start line) then
            let '(more, remaining) := collect line rest in
            let full_statement := strip (concat (line :: more)) in
            match rewrite_statement full_statement with
            | Some new_statement => new_statement :: process_lines f remaining
            | None => line :: process_lines f rest
            end
          else line :: process_lines f rest
      end
  end.

(** The new content of one file: [readlines], the loop, [writelines]. *)
Definition fix_file_content (content : text) : text :=
  let lines := readlines content in
  concat (process_lines (length lines) lines).

End PipelineV2.

(** * fix_security_test_logging.py *)

Module SecurityTest.

Definition filepath : text :=
  t "/home/tng/workspace/container-kit/pkg/core/security/secret_discovery_test.go".

Definition slog_handler : text := t "slog.New(slog.NewTextHandler(os.Stdout, nil))".

(** "logger := zerolog\.Nop\(\)" and "zerolog\.New\(os\.Stdout\)" *)
Definition nop_pattern : regex := lit "logger := zerolog.Nop()".
Definition new_pattern : regex := lit "zerolog.New(os.Stdout)".

Definition fix_content (content : text) : text :=
  let content := re_sub nop_pattern (fun _ => t "logger := " ++ slog_handler) content in
  re_sub new_pattern (fun _ => slog_handler) content.

End SecurityTest.

(** * Files, standard output and exceptions

    The scripts read and write whole files and print progress lines.  A
    path either names a regular file or something that cannot be opened for
    reading (a directory, a file without permission, undecodable bytes). *)

Inductive node :=
| Regular (data : text) (writable : bool)
| Unreadable.

Inductive exn :=
| FileNotFound (path : text)
| PermissionDenied (path : text).

Record world := World {
  fs : gmap text node;
  stdout : list text;          (* one entry per call of print, oldest first *)
  written : list text          (* the paths written to, oldest first *)
}.

(** [str(e)] for paths that [repr] shows unescaped. *)
Definition str_exn (e : exn) : text :=
  match e with
  | FileNotFound p => t "[Errno 2] No such file or directory: '" ++ p ++ t "'"
  | PermissionDenied p => t "[Errno 13] Permission denied: '" ++ p ++ t "'"
  end.

(** A computation either returns or raises, and leaves a world behind. *)
Definition io (A : Type) : Type := world -> (A + exn) * world.

Definition ret {A} (a : A) : io A := fun w => (inl a, w).
Definition raise {A} (e : exn) : io A := fun w => (inr e, w).

Definition bind {A B} (m : io A) (f : A -> io B) : io B :=
  fun w => match m w with
           | (inl a, w') => f a w'
           | (inr e, w') => (inr e, w')
           end.

(** [try: m  except Exception as e: h e] *)
Definition try_catch {A} (m : io A) (h : exn -> io A) : io A :=
  fun w => match m w with
           | (inl a, w') => (inl a, w')
           | (inr e, w') => h e w'
           end.

#[export] Instance io_ret : MRet io := @ret.
#[export] Instance io_bind : MBind io := fun A B f m => bind m f.

(** Text mode reads with universal newlines: \r\n and \r arrive as \n. *)
Fixpoint universal_newlines (s : text) : text :=
  match s with
  | [] => []
  | c :: s' =>
      if Ascii.eqb c cr then
        nl :: match s' with
              | d :: s'' => if Ascii.eqb d nl then universal_newlines s''
                            else universal_newlines s'
              | [] => []
              end
      else c :: universal_newlines s'
  end.

(** [with open(path, 'r') as f: f.read()] *)
Definition read_file (path : text) : io text :=
  fun w => match fs w !! path with
           | Some (Regular data _) => (inl (universal_newlines data), w)
           | Some Unreadable => (inr (PermissionDenied path), w)
           | None => (inr (FileNotFound path), w)
           end.

(** [with open(path, 'w') as f: f.write(content)] *)
Definition write_file (path content : text) : io unit :=
  fun w => match fs w !! path with
           | Some (Regular _ false) | Some Unreadable =>
               (inr (PermissionDenied path), w)
           | Some (Regular _ true) | None =>
               (inl tt, World (<[path := Regular content true]> (fs w))
                              (stdout w) (written w ++ [path]))
           end.

Definition print (line : text) : io unit :=
  fun w => (inl tt, World (fs w) (stdout w ++ [line]) (written w)).

(** [os.path.exists(path)] *)
Definition path_exists (path : text) : io bool :=
  fun w => (inl (bool_decide (is_Some (fs w !! path))), w).

(** [for x in xs: body x] *)
Fixpoint for_each {A} (xs : list A) (body : A -> io unit) : io unit :=
  match xs with
  | [] => ret tt
  | x :: xs' => body x ;; for_each xs' body
  end.

(** The exit status of a script whose top level is [m]: an exception that
    reaches the top level ends the interpreter with status 1. *)
Definition run (m : io unit) (w : world) : nat * world :=
  match m w with
  | (inl _, w') => (0, w')
  | (inr _, w') => (1, w')
  end.

(** [str(n)] for a count. *)
Definition str_nat (n : nat) : text :=
  t (DecimalString.NilZero.string_of_uint (Nat.to_uint n)).

(** * The drivers *)

Module Driver.

(** [process_file] of convert_zerolog_to_slog.py *)
Definition process_file (filepath : text) : io bool :=
  try_catch
    (content ← read_file filepath;
     if negb (contains (t "logger.") content) || negb (contains (t ".Msg(") content)
     then ret false
     else
       let new_content := Zerolog.convert_zerolog_to_slog content in
       if negb (teq new_content content) then
         write_file filepath new_content;;
         print (t "Converted: " ++ filepath);;
         ret true
       else ret false)
    (fun e =>
       print (t "Error processing " ++ filepath ++ t ": " ++ str_exn e);;
       ret false).

Definition list_file : text := t "zerolog_files.txt".

(** The loop of the list-file mode, threading the counter. *)
Fixpoint convert_all (files : list text) (converted : nat) : io nat :=
  match files with
  | [] => ret converted
  | filepath :: files' =>
      if negb (is_empty filepath) then
        ok ← process_file filepath;
        convert_all files' (if (ok : bool) then S converted else converted)
      else convert_all files' converted
  end.

(** [main] of convert_zerolog_to_slog.py; [argv] is [sys.argv]. *)
Definition main (argv : list text) : io unit :=
  if 1 <? length argv then
    for_each (tl argv) (fun filepath => process_file filepath;; ret tt)
  else
    present ← path_exists list_file;
    if (present : bool) then
      listing ← read_file list_file;
      let files := split_on nl (strip listing) in
      converted ← convert_all files 0;
      print ([nl] ++ t "Converted " ++ str_nat converted ++ t " files")
    else
      print (t "No zerolog_files.txt found. Run find_zerolog_usage.sh first.").

(** [os.path.basename] *)
Definition basename (path : text) : text :=
  List.last (split_on "/"%char path) [].

(** The top level of fix_pipeline_logging_v2.py over its list of files. *)
Definition pipeline_v2_file (filepath : text) : io unit :=
  content ← read_file filepath;
  write_file filepath (PipelineV2.fix_file_content content);;
  print (t "Fixed " ++ basename filepath).

Definition pipeline_v2_over (files : list text) : io unit :=
  for_each files pipeline_v2_file;;
  print (t "Done!").

Definition pipeline_v2_script : io unit := pipeline_v2_over PipelineV2.files.

(** The top level of fix_security_test_logging.py. *)
Definition security_test_on (filepath : text) : io unit :=
  content ← read_file filepath;
  write_file filepath (SecurityTest.fix_content content);;
  print (t "Fixed security test logging").

Definition security_test_script : io unit :=
  security_test_on SecurityTest.filepath.

(** [fix_messagef_in_file] of scripts/fix_messagef_simple.py (its progress
    line starts with a check mark that lies outside the modelled code
    points and is left out). *)
Definition fix_messagef_in_file (filepath : text) : io bool :=
  original_content ← read_file filepath;
  match Messagef.fix_messagef original_content with
  | Some content =>
      write_file filepath content;;
      print (t "Fixed " ++ filepath);;
      ret true
  | None => ret false
  end.

End Driver.

(** * The vocabulary of the statements

    What the theorems below talk about: the words of a pattern, anchors,
    top-level splitting in the words of the specification, the shapes of
    statements and chains, and the batch driver case by case. *)

(** ** Patterns and texts *)

(** The words a regular expression denotes. *)
Inductive lang : regex -> text -> Prop :=
| lang_eps : lang Eps []
| lang_chr p c : p c = true -> lang (Chr p) [c]
| lang_lit l : lang (Lit l) l
| lang_seq a b u v : lang a u -> lang b v -> lang (Seq a b) (u ++ v)
| lang_alt_l a b u : lang a u -> lang (Alt a b) u
| lang_alt_r a b u : lang b u -> lang (Alt a b) u
| lang_star_nil g a : lang (Star g a) []
| lang_star_cons g a u v :
    lang a u -> lang (Star g a) v -> lang (Star g a) (u ++ v)
| lang_group n a u : lang a u -> lang (Group n a) u.

(** What a successful run of a matcher for [r] guarantees. *)
Definition sound_for (x : text * caps) (r : regex)
    (run : text -> caps -> cont -> option (text * caps)) : Prop :=
  forall s cs k, run s cs k = Some x ->
    exists u s' cs', s = u ++ s' /\ lang r u /\ k s' cs' = Some x.

(** [s] ends with [b]. *)
Definition suffix_of (b s : text) : Prop := exists a, s = a ++ b.

(** One of the needles occurs in [s]. *)
Definition contains_any (needles : list text) (s : text) : bool :=
  existsb (fun n => contains n s) needles.

(** [s] is empty or starts with a character outside [p]. *)
Definition stops (p : ascii -> bool) (s : text) : bool :=
  match s with
  | [] => true
  | c :: _ => negb (p c)
  end.

(** How often [x] occurs in [s]. *)
Definition occurrences (x : ascii) (s : text) : nat :=
  length (List.filter (is_char x) s).

(** The closing parenthesis. *)
Definition rp : ascii := ")"%char.

(** A text that closes a parenthesis and later ends in a quoted text in
    parentheses, with no further quote in between. *)
Definition closes_before_message (u : text) : Prop :=
  exists b z q, u = b ++ rp :: z ++ dq :: q ++ dq :: t ")"
    /\ occurrences dq z = 0 /\ occurrences dq q = 0.

(** A continuation that can only succeed on a text with two double
    quotes. *)
Definition needs_two_quotes (k : cont) : Prop :=
  forall s cs x, k s cs = Some x -> 2 <= occurrences dq s.

(** ** Anchors *)

(** The call shapes the patterns need before anything else can match. *)
Definition zerolog_anchors : list text :=
  [t "logger.Debug()"; t "logger.Info()"; t "logger.Warn()"; t "logger.Error()"].

Definition messagef_head : text := t ".Messagef(".

Definition messagef_anchor : text := messagef_head ++ [dq].

(** The content of a file after [fix_messagef_in_file] has run on it. *)
Definition after_messagef (content : text) : text :=
  match Messagef.fix_messagef content with
  | Some c => c
  | None => content
  end.

(** ** Splitting at the top level *)

(** The nesting depth after a prefix: brackets opened minus brackets
    closed. *)
Definition depth_of (pre : text) : Z :=
  (Z.of_nat (length (List.filter Messagef.is_open pre))
   - Z.of_nat (length (List.filter Messagef.is_close pre)))%Z.

(** Splitting at the top level, in the words of the specification: [s] is
    cut at each comma that follows a prefix of nesting depth zero.  [pre]
    is the text in front of [s]. *)
Fixpoint top_level_pieces (pre s : text) : list text :=
  match s with
  | [] => [[]]
  | c :: s' =>
      if Ascii.eqb c ","%char && (depth_of pre =? 0)%Z
      then [] :: top_level_pieces (pre ++ [c]) s'
      else match top_level_pieces (pre ++ [c]) s' with
           | l :: ls => (c :: l) :: ls
           | [] => [[c]]
           end
  end.

Definition split_top_level (s : text) : list text := top_level_pieces [] s.

(** The script drops an empty last piece. *)
Definition drop_empty_tail (pieces : list text) : list text :=
  if is_empty (List.last pieces []) then List.removelast pieces else pieces.

(** ** A statement with a lone error-wrap verb *)

(** After the message, the text that the statement ends with. *)
Definition ending (e : text) : text :=
  t ":" ++ t " " ++ t "%w" ++ dq :: t "," ++ t " " ++ e ++ t ")".

(** The statement b.Messagef('msg: %w', e) and what it is rewritten to. *)
Definition statement (b msg e : text) : text :=
  b ++ messagef_head ++ dq :: msg ++ ending e.

Definition rewritten (b msg e : text) : text :=
  b ++ t ".Message(" ++ dq :: msg ++ dq :: t ").Cause(" ++ e ++ t ")".

(** Every word of the pattern starts with the head and a double quote and
    shows a second double quote later. *)
Definition two_quotes (r : regex) : Prop :=
  forall u, lang r u -> exists y, u = messagef_head ++ dq :: y /\ 1 <= occurrences dq y.

(** Every word of the pattern starts with the anchor. *)
Definition anchored (r : regex) : Prop :=
  forall u, lang r u -> exists y, u = messagef_anchor ++ y.

(** What the colon pattern asks for after the message. *)
Definition colon_tail : regex :=
  cat ([ lit ":"; star ws; lit "%w" ] ++ Messagef.cause_tail).

(** ** Chains of known setters *)

Module Chain.

(** The setters that take a key, and the fields of a chain. *)
Inductive keyed_setter := Str | Int | Bool | Interface | Any.

Definition setter_name (m : keyed_setter) : string :=
  match m with
  | Str => "Str" | Int => "Int" | Bool => "Bool"
  | Interface => "Interface" | Any => "Any"
  end.

Inductive field :=
| Keyed (m : keyed_setter) (key value : text)
| Err (value : text).

(** The text between the parentheses of the field's call. *)
Definition field_value (f : field) : text :=
  match f with
  | Keyed _ key value => dq :: key ++ dq :: t ", " ++ value
  | Err value => value
  end.

Definition field_method (f : field) : string :=
  match f with
  | Keyed m _ _ => setter_name m
  | Err _ => "Err"
  end.

(** The call as it stands in the chain. *)
Definition segment (f : field) : text :=
  t "." ++ t (field_method f) ++ t "(" ++ field_value f ++ t ")".

(** A call with the white space in front of its dot, and the chain of
    several. *)
Definition call_text (c : text * field) : text := fst c ++ segment (snd c).

Definition chain_of (calls : list (text * field)) : text :=
  concat (map call_text calls).

(** The pair the rewritten call shows for the field. *)
Definition pair_of (f : field) : text :=
  match f with
  | Keyed _ key value => dq :: key ++ dq :: t ", " ++ value
  | Err value => dq :: t "error" ++ dq :: t ", " ++ value
  end.

Definition inner (c : ascii) : bool := not_char ")"%char c.

(** A key is a non-empty text without double quote or closing parenthesis;
    a value is a non-empty one-line text without closing parenthesis and
    without white space at either end; an error value has no closing
    parenthesis. *)
Definition plain_key (key : text) : bool :=
  negb (is_empty key) && forallb (not_char dq) key && forallb inner key.

Definition plain_value (value : text) : bool :=
  match value with
  | [] => false
  | c :: _ =>
      negb (is_space c) && negb (is_space (List.last value c))
      && forallb inner value && forallb dot value
  end.

Definition plain_field (f : field) : bool :=
  match f with
  | Keyed _ key value => plain_key key && plain_value value
  | Err value => forallb inner value
  end.

(** The severity of the anchor call. *)
Inductive level := Debug | Info | Warn | Error.

Definition level_name (l : level) : string :=
  match l with
  | Debug => "Debug" | Info => "Info" | Warn => "Warn" | Error => "Error"
  end.

(** The finishing call with its message. *)
Definition finish (message : text) : text :=
  t "." ++ t "Msg(" ++ dq :: message ++ dq :: t ")".

Definition blank (s : text) : bool := forallb is_space s.

Definition plain_call (c : text * field) : bool :=
  blank (fst c) && plain_field (snd c).

(** The receiver in front of logger: none, or a name and a dot. *)
Definition receiver_text (r : option text) : text :=
  match r with
  | Some w => w ++ t "."
  | None => []
  end.

Definition plain_receiver (r : option text) : bool :=
  match r with
  | Some w => negb (is_empty w) && forallb is_word w
  | None => true
  end.

(** A whole statement: the indent, the receiver, logger.Level(), the calls
    of the fields, and the finishing call behind its white space. *)
Record zerolog_call := ZerologCall {
  zc_indent : text;
  zc_receiver : option text;
  zc_level : level;
  zc_calls : list (text * field);
  zc_gap : text;
  zc_message : text
}.

Definition well_formed (c : zerolog_call) : bool :=
  blank (zc_indent c) && plain_receiver (zc_receiver c)
  && forallb plain_call (zc_calls c) && blank (zc_gap c)
  && forallb (not_char dq) (zc_message c).

Definition fields_of (c : zerolog_call) : list field := map snd (zc_calls c).

Definition source_text (c : zerolog_call) : text :=
  zc_indent c ++ receiver_text (zc_receiver c) ++ t "logger."
    ++ t (level_name (zc_level c)) ++ t "()"
    ++ chain_of (zc_calls c) ++ zc_gap c ++ finish (zc_message c).

(** The continuation line of a field in the rewritten call. *)
Definition continuation (indent : text) (f : field) : text :=
  t "," ++ nl :: indent ++ tab :: pair_of f.

(** The call that replaces the statement. *)
Definition slog_text (c : zerolog_call) : text :=
  zc_indent c ++ receiver_text (zc_receiver c) ++ t "logger."
    ++ t (level_name (zc_level c)) ++ t "(" ++ dq :: zc_message c
    ++ dq :: concat (map (continuation (zc_indent c)) (fields_of c)) ++ t ")".

(** The groups the chain pattern captures on the statement. *)
Definition receiver_caps (r : option text) : caps :=
  match r with
  | Some w => [(2, w ++ t ".")]
  | None => []
  end.

Definition statement_caps (c : zerolog_call) : caps :=
  [(5, zc_message c); (4, chain_of (zc_calls c));
   (3, t (level_name (zc_level c)))]
    ++ receiver_caps (zc_receiver c) ++ [(1, zc_indent c)].

(** The groups the key-value pattern captures on the field's call. *)
Definition field_caps (f : field) : caps :=
  [(2, field_value f); (1, t (field_method f))].

End Chain.

(** ** The batch driver, case by case *)

(** The quick check in front of the conversion. *)
Definition needs_conversion (content : text) : bool :=
  contains (t "logger.") content && contains (t ".Msg(") content.

(** The world with one more line printed. *)
Definition with_line (line : text) (w : world) : world :=
  World (fs w) (stdout w ++ [line]) (written w).

(** What [process_file] does to the world, case by case. *)
Definition process_file_spec (filepath : text) (w : world) : (bool + exn) * world :=
  match fs w !! filepath with
  | None =>
      (inl false,
       World (fs w)
             (stdout w ++ [t "Error processing " ++ filepath ++ t ": "
                             ++ str_exn (FileNotFound filepath)])
             (written w))
  | Some Unreadable =>
      (inl false,
       World (fs w)
             (stdout w ++ [t "Error processing " ++ filepath ++ t ": "
                             ++ str_exn (PermissionDenied filepath)])
             (written w))
  | Some (Regular data writable) =>
      let content := universal_newlines data in
      let new_content := Zerolog.convert_zerolog_to_slog content in
      if needs_conversion content && negb (teq new_content content) then
        if writable then
          (inl true,
           World (<[filepath := Regular new_content true]> (fs w))
                 (stdout w ++ [t "Converted: " ++ filepath])
                 (written w ++ [filepath]))
        else
          (inl false,
           World (fs w)
                 (stdout w ++ [t "Error processing " ++ filepath ++ t ": "
                                 ++ str_exn (PermissionDenied filepath)])
                 (written w))
      else (inl false, w)
  end.

(** The world after the files have been processed one after the other. *)
Fixpoint process_all (paths : list text) (w : world) : world :=
  match paths with
  | [] => w
  | p :: ps => process_all ps (snd (Driver.process_file p w))
  end.

(** The counter and the world after the loop of the list-file mode. *)
Fixpoint count_converted (files : list text) (converted : nat) (w : world)
    : nat * world :=
  match files with
  | [] => (converted, w)
  | filepath :: files' =>
      if is_empty filepath then count_converted files' converted w
      else
        match Driver.process_file filepath w with
        | (inl true, w') => count_converted files' (S converted) w'
        | (_, w') => count_converted files' converted w'
        end
  end.

Definition count_line (converted : nat) : text :=
  [nl] ++ t "Converted " ++ str_nat converted ++ t " files".

Definition hint_line : text :=
  t "No zerolog_files.txt found. Run find_zerolog_usage.sh first.".

(** ** Sample worlds and files *)

Definition sample_world : world :=
  World (list_to_map
           [ (t "a.go", Regular (go "logger.Info().Msg('x')|") true);
             (t "b.go", Regular (go "package b|") true);
             (t "c.go", Regular (go "logger.Info(). Msg('x')|") true);
             (t "zerolog_files.txt", Regular (go "a.go|missing.go||b.go|") true) ])
        [] [].

(** The files of the two one-off scripts, none of which holds anything to
    rewrite. *)
Definition settled_world : world :=
  World (list_to_map
           (map (fun p => (p, Regular (go "package pipeline|") true))
                (PipelineV2.files ++ [SecurityTest.filepath])))
        [] [].

Definition single_import_file : text :=
  go "package p||import 'errors'||func f() error {|~return b.Messagef('save %s failed: %w', name, err)|}|".

Definition import_block_file : text :=
  go "package p||import (|~'errors'|)||func f() error {|~return b.Messagef('save %s failed: %w', name, err)|}|".

(** ** What a run may touch, and the anchors of the pipeline scripts *)

(** The paths a run of [main] hands to [process_file]. *)
Definition targets (argv : list text) (w : world) : list text :=
  if 1 <? length argv then tl argv
  else match fs w !! Driver.list_file with
       | Some (Regular listing _) =>
           split_on nl (strip (universal_newlines listing))
       | _ => []
       end.

(** The call shapes the pipeline scripts need before anything can match. *)
Definition pipeline_anchors : list text :=
  [ t ".logger.Info()"; t ".logger.Debug()"; t ".logger.Warn()";
    t ".logger.Error()" ].

(** ** Calls of the pipeline package *)



(** Msg or Msgf. *)
Definition finisher (formatted : bool) : string :=
  if formatted then "Msgf" else "Msg".

(** recv.logger.Level() with what follows. *)
Definition pipeline_head (recv : text) (l : Chain.level) : text :=
  recv ++ t ".logger." ++ t (Chain.level_name l).

(** recv.logger.Level().Msg(args) *)
Definition bare_call (recv : text) (l : Chain.level) (formatted : bool)
    (args : text) : text :=
  pipeline_head recv l ++ t "()" ++ t "." ++ t (finisher formatted)
    ++ t "(" ++ args ++ t ")".


(** recv.logger.Level(args) *)
Definition flat_pipeline_call (recv : text) (l : Chain.level) (args : text)
    : text :=
  pipeline_head recv l ++ t "(" ++ args ++ t ")".

(** A receiver is a word; arguments are a non-empty text without closing
    parenthesis. *)
Definition receiver_word (recv : text) : bool :=
  negb (is_empty recv) && forallb is_word recv.

Definition call_args (args : text) : bool :=
  negb (is_empty args) && forallb Chain.inner args.




(** ** A lone error-wrap verb behind white space *)

(** What follows the verb: the closing quote, the comma and the argument. *)
Definition verb_ending (e : text) : text :=
  t "%w" ++ dq :: t "," ++ t " " ++ e ++ t ")".

(** The statement b.Messagef('msg %w', e), with the white space [sep]
    between message and verb (none at all for 'msg%w'). *)
Definition spaced_statement (b msg sep e : text) : text :=
  b ++ messagef_head ++ dq :: msg ++ sep ++ verb_ending e.

(** The message does not end in white space or in a colon. *)
Definition plain_end (msg : text) : bool :=
  match rev msg with
  | [] => true
  | c :: _ => negb (is_space c) && negb (Ascii.eqb c ":"%char)
  end.

(** What the second and the third pattern ask for after the message. *)
Definition space_tail : regex :=
  cat ([ plus ws; lit "%w" ] ++ Messagef.cause_tail).

Definition bare_tail : regex :=
  cat ([ lit "%w" ] ++ Messagef.cause_tail).

(** ** The run of the line-based script *)

(** A regular file that may be written. *)
Definition writable_file (w : world) (p : text) : Prop :=
  exists data, fs w !! p = Some (Regular data true).

(** The progress line for a file. *)
Definition fixed_line (p : text) : text := t "Fixed " ++ Driver.basename p.

(** ** Texts that mention zerolog in the two known calls only *)

(** The two calls fix_security_test_logging.py looks for. *)
Inductive mention := NopLogger | StdoutLogger.

Definition mention_text (m : mention) : text :=
  match m with
  | NopLogger => t "logger := zerolog.Nop()"
  | StdoutLogger => t "zerolog.New(os.Stdout)"
  end.

(** What stands in its place afterwards. *)
Definition mention_slog (m : mention) : text :=
  match m with
  | NopLogger => t "logger := " ++ SecurityTest.slog_handler
  | StdoutLogger => SecurityTest.slog_handler
  end.

(** A text cut into a head and a list of marked pieces, each followed by
    the text up to the next one. *)
Definition pieces (head : text) (rest : list (text * text)) : text :=
  head ++ concat (map (fun p => fst p ++ snd p) rest).

(** The text with head [head] whose mentions are [rest], each shown by
    [show] and followed by its filler. *)
Definition mentions_only (show : mention -> text) (head : text)
    (rest : list (mention * text)) : text :=
  pieces head (map (fun p => (show (fst p), snd p)) rest).

(** No match of the literal [l] starts in front of the piece [s] and
    reaches into it, and [s] is [l] itself or has no match of [l] starting
    inside it. *)
Definition stands_apart (l s : text) : Prop :=
  (forall a2 l2 tail rest, l = a2 ++ l2 -> a2 <> [] -> l2 <> [] ->
     s ++ tail = l2 ++ rest -> False)
  /\ (s = l \/ forall s1 s2 tail rest, s = s1 ++ s2 -> s2 <> [] ->
                 s2 ++ tail = l ++ rest -> False).

(** What the first substitution leaves of a mention. *)
Definition mention_midway (m : mention) : text :=
  match m with
  | NopLogger => mention_slog NopLogger
  | StdoutLogger => mention_text StdoutLogger
  end.

(** ** Statements in their file *)

(** The characters the pattern can take in front of logger: white space
    for the indent, word characters and the dot for the receiver. *)
Definition lead_char (c : ascii) : bool :=
  is_space c || is_word c || is_char "."%char c.

(** The text does not end in such a character. *)
Definition ends_clear (s : text) : bool :=
  match rev s with
  | [] => true
  | c :: _ => negb (lead_char c)
  end.

(** The text does not go on with a call: there is no dot behind its
    leading white space. *)
Definition starts_clear (s : text) : bool :=
  match lstrip_with is_space s with
  | c :: _ => negb (is_char "."%char c)
  | [] => true
  end.

(** A file: a head and statements, each followed by the text up to the
    next one. *)
Definition file_text (show : Chain.zerolog_call -> text) (head : text)
    (rest : list (Chain.zerolog_call * text)) : text :=
  pieces head (map (fun p => (show (fst p), snd p)) rest).

(** Every statement is well formed, has no closing parenthesis in its
    message, stands behind a text that ends clear and in front of one
    that starts clear. *)
Fixpoint statements_clear (head : text)
    (rest : list (Chain.zerolog_call * text)) : bool :=
  match rest with
  | [] => true
  | (c, f) :: rest' =>
      ends_clear head && Chain.well_formed c
      && forallb Chain.inner (Chain.zc_message c)
      && starts_clear (file_text Chain.source_text f rest')
      && statements_clear f rest'
  end.

(** ** The groups of a pattern *)


(** ** Chains with calls the engine does not know *)












(** * Properties of the matcher *)

Lemma strip_prefix_Some l s s' : strip_prefix l s = Some s' -> s = l ++ s'.
Proof.
  revert s. induction l as [|c l IH]; intros s H; simpl in *.
  - congruence.
  - destruct s as [|d s]; [discriminate|].
    destruct (Ascii.eqb c d) eqn:E; [|discriminate].
    apply Ascii.eqb_eq in E. subst d. f_equal. auto.
Qed.

Lemma strip_prefix_app l s : strip_prefix l (l ++ s) = Some s.
Proof.
  induction l as [|c l IH]; simpl; [reflexivity|].
  rewrite Ascii.eqb_refl. exact IH.
Qed.

Section Soundness.

Context (x : text * caps).

Lemma star_loop_sound g a :
  sound_for x a (rmatch a) ->
  forall k fuel s cs, star_loop (rmatch a) g k fuel s cs = Some x ->
    exists u s' cs', s = u ++ s' /\ lang (Star g a) u /\ k s' cs' = Some x.
Proof.
  intros Ha k fuel. induction fuel as [|f IH]; intros s cs H; simpl in H.
  - exists [], s, cs. repeat split; [constructor | exact H].
  - assert (Hstop : k s cs = Some x ->
              exists u s' cs', s = u ++ s' /\ lang (Star g a) u /\ k s' cs' = Some x).
    { intros Hk. exists [], s, cs. repeat split; [constructor | exact Hk]. }
    assert (Hiter : rmatch a s cs
               (fun s' cs' => if length s' <? length s
                              then star_loop (rmatch a) g k f s' cs' else None) = Some x ->
              exists u s' cs', s = u ++ s' /\ lang (Star g a) u /\ k s' cs' = Some x).
    { intros Hb. apply Ha in Hb as (u & s1 & cs1 & -> & Hu & Hk).
      destruct (length s1 <? length (u ++ s1)); [|discriminate].
      apply IH in Hk as (v & s2 & cs2 & -> & Hv & Hk).
      exists (u ++ v), s2, cs2. rewrite <- app_assoc.
      repeat split; [constructor; assumption | exact Hk]. }
    destruct g.
    + destruct (rmatch a s cs _); [apply Hiter | apply Hstop]; exact H.
    + destruct (k s cs); [apply Hstop | apply Hiter]; exact H.
Qed.

Lemma rmatch_sound r : sound_for x r (rmatch r).
Proof.
  induction r as [|p|l|a IHa b IHb|a IHa b IHb|g a IHa|n a IHa];
    intros s cs k H; simpl in H.
  - exists [], s, cs. repeat split; [constructor | exact H].
  - destruct s as [|c s]; [discriminate|].
    destruct (p c) eqn:E; [|discriminate].
    exists [c], s, cs. repeat split; [constructor; exact E | exact H].
  - destruct (strip_prefix l s) as [s'|] eqn:E; [|discriminate].
    apply strip_prefix_Some in E. subst s.
    exists l, s', cs. repeat split; [constructor | exact H].
  - apply IHa in H as (u & s1 & cs1 & -> & Hu & H).
    apply IHb in H as (v & s2 & cs2 & -> & Hv & H).
    exists (u ++ v), s2, cs2. rewrite <- app_assoc.
    repeat split; [constructor; assumption | exact H].
  - destruct (rmatch a s cs k) eqn:E.
    + rewrite <- E in H. apply IHa in H as (u & s1 & cs1 & -> & Hu & H).
      exists u, s1, cs1. repeat split; [apply lang_alt_l; exact Hu | exact H].
    + apply IHb in H as (u & s1 & cs1 & -> & Hu & H).
      exists u, s1, cs1. repeat split; [apply lang_alt_r; exact Hu | exact H].
  - eapply star_loop_sound; eassumption.
  - apply IHa in H as (u & s1 & cs1 & -> & Hu & H).
    eexists u, s1, _. repeat split; [constructor; exact Hu | exact H].
Qed.

End Soundness.

(** A match found at the head of [s] is a word of the pattern, followed by
    the rest. *)
Lemma re_match_sound r s mo :
  re_match r s = Some mo ->
  s = m_text mo ++ m_rest mo /\ lang r (m_text mo).
Proof.
  unfold re_match. destruct (rmatch r s [] accept) as [[rest cs]|] eqn:E;
    [|discriminate].
  intros [= <-]. simpl.
  apply rmatch_sound in E as (u & s' & cs' & -> & Hu & Hk).
  unfold accept in Hk. injection Hk as -> ->.
  rewrite length_app.
  replace (length u + length rest - length rest) with (length u) by lia.
  rewrite firstn_app, Nat.sub_diag, firstn_all. simpl.
  rewrite app_nil_r. split; [reflexivity | exact Hu].
Qed.

Lemma suffix_of_refl s : suffix_of s s.
Proof. exists []. reflexivity. Qed.

Lemma suffix_of_tail c s b : suffix_of b s -> suffix_of b (c :: s).
Proof. intros [a ->]. exists (c :: a). reflexivity. Qed.

Lemma suffix_of_cons c b s : suffix_of (c :: b) s -> suffix_of b s.
Proof. intros [a ->]. exists (a ++ [c]). rewrite <- app_assoc. reflexivity. Qed.

Lemma suffix_of_app_inv x b s :
  suffix_of x (b ++ s) ->
  (exists b1 b2, b = b1 ++ b2 /\ b2 <> [] /\ x = b2 ++ s) \/ suffix_of x s.
Proof.
  intros [a E]. revert a E. induction b as [|c b IH]; intros a E.
  - right. exists a. exact E.
  - destruct a as [|d a].
    + left. exists [], (c :: b). repeat split; [discriminate | symmetry; exact E].
    + simpl in E. injection E as <- E.
      destruct (IH a E) as [(b1 & b2 & -> & Hne & ->)|Hs].
      * left. exists (c :: b1), b2. auto.
      * right. exact Hs.
Qed.

(** Without a match at any position, [re.sub] is the identity. *)
Lemma sub_loop_no_match r repl fuel s :
  (forall b, suffix_of b s -> re_match r b = None) ->
  sub_loop fuel r repl s = s.
Proof.
  revert s. induction fuel as [|f IH]; intros s H; simpl; [reflexivity|].
  rewrite (H s (suffix_of_refl s)).
  destruct s as [|c s]; [reflexivity|].
  f_equal. apply IH. intros b Hb. apply H. apply suffix_of_tail. exact Hb.
Qed.

Lemma re_sub_no_match r repl s :
  (forall b, suffix_of b s -> re_match r b = None) ->
  re_sub r repl s = s.
Proof. apply sub_loop_no_match. Qed.

Lemma re_search_no_match r s :
  (forall b, suffix_of b s -> re_match r b = None) ->
  re_search r s = None.
Proof.
  induction s as [|c s IH]; intros H; simpl.
  - rewrite (H [] (suffix_of_refl [])). reflexivity.
  - rewrite (H _ (suffix_of_refl _)).
    rewrite IH; [reflexivity|].
    intros b Hb. apply H. apply suffix_of_tail. exact Hb.
Qed.

Lemma contains_unfold needle s :
  contains needle s =
  match strip_prefix needle s with
  | Some _ => true
  | None => match s with [] => false | _ :: s' => contains needle s' end
  end.
Proof. destruct s; reflexivity. Qed.

(** [contains] decides the substring relation. *)
Lemma contains_true needle s :
  contains needle s = true <-> exists a b, s = a ++ needle ++ b.
Proof.
  split.
  - induction s as [|c s IH]; simpl.
    + destruct (strip_prefix needle []) eqn:E; [|discriminate].
      intros _. apply strip_prefix_Some in E. exists [], l. exact E.
    + destruct (strip_prefix needle (c :: s)) eqn:E.
      * intros _. apply strip_prefix_Some in E. exists [], l. exact E.
      * intros H. destruct (IH H) as (a & b & ->).
        exists (c :: a), b. reflexivity.
  - intros (a & b & ->). induction a as [|c a IH]; rewrite contains_unfold.
    + simpl. rewrite strip_prefix_app. reflexivity.
    + simpl. rewrite IH.
      destruct (strip_prefix needle (c :: a ++ needle ++ b)); reflexivity.
Qed.

Lemma contains_false_suffix needle s b :
  contains needle s = false -> suffix_of b s -> contains needle b = false.
Proof.
  intros H [a ->]. destruct (contains needle b) eqn:E; [|reflexivity].
  apply contains_true in E as (a' & b' & ->).
  assert (contains needle (a ++ a' ++ needle ++ b') = true) as H'.
  { apply contains_true. exists (a ++ a'), b'. rewrite <- app_assoc. reflexivity. }
  congruence.
Qed.

(** ** Inversion of [lang] *)

Lemma lang_seq_inv a b u :
  lang (Seq a b) u -> exists v w, u = v ++ w /\ lang a v /\ lang b w.
Proof. inversion 1; subst; eauto. Qed.

Lemma lang_lit_inv l u : lang (Lit l) u -> u = l.
Proof. inversion 1; reflexivity. Qed.

Lemma lang_chr_inv p u : lang (Chr p) u -> exists c, u = [c] /\ p c = true.
Proof. inversion 1; subst; eauto. Qed.

Lemma lang_group_inv n a u : lang (Group n a) u -> lang a u.
Proof. inversion 1; assumption. Qed.

Lemma lang_alt_inv a b u : lang (Alt a b) u -> lang a u \/ lang b u.
Proof. inversion 1; subst; auto. Qed.

Lemma lang_eps_inv u : lang Eps u -> u = [].
Proof. inversion 1; reflexivity. Qed.

(** Takes a hypothesis [lang r u] apart along the syntax of [r], down to
    stars, which are kept. *)
Ltac lang_inv H :=
  lazymatch type of H with
  | lang (Seq _ _) _ =>
      let v := fresh "v" in let w := fresh "w" in
      let H1 := fresh "L" in let H2 := fresh "L" in
      apply lang_seq_inv in H as (v & w & -> & H1 & H2);
      lang_inv H1; lang_inv H2
  | lang (Lit _) _ => apply lang_lit_inv in H; subst
  | lang (Group _ _) _ => apply lang_group_inv in H; lang_inv H
  | lang Eps _ => apply lang_eps_inv in H; subst
  | lang (Chr _) _ =>
      let c := fresh "c" in let E := fresh "E" in
      apply lang_chr_inv in H as (c & -> & E)
  | lang (Alt _ _) _ =>
      apply lang_alt_inv in H as [H|H]; lang_inv H
  | _ => idtac
  end.

(** ** Substrings *)

Lemma contains_inside needle a u b :
  contains needle u = true -> contains needle (a ++ u ++ b) = true.
Proof.
  intros H. apply contains_true in H as (a' & b' & ->).
  apply contains_true. exists (a ++ a'), (b' ++ b).
  repeat rewrite <- app_assoc. reflexivity.
Qed.

Lemma contains_any_inside needles a u b :
  contains_any needles u = true -> contains_any needles (a ++ u ++ b) = true.
Proof.
  unfold contains_any. rewrite !existsb_exists.
  intros (n & Hn & H). exists n. split; [exact Hn|].
  apply contains_inside. exact H.
Qed.

(** A pattern whose every word shows one of the needles finds nothing in a
    text that shows none of them. *)
Lemma no_match_without needles r s :
  (forall u, lang r u -> contains_any needles u = true) ->
  contains_any needles s = false ->
  forall b, suffix_of b s -> re_match r b = None.
Proof.
  intros Hr Hs b [a ->].
  destruct (re_match r b) as [mo|] eqn:E; [|reflexivity].
  apply re_match_sound in E as [Hb Hu].
  apply Hr in Hu.
  apply (contains_any_inside needles a _ (m_rest mo)) in Hu.
  rewrite <- Hb in Hu. congruence.
Qed.

(** ** Lines *)

Lemma split_on_shape sep s :
  exists l ls, split_on sep s = l :: ls /\ (exists b, s = l ++ b) /\
    forall line, In line ls -> exists a b, s = a ++ line ++ b.
Proof.
  induction s as [|c s (l & ls & El & (b & Hl) & Hls)].
  - exists [], []. split; [reflexivity|]. split; [exists []; reflexivity|].
    intros line [].
  - simpl. rewrite El. destruct (Ascii.eqb c sep).
    + exists [], (l :: ls). split; [reflexivity|].
      split; [exists (c :: s); reflexivity|].
      intros line [<-|H].
      * exists [c], b. simpl. f_equal. exact Hl.
      * destruct (Hls line H) as (a' & b' & ->). exists (c :: a'), b'. reflexivity.
    + exists (c :: l), ls. split; [reflexivity|].
      split; [exists b; simpl; f_equal; exact Hl|].
      intros line H.
      destruct (Hls line H) as (a' & b' & ->). exists (c :: a'), b'. reflexivity.
Qed.

Lemma split_on_inside sep s line :
  In line (split_on sep s) -> exists a b, s = a ++ line ++ b.
Proof.
  destruct (split_on_shape sep s) as (l & ls & -> & (b & Hl) & Hls).
  intros [<-|H]; [exists [], b; exact Hl | apply Hls; exact H].
Qed.

Lemma join_split_on sep s : join [sep] (split_on sep s) = s.
Proof.
  induction s as [|c s IH]; [reflexivity|]. simpl.
  destruct (split_on_shape sep s) as (l & ls & El & _).
  rewrite El in *.
  destruct (Ascii.eqb c sep) eqn:E.
  - apply Ascii.eqb_eq in E. subst c.
    change (join [sep] ([] :: l :: ls)) with (sep :: join [sep] (l :: ls)).
    rewrite IH. reflexivity.
  - destruct ls; simpl in *; rewrite <- IH; reflexivity.
Qed.

Lemma teq_true a b : teq a b = true <-> a = b.
Proof. unfold teq. apply bool_decide_eq_true. Qed.

Lemma teq_false a b : teq a b = false <-> a <> b.
Proof. unfold teq. apply bool_decide_eq_false. Qed.

Lemma teq_refl a : teq a a = true.
Proof. apply teq_true. reflexivity. Qed.

Lemma contains_any_at needles needle s a b :
  In needle needles -> s = a ++ needle ++ b -> contains_any needles s = true.
Proof.
  intros H ->. apply existsb_exists. exists needle. split; [exact H|].
  apply contains_true. eauto.
Qed.

(** Closes [contains_any ns (v ++ w ++ r) = true] when [r] starts with one
    of the needles. *)
Ltac find_needle :=
  match goal with
  | |- contains_any ?ns (?v ++ ?w ++ ?r) = true =>
      rewrite (app_assoc v w r);
      let rec try_all l :=
        lazymatch l with
        | ?n :: ?l' =>
            first [ solve [ eapply (contains_any_at ns n _ (v ++ w));
                            [ simpl; tauto | reflexivity ] ]
                  | try_all l' ]
        end in
      let l := eval unfold ns in ns in try_all l
  end.

(** * Idempotence *)

Module Idempotence.

Lemma zerolog_head_anchor rest u :
  lang (cat (Zerolog.anchor_part ++ rest)) u ->
  contains_any zerolog_anchors u = true.
Proof.
  intros H. unfold Zerolog.anchor_part in H.
  simpl in H. unfold opt, level_names, lit in H. simpl in H.
  lang_inv H.
  all: find_needle.
Qed.

Lemma zerolog_fixpoint s :
  contains_any zerolog_anchors s = false ->
  Zerolog.convert_zerolog_to_slog s = s.
Proof.
  intros H. unfold Zerolog.convert_zerolog_to_slog.
  rewrite (re_sub_no_match Zerolog.pattern).
  - apply re_sub_no_match.
    apply (no_match_without zerolog_anchors); [|exact H].
    intros u. apply (zerolog_head_anchor _ u).
  - apply (no_match_without zerolog_anchors); [|exact H].
    intros u. apply (zerolog_head_anchor _ u).
Qed.

Lemma messagef_head_anchor rest u :
  lang (cat (lit ".Messagef(" :: Chr (is_char dq) :: rest)) u ->
  contains messagef_anchor u = true.
Proof.
  intros H. simpl in H. unfold lit in H. lang_inv H.
  unfold is_char in E. apply Ascii.eqb_eq in E. subst c.
  apply contains_true. exists [], w0. reflexivity.
Qed.

Lemma messagef_no_match r s :
  (forall u, lang r u -> contains messagef_anchor u = true) ->
  contains messagef_anchor s = false ->
  forall b, suffix_of b s -> re_match r b = None.
Proof.
  intros Hr Hs. apply (no_match_without [messagef_anchor]).
  - intros u Hu. simpl. rewrite (Hr u Hu). reflexivity.
  - simpl. rewrite Hs. reflexivity.
Qed.

Lemma fix_line_without_anchor line :
  contains messagef_anchor line = false -> Messagef.fix_line line = line.
Proof.
  intros H. unfold Messagef.fix_line.
  destruct (_ && _); [|reflexivity].
  rewrite re_search_no_match; [reflexivity|].
  apply messagef_no_match; [|exact H].
  intros u. apply (messagef_head_anchor _ u).
Qed.

Lemma rewrite_content_without_anchor s :
  contains messagef_anchor s = false -> Messagef.rewrite_content s = s.
Proof.
  intros H. unfold Messagef.rewrite_content, Messagef.single_verb_pass.
  assert (Hsub : forall r, (exists rest, r = cat (lit ".Messagef(" :: Chr (is_char dq) :: rest)) ->
            re_sub r (expand Messagef.cause_template) s = s).
  { intros r [rest ->]. apply re_sub_no_match.
    apply messagef_no_match; [|exact H].
    intros u. apply messagef_head_anchor. }
  rewrite (Hsub Messagef.colon_pattern) by (eexists; reflexivity).
  rewrite (Hsub Messagef.space_pattern) by (eexists; reflexivity).
  rewrite (Hsub Messagef.bare_pattern) by (eexists; reflexivity).
  unfold Messagef.multi_verb_pass.
  rewrite <- (join_split_on nl s) at 2. f_equal.
  rewrite <- (map_id (split_on nl s)) at 2.
  apply map_ext_in. intros line Hin.
  apply fix_line_without_anchor.
  apply split_on_inside in Hin as (a & b & ->).
  destruct (contains messagef_anchor line) eqn:E; [|reflexivity].
  apply (contains_inside _ a _ b) in E. congruence.
Qed.




(** The Messagef rewrite is not idempotent on every input either. *)
Lemma messagef_second_run_edits :
  let C := go ".Messagef('x.Messagef(%w', e)%w', e2)" in
  after_messagef C = go ".Message('x.Messagef(').Cause(e)%w', e2)"
  /\ Messagef.fix_messagef (after_messagef C)
     = Some (go ".Message('x.Message(').Cause(e)').Cause(e2)").
Proof. intros C. split; vm_compute; reflexivity. Qed.

End Idempotence.

(** * Splitting the argument text *)

Module Splitting.

Import Messagef.

Lemma depth_of_snoc pre c :
  depth_of (pre ++ [c]) =
  (if is_open c then depth_of pre + 1
   else if is_close c then depth_of pre - 1
   else depth_of pre)%Z.
Proof.
  unfold depth_of. rewrite !List.filter_app, !length_app. simpl.
  destruct (is_open c) eqn:Eo; destruct (is_close c) eqn:Ec; simpl; try lia.
  exfalso. revert Eo Ec.
  destruct c as [[] [] [] [] [] [] [] []]; vm_compute; congruence.
Qed.

Lemma top_level_pieces_nonempty pre s : top_level_pieces pre s <> [].
Proof.
  revert pre. induction s as [|c s IH]; intros pre; simpl; [discriminate|].
  destruct (_ && _); [discriminate|].
  destruct (top_level_pieces (pre ++ [c]) s); discriminate.
Qed.

(** The loop of the script, started after [pre] with [current_arg] and
    [args_parts] in hand, against the pieces of the specification. *)
Lemma split_loop_pieces s : forall pre current_arg args_parts,
  split_loop s (depth_of pre) current_arg args_parts =
  match top_level_pieces pre s with
  | p :: ps =>
      (List.last ((current_arg ++ p) :: ps) [],
       args_parts ++ map strip (List.removelast ((current_arg ++ p) :: ps)))
  | [] => (current_arg, args_parts)
  end.
Proof.
  induction s as [|c s IH]; intros pre cur parts.
  - simpl. rewrite !app_nil_r. reflexivity.
  - cbn [split_loop top_level_pieces].
    pose proof (depth_of_snoc pre c) as Hd.
    pose proof (top_level_pieces_nonempty (pre ++ [c]) s) as Hne.
    destruct (is_open c) eqn:Eo.
    { assert (Ascii.eqb c ","%char = false) as ->.
      { destruct (Ascii.eqb_spec c ","%char); [subst; discriminate|reflexivity]. }
      cbn [andb]. rewrite <- Hd, IH.
      destruct (top_level_pieces (pre ++ [c]) s) as [|l ls]; [congruence|].
      rewrite <- app_assoc. reflexivity. }
    destruct (is_close c) eqn:Ec.
    { assert (Ascii.eqb c ","%char = false) as ->.
      { destruct (Ascii.eqb_spec c ","%char); [subst; discriminate|reflexivity]. }
      cbn [andb]. rewrite <- Hd, IH.
      destruct (top_level_pieces (pre ++ [c]) s) as [|l ls]; [congruence|].
      rewrite <- app_assoc. reflexivity. }
    destruct (Ascii.eqb c ","%char && (depth_of pre =? 0)%Z) eqn:Ecut.
    + rewrite <- Hd, IH.
      destruct (top_level_pieces (pre ++ [c]) s) as [|l ls]; [congruence|].
      rewrite app_nil_r. cbn [app].
      change (List.removelast (cur :: l :: ls)) with (cur :: List.removelast (l :: ls)).
      change (List.last (cur :: l :: ls) []) with (List.last (l :: ls) []).
      cbn [map]. rewrite <- app_assoc. reflexivity.
    + rewrite <- Hd, IH.
      destruct (top_level_pieces (pre ++ [c]) s) as [|l ls]; [congruence|].
      rewrite <- app_assoc. reflexivity.
Qed.

(** C3 (as amended): the script's splitter refines top-level splitting on
    brackets alone.  Its parts are the pieces of the argument text cut at
    exactly the commas of nesting depth zero, counting (), {} and [],
    each piece stripped and an empty last piece dropped; string literals
    play no part. *)
Theorem split_args_top_level (args_str : text) :
  split_args args_str = map strip (drop_empty_tail (split_top_level args_str)).
Proof.
  unfold split_args, split_top_level, drop_empty_tail.
  change 0%Z with (depth_of []).
  rewrite split_loop_pieces.
  pose proof (top_level_pieces_nonempty [] args_str) as Hne.
  destruct (top_level_pieces [] args_str) as [|p ps]; [congruence|].
  cbn [app].
  destruct (is_empty (List.last (p :: ps) [])) eqn:E; [reflexivity|].
  cbn [app].
  rewrite (app_removelast_last [] (l := p :: ps)) at 3 by discriminate.
  rewrite map_app. reflexivity.
Qed.

(** The pieces, put back together with commas, are the argument text: a
    cut is always at a comma. *)
Lemma top_level_pieces_join pre s :
  join (t ",") (top_level_pieces pre s) = s.
Proof.
  revert pre. induction s as [|c s IH]; intros pre; [reflexivity|].
  cbn [top_level_pieces].
  pose proof (top_level_pieces_nonempty (pre ++ [c]) s) as Hne.
  specialize (IH (pre ++ [c])).
  destruct (Ascii.eqb c ","%char && (depth_of pre =? 0)%Z) eqn:E.
  - apply andb_prop in E as [E _]. apply Ascii.eqb_eq in E. subst c.
    destruct (top_level_pieces (pre ++ [","%char]) s) as [|l ls]; [congruence|].
    change (join (t ",") ([] :: l :: ls)) with (","%char :: join (t ",") (l :: ls)).
    rewrite IH. reflexivity.
  - destruct (top_level_pieces (pre ++ [c]) s) as [|l ls]; [congruence|].
    destruct ls; simpl in *; rewrite <- IH; reflexivity.
Qed.

(** C3 (as stated) fails: a comma inside a string literal is taken as a
    boundary. *)
Lemma split_inside_string_literal :
  split_args (go "'a,b', err") = [go "'a"; go "b'"; go "err"].
Proof. vm_compute. reflexivity. Qed.

(** A comma inside nested brackets is not. *)
Example split_nested_call :
  split_args (go "f(x, y), [1, 2], err") = [go "f(x, y)"; go "[1, 2]"; go "err"].
Proof. vm_compute. reflexivity. Qed.

End Splitting.

(** * Matching a known text

    Lemmas that run the matcher forward over a text whose shape is known:
    each reduces a goal [rmatch r (w ++ s) cs k = Some x] to the
    continuation applied after the part [w] that [r] takes. *)

Lemma firstn_consumed (w s : text) :
  firstn (length (w ++ s) - length s) (w ++ s) = w.
Proof.
  rewrite length_app.
  replace (length w + length s - length s) with (length w) by lia.
  rewrite firstn_app, Nat.sub_diag, firstn_all. simpl. apply app_nil_r.
Qed.

Lemma rmatch_cat_cons a l s cs k :
  rmatch (cat (a :: l)) s cs k
  = rmatch a s cs (fun s' cs' => rmatch (cat l) s' cs' k).
Proof. reflexivity. Qed.

Lemma rmatch_cat_nil s cs k : rmatch (cat []) s cs k = k s cs.
Proof. reflexivity. Qed.

Lemma rmatch_lit_app l s cs k : rmatch (Lit l) (l ++ s) cs k = k s cs.
Proof. simpl. rewrite strip_prefix_app. reflexivity. Qed.

Lemma rmatch_chr_ok p c s cs k :
  p c = true -> rmatch (Chr p) (c :: s) cs k = k s cs.
Proof. intros H. simpl. rewrite H. reflexivity. Qed.

Lemma star_loop_greedy_class p k x : forall w s cs fuel,
  forallb p w = true -> stops p s = true -> k s cs = Some x ->
  length w <= fuel ->
  star_loop (rmatch (Chr p)) true k fuel (w ++ s) cs = Some x.
Proof.
  induction w as [|c w IH]; intros s cs fuel Hw Hs Hk Hf.
  - destruct fuel as [|f]; simpl; [exact Hk|].
    destruct s as [|c s]; [exact Hk|].
    simpl in Hs. apply negb_true_iff in Hs. rewrite Hs. exact Hk.
  - destruct fuel as [|f]; [simpl in Hf; lia|].
    simpl in Hw. apply andb_prop in Hw as [Hc Hw].
    cbn [app star_loop rmatch]. rewrite Hc.
    assert ((length (w ++ s) <? length (c :: w ++ s)) = true) as ->.
    { apply Nat.ltb_lt. simpl. lia. }
    rewrite IH; [reflexivity|assumption..|simpl in Hf; lia].
Qed.

Lemma rmatch_star_class p w s cs k x :
  forallb p w = true -> stops p s = true -> k s cs = Some x ->
  rmatch (star (Chr p)) (w ++ s) cs k = Some x.
Proof.
  intros. unfold star. cbn [rmatch].
  apply star_loop_greedy_class; try assumption.
  rewrite length_app. lia.
Qed.

Lemma rmatch_plus_class p c w s cs k x :
  p c = true -> forallb p w = true -> stops p s = true -> k s cs = Some x ->
  rmatch (plus (Chr p)) (c :: w ++ s) cs k = Some x.
Proof.
  intros Hc Hw Hs Hk. unfold plus. cbn [rmatch]. rewrite Hc.
  apply (rmatch_star_class p w s cs k x Hw Hs Hk).
Qed.

Lemma star_loop_lazy_class p k x : forall w s cs fuel,
  forallb p w = true ->
  (forall w1 w2, w = w1 ++ w2 -> w2 <> [] -> k (w2 ++ s) cs = None) ->
  k s cs = Some x ->
  length w <= fuel ->
  star_loop (rmatch (Chr p)) false k fuel (w ++ s) cs = Some x.
Proof.
  induction w as [|c w IH]; intros s cs fuel Hw Hfail Hk Hf.
  - destruct fuel as [|f]; simpl; [exact Hk|]. rewrite Hk. reflexivity.
  - destruct fuel as [|f]; [simpl in Hf; lia|].
    simpl in Hw. apply andb_prop in Hw as [Hc Hw].
    cbn [app star_loop rmatch].
    change (c :: w ++ s) with ((c :: w) ++ s).
    rewrite (Hfail [] (c :: w) eq_refl) by discriminate.
    cbn [app]. rewrite Hc.
    assert ((length (w ++ s) <? length (c :: w ++ s)) = true) as ->.
    { apply Nat.ltb_lt. simpl. lia. }
    apply IH; [assumption| |assumption|simpl in Hf; lia].
    intros w1 w2 -> Hne. apply (Hfail (c :: w1) w2 eq_refl Hne).
Qed.

Lemma rmatch_lazy_star_class p w s cs k x :
  forallb p w = true ->
  (forall w1 w2, w = w1 ++ w2 -> w2 <> [] -> k (w2 ++ s) cs = None) ->
  k s cs = Some x ->
  rmatch (lazy_star (Chr p)) (w ++ s) cs k = Some x.
Proof.
  intros. unfold lazy_star. cbn [rmatch].
  apply star_loop_lazy_class; try assumption.
  rewrite length_app. lia.
Qed.

(** [re.sub] copies a prefix in which no match starts. *)
Lemma sub_loop_copy r repl : forall b s fuel,
  (forall b1 b2, b = b1 ++ b2 -> b2 <> [] -> re_match r (b2 ++ s) = None) ->
  sub_loop (length b + fuel) r repl (b ++ s) = b ++ sub_loop fuel r repl s.
Proof.
  induction b as [|c b IH]; intros s fuel H; [reflexivity|].
  cbn [length Nat.add sub_loop app].
  change (c :: b ++ s) with ((c :: b) ++ s).
  rewrite (H [] (c :: b) eq_refl) by discriminate.
  cbn [app]. f_equal. apply IH.
  intros b1 b2 -> Hne. apply (H (c :: b1) b2 eq_refl Hne).
Qed.

Lemma sub_loop_nil fuel r repl :
  re_match r [] = None -> sub_loop fuel r repl [] = [].
Proof. intros H. destruct fuel; simpl; [reflexivity|]. rewrite H. reflexivity. Qed.

(** ** Counting a character *)

Lemma occurrences_app x a b :
  occurrences x (a ++ b) = occurrences x a + occurrences x b.
Proof. unfold occurrences. rewrite List.filter_app, length_app. reflexivity. Qed.

Lemma occurrences_cons x c s :
  occurrences x (c :: s) = (if is_char x c then 1 else 0) + occurrences x s.
Proof. unfold occurrences. simpl. destruct (is_char x c); reflexivity. Qed.

(** A text is cut at its first occurrence of a character in one way only. *)
Lemma first_occurrence_unique x : forall a a' b b',
  occurrences x a = 0 -> occurrences x a' = 0 ->
  a ++ x :: b = a' ++ x :: b' -> a = a' /\ b = b'.
Proof.
  assert (Hx : is_char x x = true) by (unfold is_char; apply Ascii.eqb_refl).
  induction a as [|c a IH]; intros a' b b' Ha Ha' E.
  - destruct a' as [|c' a']; simpl in E.
    + injection E as ->. auto.
    + injection E as <- _. rewrite occurrences_cons, Hx in Ha'. discriminate.
  - destruct a' as [|c' a']; simpl in E.
    + injection E as -> _. rewrite occurrences_cons, Hx in Ha. discriminate.
    + injection E as <- E.
      rewrite occurrences_cons in Ha, Ha'.
      destruct (IH a' b b') as [-> ->]; [lia|lia|exact E|]. auto.
Qed.

(** A prefix without [x] ends before the first [x]. *)
Lemma prefix_before_first x : forall u a b r,
  a ++ x :: b = u ++ r -> occurrences x u = 0 -> occurrences x a = 0 ->
  exists y, a = u ++ y.
Proof.
  assert (Hx : is_char x x = true) by (unfold is_char; apply Ascii.eqb_refl).
  induction u as [|c u IH]; intros a b r E Hu Ha.
  - exists a. reflexivity.
  - rewrite occurrences_cons in Hu.
    destruct a as [|d a]; simpl in E.
    + injection E as <- _. rewrite Hx in Hu. discriminate.
    + injection E as -> E. rewrite occurrences_cons in Ha.
      destruct (IH a b r E) as [y ->]; [lia..|]. exists y. reflexivity.
Qed.

Lemma occurrences_forallb x p s :
  (forall c, p c = true -> is_char x c = false) ->
  forallb p s = true -> occurrences x s = 0.
Proof.
  intros Hp. induction s as [|c s IH]; [reflexivity|]. simpl.
  intros H. apply andb_prop in H as [Hc Hs].
  rewrite occurrences_cons, (Hp c Hc), (IH Hs). reflexivity.
Qed.

Lemma lang_star_class g p u : lang (Star g (Chr p)) u -> forallb p u = true.
Proof.
  remember (Star g (Chr p)) as r eqn:Er. intros H.
  induction H; try discriminate; [reflexivity|].
  injection Er as -> ->. apply lang_chr_inv in H as (c & -> & Hc). simpl.
  rewrite IHlang2 by reflexivity. rewrite Hc. reflexivity.
Qed.

Lemma rmatch_group n a s cs k :
  rmatch (Group n a) s cs k
  = rmatch a s cs (fun s' cs' => k s' ((n, firstn (length s - length s') s) :: cs')).
Proof. reflexivity. Qed.

Lemma rmatch_lit_t str s cs k : rmatch (lit str) (t str ++ s) cs k = k s cs.
Proof. apply rmatch_lit_app. Qed.

Lemma rmatch_lit_end str cs k : rmatch (lit str) (t str) cs k = k [] cs.
Proof. rewrite <- (app_nil_r (t str)) at 1. apply rmatch_lit_app. Qed.

Lemma rmatch_star_none p s cs k x :
  stops p s = true -> k s cs = Some x ->
  rmatch (star (Chr p)) s cs k = Some x.
Proof. intros. apply (rmatch_star_class p [] s); auto. Qed.

Lemma first_occurrence_flex x a a' b b' (l r : text) :
  l = r -> l = a ++ x :: b -> r = a' ++ x :: b' ->
  occurrences x a = 0 -> occurrences x a' = 0 -> a = a'.
Proof.
  intros E -> -> Ha Ha'. exact (proj1 (first_occurrence_unique x a a' b b' Ha Ha' E)).
Qed.

Lemma not_char_occurrences x s :
  forallb (not_char x) s = true -> occurrences x s = 0.
Proof.
  apply occurrences_forallb. intros c. unfold not_char, is_char.
  destruct (Ascii.eqb c x); [discriminate|reflexivity].
Qed.

Lemma class_occurrences (p : ascii -> bool) x s :
  p x = false -> forallb p s = true -> occurrences x s = 0.
Proof.
  intros Hx. apply occurrences_forallb. intros c Hc. unfold is_char.
  destruct (Ascii.eqb_spec c x); [subst; congruence|reflexivity].
Qed.

Lemma dq_is_dq : is_char dq dq = true.
Proof. reflexivity. Qed.

Lemma ident_stops_space c : is_ident c = true -> is_space c = false.
Proof. destruct c as [[] [] [] [] [] [] [] []]; vm_compute; congruence. Qed.

Lemma word_stops_space c : is_word c = true -> is_space c = false.
Proof. destruct c as [[] [] [] [] [] [] [] []]; vm_compute; congruence. Qed.

Lemma occurrences_at x a b :
  1 + occurrences x b <= occurrences x (a ++ x :: b).
Proof.
  rewrite occurrences_app, occurrences_cons.
  unfold is_char at 1. rewrite Ascii.eqb_refl. lia.
Qed.

(** The end of a text after its last [x]. *)
Lemma suffix_after_last x : forall a z b c,
  a ++ z = b ++ x :: c -> occurrences x z = 0 -> exists y, c = y ++ z.
Proof.
  assert (Hx : is_char x x = true) by (unfold is_char; apply Ascii.eqb_refl).
  intros a z b c E Hz.
  apply app_eq_app in E as [l [[-> E]|[-> E]]].
  - destruct l as [|d l]; cbn [app] in E.
    + subst z. rewrite occurrences_cons, Hx in Hz. discriminate.
    + injection E as <- ->. exists l. reflexivity.
  - subst z. rewrite occurrences_app, occurrences_cons, Hx in Hz. lia.
Qed.

Lemma join_prefixed sep a l :
  sep ++ join sep (a :: l) = concat (map (fun p => sep ++ p) (a :: l)).
Proof.
  revert a. induction l as [|b l IH]; intros a.
  - simpl. rewrite app_nil_r. reflexivity.
  - change (join sep (a :: b :: l)) with (a ++ sep ++ join sep (b :: l)).
    rewrite IH. simpl. rewrite <- !app_assoc. reflexivity.
Qed.

Ltac star_classes :=
  repeat match goal with
         | H : lang (star _) _ |- _ => apply lang_star_class in H
         | H : lang (lazy_star _) _ |- _ => apply lang_star_class in H
         | H : lang (Star _ (Chr _)) _ |- _ => apply lang_star_class in H
         end.

Ltac quote_chars :=
  repeat match goal with E : is_char dq _ = true |- _ =>
    apply Ascii.eqb_eq in E; subst end.

Ltac list_eq := simpl; repeat rewrite <- app_assoc; simpl; reflexivity.

Ltac count_quotes :=
  repeat first [ rewrite occurrences_app | rewrite occurrences_cons ];
  rewrite ?dq_is_dq; lia.

(** * The lone error-wrap verb *)

Module SingleVerb.

Import Messagef.

Lemma colon_two_quotes : two_quotes colon_pattern.
Proof.
  intros u H. unfold colon_pattern, cause_tail, lit in H. simpl in H.
  lang_inv H. quote_chars.
  eexists. split; [reflexivity|]. count_quotes.
Qed.

Lemma space_two_quotes : two_quotes space_pattern.
Proof.
  intros u H. unfold space_pattern, cause_tail, lit in H. simpl in H.
  lang_inv H. quote_chars.
  eexists. split; [reflexivity|]. count_quotes.
Qed.

Lemma bare_two_quotes : two_quotes bare_pattern.
Proof.
  intros u H. unfold bare_pattern, cause_tail, lit in H. simpl in H.
  lang_inv H. quote_chars.
  eexists. split; [reflexivity|]. count_quotes.
Qed.

(** In a text with two double quotes, such a pattern can only match where
    the head ends at the first of them. *)
Lemma match_site r a b' pre post mo :
  two_quotes r ->
  re_match r b' = Some mo ->
  a ++ b' = pre ++ dq :: post ->
  occurrences dq pre = 0 -> occurrences dq post <= 1 ->
  a ++ messagef_head = pre.
Proof.
  intros Hr Hm E Hpre Hpost.
  apply re_match_sound in Hm as [Hb Hu].
  apply Hr in Hu as (y & Hu & Hy).
  rewrite Hb, Hu in E.
  assert (Ha : occurrences dq a = 0).
  { apply (f_equal (occurrences dq)) in E.
    repeat first [ rewrite occurrences_app in E | rewrite occurrences_cons in E ].
    rewrite dq_is_dq in E. lia. }
  rewrite <- !app_assoc in E. cbn [app] in E.
  rewrite (app_assoc a messagef_head) in E.
  apply first_occurrence_unique in E as [E _]; [exact E| |exact Hpre].
  rewrite occurrences_app, Ha. reflexivity.
Qed.

(** Inside the message the rest of the colon pattern finds nothing: the
    lazy group has to run up to the separator in front of the verb. *)
Lemma colon_tail_fails_inside w2 e cs k :
  w2 <> [] -> forallb (not_char dq) w2 = true ->
  rmatch colon_tail (w2 ++ ending e) cs k = None.
Proof.
  intros Hne Hw.
  destruct (rmatch colon_tail (w2 ++ ending e) cs k) as [x|] eqn:E; [|reflexivity].
  exfalso.
  apply rmatch_sound in E as (u & s' & cs' & E & Hu & _).
  unfold colon_tail, cause_tail, lit in Hu. simpl in Hu. lang_inv Hu.
  star_classes. quote_chars.
  lazymatch type of E with
  | _ = ([":"%char] ++ ?W ++ _) ++ _ =>
      assert (Ea : w2 ++ t ": %w" = t ":" ++ W ++ t "%w");
        [ eapply (first_occurrence_flex dq);
          [ exact E | unfold ending; list_eq | list_eq
          | rewrite occurrences_app, (not_char_occurrences _ _ Hw); reflexivity
          | rewrite occurrences_app, occurrences_app,
              (class_occurrences is_space dq W) by (reflexivity || assumption);
            reflexivity ]
        | ];
      rename W into W0
  end.
  destruct w2 as [|c w2]; [congruence|].
  change (t ": %w") with (t ": " ++ t "%w") in Ea.
  rewrite app_assoc, (app_assoc (t ":")) in Ea.
  apply app_inv_tail in Ea. simpl in Ea. injection Ea as -> Ea.
  subst W0. rewrite forallb_app in L. apply andb_prop in L as [_ L].
  discriminate L.
Qed.

(** The colon pattern takes the whole statement, the message in group 1
    and the argument in group 2. *)
Lemma colon_rmatch msg e0 e' :
  forallb (not_char dq) msg = true ->
  is_ident e0 = true -> forallb is_ident e' = true ->
  rmatch colon_pattern (messagef_head ++ dq :: msg ++ ending (e0 :: e')) [] accept
  = Some ([], [(2, e0 :: e'); (1, msg)]).
Proof.
  intros Hmsg He0 He'.
  unfold colon_pattern, cause_tail, messagef_head. cbn [app].
  rewrite rmatch_cat_cons, rmatch_lit_t.
  rewrite rmatch_cat_cons, rmatch_chr_ok by reflexivity.
  rewrite rmatch_cat_cons, rmatch_group.
  apply rmatch_lazy_star_class; [exact Hmsg | |].
  - intros w1 w2 -> Hne.
    apply (colon_tail_fails_inside w2 (e0 :: e')); [exact Hne|].
    rewrite forallb_app in Hmsg. apply andb_prop in Hmsg as [_ H]. exact H.
  - rewrite firstn_consumed. unfold ending.
    rewrite rmatch_cat_cons, rmatch_lit_t.
    rewrite rmatch_cat_cons.
    apply (rmatch_star_class is_space (t " ")); [reflexivity..|].
    rewrite rmatch_cat_cons, rmatch_lit_t.
    rewrite rmatch_cat_cons, rmatch_chr_ok by reflexivity.
    rewrite rmatch_cat_cons.
    apply rmatch_star_none; [reflexivity|].
    rewrite rmatch_cat_cons, rmatch_lit_t.
    rewrite rmatch_cat_cons.
    apply (rmatch_star_class is_space (t " ")); [reflexivity| |].
    { simpl. rewrite (ident_stops_space _ He0). reflexivity. }
    rewrite rmatch_cat_cons, rmatch_group.
    apply (rmatch_plus_class is_ident e0 e' (t ")")); [assumption..|reflexivity|].
    change (e0 :: e' ++ t ")") with ((e0 :: e') ++ t ")").
    rewrite firstn_consumed.
    rewrite rmatch_cat_cons, rmatch_lit_end, rmatch_cat_nil.
    reflexivity.
Qed.

(** An anchor cannot start in a text that holds none and end in a text
    that starts with a dot. *)
Lemma no_anchor_across b1 b2 s :
  contains messagef_anchor (b1 ++ b2) = false -> b2 <> [] ->
  strip_prefix messagef_anchor (b2 ++ "."%char :: s) = None.
Proof.
  intros Hb Hne.
  destruct (strip_prefix messagef_anchor (b2 ++ "."%char :: s)) as [r|] eqn:E;
    [|reflexivity].
  exfalso. apply strip_prefix_Some in E.
  destruct b2 as [|c b2]; [congruence|]. clear Hne.
  change messagef_anchor with ("."%char :: t "Messagef(" ++ [dq]) in E.
  simpl in E. injection E as -> E.
  do 10 (destruct b2 as [|c b2]; [discriminate E|]; simpl in E; injection E as -> E).
  assert (H : contains messagef_anchor (b1 ++ messagef_anchor ++ b2) = true).
  { apply contains_true. eauto. }
  unfold messagef_anchor in H at 2. simpl in H. simpl in Hb. congruence.
Qed.

Lemma two_quotes_anchored r : two_quotes r -> anchored r.
Proof.
  intros H u Hu. destruct (H u Hu) as (y & -> & _).
  exists y. unfold messagef_anchor. rewrite <- app_assoc. reflexivity.
Qed.

Lemma no_match_across r b1 b2 s :
  anchored r -> contains messagef_anchor (b1 ++ b2) = false -> b2 <> [] ->
  re_match r (b2 ++ "."%char :: s) = None.
Proof.
  intros Hr Hb Hne.
  destruct (re_match r (b2 ++ "."%char :: s)) as [mo|] eqn:E; [|reflexivity].
  exfalso. apply re_match_sound in E as [E Hu].
  apply Hr in Hu as (y & Hy).
  pose proof (no_anchor_across b1 b2 s Hb Hne) as Hn.
  rewrite E, Hy, <- app_assoc, strip_prefix_app in Hn. discriminate.
Qed.

Lemma ident_not_quote e : forallb is_ident e = true -> occurrences dq e = 0.
Proof. apply class_occurrences. reflexivity. Qed.

(** The colon substitution rewrites the statement. *)
Lemma colon_sub b msg e :
  contains messagef_anchor b = false -> forallb (not_char dq) msg = true ->
  e <> [] -> forallb is_ident e = true ->
  re_sub colon_pattern (expand cause_template) (statement b msg e)
  = rewritten b msg e.
Proof.
  intros Hb Hmsg Hne He.
  destruct e as [|e0 e']; [congruence|]. clear Hne.
  simpl in He. apply andb_prop in He as [He0 He'].
  unfold re_sub, statement.
  rewrite length_app, <- Nat.add_succ_r.
  rewrite sub_loop_copy.
  - unfold rewritten. f_equal.
    cbn [sub_loop]. unfold re_match at 1.
    rewrite (colon_rmatch msg e0 e' Hmsg He0 He').
    cbn [m_rest length].
    destruct (0 <? length (messagef_head ++ dq :: msg ++ ending (e0 :: e'))) eqn:E.
    + rewrite sub_loop_nil by reflexivity.
      rewrite app_nil_r. reflexivity.
    + apply Nat.ltb_ge in E. simpl in E. lia.
  - intros b1 b2 -> Hn.
    apply (no_match_across colon_pattern b1 b2
             (t "Messagef(" ++ dq :: msg ++ ending (e0 :: e')));
      [apply two_quotes_anchored, colon_two_quotes | exact Hb | exact Hn].
Qed.

Lemma head_not_message a : a ++ messagef_head <> t ".Message(".
Proof.
  intros H. apply (f_equal (@rev _)) in H.
  rewrite rev_app_distr in H. simpl in H. discriminate H.
Qed.

(** The other two substitutions find nothing left to do. *)
Lemma no_match_in_rewritten r b msg e :
  two_quotes r ->
  contains messagef_anchor b = false -> forallb (not_char dq) msg = true ->
  forallb is_ident e = true ->
  re_sub r (expand cause_template) (rewritten b msg e) = rewritten b msg e.
Proof.
  intros Hr Hb Hmsg He. apply re_sub_no_match. intros b' Hb'.
  unfold rewritten in Hb'.
  apply suffix_of_app_inv in Hb' as [(b1 & b2 & -> & Hne & ->)|[a Ha]].
  - apply (no_match_across r b1 b2
             (t "Message(" ++ dq :: msg ++ dq :: t ").Cause(" ++ e ++ t ")"));
      [apply two_quotes_anchored, Hr | exact Hb | exact Hne].
  - destruct (re_match r b') as [mo|] eqn:E; [|reflexivity].
    exfalso. apply (head_not_message a).
    eapply (match_site r a b' (t ".Message(")
              (msg ++ dq :: t ").Cause(" ++ e ++ t ")"));
      [exact Hr | exact E | rewrite <- Ha; list_eq | reflexivity |].
    repeat first [rewrite occurrences_app | rewrite occurrences_cons].
    rewrite (not_char_occurrences _ _ Hmsg), (ident_not_quote e He).
    vm_compute. lia.
Qed.

Lemma colon_statement_rewritten b msg e :
  contains messagef_anchor b = false -> forallb (not_char dq) msg = true ->
  e <> [] -> forallb is_ident e = true ->
  single_verb_pass (statement b msg e) = rewritten b msg e.
Proof.
  intros Hb Hmsg Hne He. unfold single_verb_pass.
  rewrite colon_sub by assumption.
  rewrite (no_match_in_rewritten space_pattern) by (assumption || apply space_two_quotes).
  apply no_match_in_rewritten; (assumption || apply bare_two_quotes).
Qed.

(** C5 (as amended): for a receiver text [b] in which no .Messagef( with
    an opening double quote occurs, a message [msg] without double quotes
    and an argument [e] that is a plain identifier (letters, digits,
    underscore), the three substitutions turn b.Messagef('msg: %w', e)
    into b.Message('msg').Cause(e): the verb and the colon and space in
    front of it are gone from the message and the argument is the cause. *)
Theorem single_verb_pass_colon b msg e :
  contains messagef_anchor b = false -> forallb (not_char dq) msg = true ->
  e <> [] -> forallb is_ident e = true ->
  single_verb_pass (statement b msg e) = rewritten b msg e.
Proof. exact (colon_statement_rewritten b msg e). Qed.

Lemma single_verb_pass_colon_witness :
  contains messagef_anchor (go "errors.New('E1')") = false
  /\ forallb (not_char dq) (t "save failed") = true
  /\ t "err" <> []
  /\ forallb is_ident (t "err") = true
  /\ single_verb_pass (go "errors.New('E1').Messagef('save failed: %w', err)")
     = go "errors.New('E1').Message('save failed').Cause(err)".
Proof.
  split; [reflexivity|]. split; [reflexivity|].
  split; [discriminate|]. split; [reflexivity|].
  apply (single_verb_pass_colon (go "errors.New('E1')") (t "save failed") (t "err"));
    [reflexivity | reflexivity | discriminate | reflexivity].
Defined.

(** C5 (as stated) fails: an argument that is not a plain identifier is
    never taken for the cause, and the statement stays as it is. *)
Lemma call_argument_not_rewritten :
  let s := go "b.Messagef('save failed: %w', ctx.Err())" in
  single_verb_pass s = s /\ fix_messagef s = None.
Proof. split; vm_compute; reflexivity. Qed.

(** Scenario 3 of the specification. *)
Example save_failed :
  fix_messagef (go "b.Messagef('save failed: %w', err)")
  = Some (go "b.Message('save failed').Cause(err)").
Proof. vm_compute. reflexivity. Qed.

(** Without a percent sign in receiver and message, the pass over the lines
    leaves the rewritten statement alone as well. *)
Lemma rewrite_content_colon b msg e :
  contains messagef_anchor b = false -> forallb (not_char dq) msg = true ->
  forallb (not_char "%"%char) (b ++ msg) = true ->
  e <> [] -> forallb is_ident e = true ->
  rewrite_content (statement b msg e) = rewritten b msg e.
Proof.
  intros Hb Hmsg Hpc Hne He. unfold rewrite_content.
  rewrite colon_statement_rewritten by assumption.
  unfold multi_verb_pass.
  rewrite <- (join_split_on nl (rewritten b msg e)) at 2. f_equal.
  rewrite <- (map_id (split_on nl (rewritten b msg e))) at 2.
  apply map_ext_in. intros line Hin.
  unfold fix_line.
  assert (contains (t "%w") line = false) as ->.
  { destruct (contains (t "%w") line) eqn:E; [|reflexivity]. exfalso.
    apply contains_true in E as (x & y & ->).
    apply split_on_inside in Hin as (x' & y' & Hin).
    apply (f_equal (occurrences "%"%char)) in Hin.
    rewrite forallb_app in Hpc. apply andb_prop in Hpc as [Hpb Hpm].
    unfold rewritten in Hin.
    repeat first [rewrite occurrences_app in Hin | rewrite occurrences_cons in Hin].
    rewrite (not_char_occurrences _ _ Hpb), (not_char_occurrences _ _ Hpm),
      (class_occurrences is_ident "%"%char e) in Hin by auto.
    change (is_char "%"%char dq) with false in Hin. cbn in Hin. lia. }
  rewrite andb_false_r. reflexivity.
Qed.

End SingleVerb.

(** * Format verbs against arguments *)

Module FormatArity.

Import Messagef.




(** Two verbs, two arguments: the format keeps the other verb and its
    argument. *)
Example two_verbs :
  fix_messagef (go "b.Messagef('save %s failed: %w', name, err)")
    = Some (go "b.Message(fmt.Sprintf('save %s failed', name)).Cause(err)").
Proof. vm_compute. reflexivity. Qed.

End FormatArity.

(** * The fmt import *)

Module FmtImport.

Import Messagef.

(** C10: the content written for a file without a parenthesised import
    block refers to fmt.Sprintf and imports no fmt. *)
Theorem sprintf_without_import :
  fix_messagef single_import_file
    = Some (go "package p||import 'errors'||func f() error {|~return b.Message(fmt.Sprintf('save %s failed', name)).Cause(err)|}|")
  /\ (forall written, fix_messagef single_import_file = Some written ->
        contains (t "fmt.Sprintf") written = true
        /\ contains ([dq] ++ t "fmt" ++ [dq]) written = false).
Proof.
  split; [vm_compute; reflexivity|].
  intros written H. vm_compute in H. injection H as <-.
  split; vm_compute; reflexivity.
Qed.

(** With a parenthesised block the import is added. *)
Example import_added :
  fix_messagef import_block_file
    = Some (go "package p||import (|~'errors'|~'fmt'|)||func f() error {|~return b.Message(fmt.Sprintf('save %s failed', name)).Cause(err)|}|").
Proof. vm_compute. reflexivity. Qed.

End FmtImport.

(** * The order of the fields *)

Module FieldOrder.

Import Zerolog Chain.

Lemma lstrip_with_head p c s : p c = false -> lstrip_with p (c :: s) = c :: s.
Proof. intros H. simpl. rewrite H. reflexivity. Qed.

Lemma strip_plain v : plain_value v = true -> strip v = v.
Proof.
  unfold plain_value. destruct v as [|c v]; [discriminate|].
  intros H. apply andb_prop in H as [H _]. apply andb_prop in H as [H _].
  apply andb_prop in H as [Hc Hl].
  apply negb_true_iff in Hc, Hl.
  unfold strip, rstrip_with. rewrite (lstrip_with_head _ _ _ Hc).
  assert (Hne : c :: v <> []) by discriminate.
  assert (E : rev (c :: v) = List.last (c :: v) c :: rev (List.removelast (c :: v))).
  { rewrite (app_removelast_last c Hne) at 1. rewrite rev_app_distr. reflexivity. }
  rewrite E, (lstrip_with_head _ _ _ Hl), <- E. apply rev_involutive.
Qed.

Lemma rmatch_plus_end p c w cs k x :
  p c = true -> forallb p w = true -> k [] cs = Some x ->
  rmatch (plus (Chr p)) (c :: w) cs k = Some x.
Proof.
  intros Hc Hw Hk. rewrite <- (app_nil_r w).
  apply rmatch_plus_class; auto.
Qed.

(** The value of a keyed field splits into its key and its value. *)
Lemma keyed_pair_plain key value :
  plain_key key = true -> plain_value value = true ->
  keyed_pair (dq :: key ++ dq :: t ", " ++ value)
  = [dq :: key ++ dq :: t ", " ++ value].
Proof.
  intros Hk Hv. unfold keyed_pair.
  assert (Hm : rmatch keyed_pattern (dq :: key ++ dq :: t ", " ++ value) [] accept
               = Some ([], [(2, value); (1, key)])).
  { unfold plain_key in Hk. apply andb_prop in Hk as [Hk _].
    apply andb_prop in Hk as [Hne Hq].
    destruct key as [|k0 key]; [discriminate|]. simpl in Hq.
    apply andb_prop in Hq as [Hk0 Hq].
    pose proof Hv as Hv'. unfold plain_value in Hv'.
    destruct value as [|v0 value]; [discriminate|].
    apply andb_prop in Hv' as [Hv' Hdot]. apply andb_prop in Hv' as [Hv' _].
    apply andb_prop in Hv' as [Hv0 _]. simpl in Hdot.
    apply andb_prop in Hdot as [Hd0 Hdot].
    unfold keyed_pattern.
    rewrite rmatch_cat_cons, rmatch_chr_ok by reflexivity.
    rewrite rmatch_cat_cons, rmatch_group.
    change ((k0 :: key) ++ dq :: t ", " ++ v0 :: value)
      with (k0 :: key ++ (dq :: t ", " ++ v0 :: value)).
    apply rmatch_plus_class; [assumption..|reflexivity|].
    change (k0 :: key ++ dq :: t ", " ++ v0 :: value)
      with ((k0 :: key) ++ (dq :: t ", " ++ v0 :: value)).
    rewrite firstn_consumed.
    rewrite rmatch_cat_cons, rmatch_chr_ok by reflexivity.
    change (t ", " ++ v0 :: value) with (t "," ++ t " " ++ v0 :: value).
    rewrite rmatch_cat_cons, rmatch_lit_t.
    rewrite rmatch_cat_cons.
    apply (rmatch_star_class is_space (t " ")); [reflexivity| |].
    { simpl. exact Hv0. }
    rewrite rmatch_cat_cons, rmatch_group.
    apply rmatch_plus_end; [assumption..|].
    rewrite Nat.sub_0_r, firstn_all. reflexivity. }
  unfold re_match. rewrite Hm. cbn [m_groups].
  change (group_or_empty [(2, value); (1, key)] 1) with key.
  change (group_or_empty [(2, value); (1, key)] 2) with value.
  rewrite (strip_plain _ Hv). reflexivity.
Qed.

Lemma rmatch_plus_word p w s cs k x :
  w <> [] -> forallb p w = true -> stops p s = true -> k s cs = Some x ->
  rmatch (plus (Chr p)) (w ++ s) cs k = Some x.
Proof.
  intros Hne Hw Hs Hk. destruct w as [|c w]; [congruence|].
  simpl in Hw. apply andb_prop in Hw as [Hc Hw].
  apply rmatch_plus_class; assumption.
Qed.

Lemma field_value_inner f :
  plain_field f = true -> forallb inner (field_value f) = true.
Proof.
  destruct f as [m key value|value]; simpl; [|auto].
  intros H. apply andb_prop in H as [Hk Hv].
  unfold plain_key in Hk. apply andb_prop in Hk as [_ Hk].
  unfold plain_value in Hv. destruct value as [|c value]; [discriminate|].
  apply andb_prop in Hv as [Hv _]. apply andb_prop in Hv as [_ Hv].
  rewrite forallb_app, Hk. simpl. simpl in Hv. rewrite Hv. reflexivity.
Qed.

Lemma field_method_word f :
  t (field_method f) <> [] /\ forallb is_word (t (field_method f)) = true.
Proof. destruct f as [[] ? ?|?]; split; (discriminate || reflexivity). Qed.

Lemma field_method_not_space f s : stops is_space (t (field_method f) ++ s) = true.
Proof. destruct f as [[] ? ?|?]; reflexivity. Qed.

(** The key-value pattern takes exactly one call of the chain. *)
Lemma kv_match_segment f rest :
  plain_field f = true ->
  re_match kv_pattern (segment f ++ rest)
  = Some (MatchObj (segment f) (field_caps f) rest).
Proof.
  intros Hf.
  assert (Hm : rmatch kv_pattern (segment f ++ rest) [] accept
               = Some (rest, field_caps f)).
  { unfold kv_pattern, segment. rewrite <- !app_assoc.
    destruct (field_method_word f) as [Hne Hw].
    rewrite rmatch_cat_cons, rmatch_lit_t.
    rewrite rmatch_cat_cons.
    apply rmatch_star_none; [apply field_method_not_space|].
    rewrite rmatch_cat_cons, rmatch_group.
    apply rmatch_plus_word; [assumption..|reflexivity|].
    rewrite firstn_consumed.
    rewrite rmatch_cat_cons, rmatch_lit_t.
    rewrite rmatch_cat_cons, rmatch_group.
    apply (rmatch_star_class (not_char ")"%char));
      [apply field_value_inner; exact Hf | reflexivity |].
    rewrite firstn_consumed.
    rewrite rmatch_cat_cons, rmatch_lit_t, rmatch_cat_nil.
    reflexivity. }
  unfold re_match. rewrite Hm. rewrite firstn_consumed. reflexivity.
Qed.

Lemma segment_length f : 1 <= length (segment f).
Proof. unfold segment. simpl. lia. Qed.

Lemma field_args_plain f :
  plain_field f = true ->
  field_args (t (field_method f)) (field_value f) = [pair_of f].
Proof.
  destruct f as [m key value|value]; simpl; intros H.
  - apply andb_prop in H as [Hk Hv].
    destruct m; unfold field_args; simpl setter_name;
      repeat match goal with
      | |- context [teq (t ?a) (t ?b)] =>
          let v := eval vm_compute in (teq (t a) (t b)) in
          change (teq (t a) (t b)) with v
      end; cbn [orb]; apply keyed_pair_plain; assumption.
  - reflexivity.
Qed.

Lemma kv_skips_blank c s : is_space c = true -> re_match kv_pattern (c :: s) = None.
Proof.
  intros Hc. unfold re_match, kv_pattern. rewrite rmatch_cat_cons.
  unfold lit. cbn [rmatch]. change (t ".") with ["."%char]. cbn [strip_prefix].
  destruct (Ascii.eqb_spec "."%char c) as [<-|_]; [discriminate Hc|reflexivity].
Qed.

Lemma findall_skips_blank g rest : forall fuel,
  blank g = true ->
  findall_loop (length g + fuel) kv_pattern (g ++ rest)
  = findall_loop fuel kv_pattern rest.
Proof.
  induction g as [|c g IH]; intros fuel Hg; [reflexivity|].
  cbn [blank forallb] in Hg. apply andb_prop in Hg as [Hc Hg].
  cbn [length Nat.add app findall_loop].
  rewrite (kv_skips_blank c _ Hc). apply IH. exact Hg.
Qed.

Lemma call_length c : 1 <= length (call_text c).
Proof.
  unfold call_text. rewrite length_app. pose proof (segment_length (snd c)). lia.
Qed.

Lemma chain_cons c calls : chain_of (c :: calls) = fst c ++ segment (snd c) ++ chain_of calls.
Proof. unfold chain_of, call_text. cbn [map concat]. rewrite <- app_assoc. reflexivity. Qed.

Lemma findall_chain calls : forall fuel,
  length (chain_of calls) < fuel ->
  forallb plain_call calls = true ->
  findall_loop fuel kv_pattern (chain_of calls) = map field_caps (map snd calls).
Proof.
  induction calls as [|[g f] calls IH]; intros fuel Hfuel Hp.
  - destruct fuel as [|fuel]; reflexivity.
  - cbn [forallb] in Hp. apply andb_prop in Hp as [Hc Hp].
    unfold plain_call in Hc. cbn [fst snd] in Hc.
    apply andb_prop in Hc as [Hg Hf].
    rewrite chain_cons in *. cbn [fst snd] in *.
    rewrite !length_app in Hfuel. pose proof (segment_length f) as Hs.
    replace fuel with (length g + S (fuel - length g - 1)) by lia.
    rewrite (findall_skips_blank g _ _ Hg).
    cbn [findall_loop]. rewrite (kv_match_segment f _ Hf). cbn [m_rest m_groups].
    assert ((length (chain_of calls) <? length (segment f ++ chain_of calls)) = true) as ->.
    { apply Nat.ltb_lt. rewrite length_app. lia. }
    cbn [map snd]. f_equal. apply IH; [lia|exact Hp].
Qed.

Lemma build_args_chain calls :
  forallb plain_call calls = true ->
  build_args (kv_matches (chain_of calls)) = map pair_of (map snd calls).
Proof.
  intros Hp. unfold kv_matches, re_findall.
  rewrite findall_chain by (auto; lia).
  unfold build_args. rewrite map_map.
  induction calls as [|[g f] calls IH]; [reflexivity|].
  cbn [forallb] in Hp. apply andb_prop in Hp as [Hc Hp].
  unfold plain_call in Hc. cbn [fst snd] in Hc. apply andb_prop in Hc as [_ Hf].
  cbn [map flat_map fst snd].
  change (group_or_empty (field_caps f) 1) with (t (field_method f)).
  change (group_or_empty (field_caps f) 2) with (field_value f).
  rewrite (field_args_plain f Hf), (IH Hp). reflexivity.
Qed.

Lemma finish_match n gap m cs k x :
  blank gap = true -> forallb (not_char dq) m = true ->
  k [] ((n, m) :: cs) = Some x ->
  rmatch (cat (msg_call n)) (gap ++ finish m) cs k = Some x.
Proof.
  intros Hg Hm Hk. unfold msg_call, finish.
  rewrite rmatch_cat_cons. apply (rmatch_star_class is_space gap); [exact Hg|reflexivity|].
  rewrite rmatch_cat_cons, rmatch_lit_t.
  rewrite rmatch_cat_cons. apply rmatch_star_none; [reflexivity|].
  rewrite rmatch_cat_cons, rmatch_lit_t.
  rewrite rmatch_cat_cons, rmatch_chr_ok by reflexivity.
  rewrite rmatch_cat_cons, rmatch_group.
  apply (rmatch_star_class (not_char dq) m (dq :: t ")")); [exact Hm|reflexivity|].
  rewrite firstn_consumed.
  rewrite rmatch_cat_cons, rmatch_chr_ok by reflexivity.
  rewrite rmatch_cat_cons, rmatch_lit_end, rmatch_cat_nil.
  exact Hk.
Qed.

Lemma call_on_segment g f rest cs k x :
  blank g = true -> plain_field f = true -> k rest cs = Some x ->
  rmatch chain_call (g ++ segment f ++ rest) cs k = Some x.
Proof.
  intros Hg Hf Hk. unfold chain_call, segment. rewrite <- !app_assoc.
  destruct (field_method_word f) as [Hne Hw].
  rewrite rmatch_cat_cons. apply (rmatch_star_class is_space g); [exact Hg|reflexivity|].
  rewrite rmatch_cat_cons, rmatch_lit_t.
  rewrite rmatch_cat_cons.
  apply rmatch_star_none; [apply field_method_not_space|].
  rewrite rmatch_cat_cons.
  apply rmatch_plus_word; [assumption..|reflexivity|].
  rewrite rmatch_cat_cons, rmatch_lit_t.
  rewrite rmatch_cat_cons.
  apply (rmatch_star_class (not_char ")"%char));
    [apply field_value_inner; exact Hf | reflexivity |].
  rewrite rmatch_cat_cons, rmatch_lit_t, rmatch_cat_nil.
  exact Hk.
Qed.

Lemma chain_call_closes u : lang chain_call u -> 1 <= occurrences ")"%char u.
Proof.
  intros H. unfold chain_call, lit in H. simpl in H. lang_inv H.
  repeat first [ rewrite occurrences_app | rewrite occurrences_cons ].
  change (is_char ")"%char ")"%char) with true. cbv iota. lia.
Qed.

(** At the finishing call the loop over the calls of the chain stops. *)
Lemma star_at_finish k gap m cs fuel :
  needs_two_quotes k -> blank gap = true -> forallb (not_char dq) m = true ->
  star_loop (rmatch chain_call) true k fuel (gap ++ finish m) cs
  = k (gap ++ finish m) cs.
Proof.
  intros Hk Hg Hm. destruct fuel as [|fuel]; [reflexivity|].
  cbn [star_loop].
  destruct (rmatch chain_call (gap ++ finish m) cs _) as [x|] eqn:E; [|reflexivity].
  exfalso.
  apply rmatch_sound in E as (u & s' & cs' & E & Hu & Hagain).
  destruct (length s' <? length (gap ++ finish m)); [|discriminate].
  apply (star_loop_sound x true chain_call (rmatch_sound x chain_call)) in Hagain
    as (v & s'' & cs'' & -> & _ & Hk').
  apply Hk in Hk'. apply chain_call_closes in Hu.
  pose proof (class_occurrences is_space dq gap eq_refl Hg) as Hgq.
  pose proof (class_occurrences is_space ")"%char gap eq_refl Hg) as Hgp.
  assert (Hq : occurrences dq u = 0).
  { apply (f_equal (occurrences dq)) in E. unfold finish in E.
    repeat first [ rewrite occurrences_app in E | rewrite occurrences_cons in E ].
    rewrite (not_char_occurrences _ _ Hm), dq_is_dq, Hgq in E.
    change (occurrences dq (t ".")) with 0 in E.
    change (occurrences dq (t "Msg(")) with 0 in E.
    change (occurrences dq (t ")")) with 0 in E. lia. }
  destruct (prefix_before_first dq u (gap ++ t ".Msg(") (m ++ dq :: t ")") (v ++ s''))
    as [y Hy]; [rewrite <- E; unfold finish; list_eq | exact Hq | |].
  { rewrite occurrences_app, Hgq. reflexivity. }
  apply (f_equal (occurrences ")"%char)) in Hy.
  rewrite !occurrences_app, Hgp in Hy.
  change (occurrences ")"%char (t ".Msg(")) with 0 in Hy. lia.
Qed.

(** The greedy loop takes every call of the chain and hands over at the
    finishing call. *)
Lemma star_over_chain k gap m x cs : forall calls fuel,
  needs_two_quotes k -> blank gap = true -> forallb (not_char dq) m = true ->
  forallb plain_call calls = true ->
  k (gap ++ finish m) cs = Some x ->
  length calls <= fuel ->
  star_loop (rmatch chain_call) true k fuel (chain_of calls ++ gap ++ finish m) cs
  = Some x.
Proof.
  induction calls as [|[g f] calls IH]; intros fuel Hk Hg Hm Hp Hx Hfuel.
  - change (chain_of [] ++ gap ++ finish m) with (gap ++ finish m).
    rewrite star_at_finish by assumption. exact Hx.
  - destruct fuel as [|fuel]; [simpl in Hfuel; lia|].
    cbn [forallb] in Hp. apply andb_prop in Hp as [Hc Hp].
    unfold plain_call in Hc. cbn [fst snd] in Hc. apply andb_prop in Hc as [Hgf Hf].
    rewrite chain_cons. cbn [fst snd]. rewrite <- !app_assoc. cbn [star_loop].
    rewrite (call_on_segment g f _ cs _ x Hgf Hf); [reflexivity|].
    assert ((length (chain_of calls ++ gap ++ finish m)
             <? length (g ++ segment f ++ chain_of calls ++ gap ++ finish m)) = true) as ->.
    { apply Nat.ltb_lt. rewrite (length_app g), (length_app (segment f)).
      pose proof (segment_length f). lia. }
    apply IH; try assumption. simpl in Hfuel. lia.
Qed.

Lemma level_match l rest cs k :
  rmatch level_names (t (level_name l) ++ rest) cs k = k rest cs.
Proof.
  unfold level_names, lit.
  destruct l; simpl; destruct (k rest cs); reflexivity.
Qed.

Lemma level_not_logger l rest s : t (level_name l) ++ rest <> t "logger." ++ s.
Proof. destruct l; discriminate. Qed.

(** The text in front of the anchor is not taken for a receiver. *)
Lemma no_receiver l rest cs k :
  (forall s' cs', k s' cs' <> None -> exists s'', s' = t "logger." ++ s'') ->
  rmatch (cat [plus word; lit "."])
         (t "logger." ++ t (level_name l) ++ rest) cs k = None.
Proof.
  intros Hk.
  destruct (rmatch _ _ cs k) as [x|] eqn:E; [|reflexivity]. exfalso.
  apply rmatch_sound in E as (u & s' & cs' & E & Hu & Hk').
  destruct (Hk s' cs') as [s'' ->]; [congruence|].
  unfold plus, lit, word in Hu. simpl in Hu. lang_inv Hu. star_classes.
  lazymatch type of E with
  | _ = (([?c] ++ ?w) ++ _) ++ _ =>
      assert (Ea : t "logger" = c :: w /\ t (level_name l) ++ rest = t "logger." ++ s'');
        [ eapply (first_occurrence_unique "."%char);
          [ reflexivity
          | rewrite occurrences_cons, (class_occurrences is_word "."%char w) by auto;
            replace (is_char "."%char c) with false; [reflexivity|];
            symmetry; destruct (is_char "."%char c) eqn:X; [|reflexivity];
            apply Ascii.eqb_eq in X; subst; discriminate
          | change (t "logger" ++ "."%char :: t (level_name l) ++ rest)
              with (t "logger." ++ t (level_name l) ++ rest);
            rewrite E; list_eq ]
        | ]
  end.
  destruct Ea as [_ Ea]. exact (level_not_logger _ _ _ Ea).
Qed.

Lemma chain_length calls : length calls <= length (chain_of calls).
Proof.
  induction calls as [|c calls IH]; [simpl; lia|].
  rewrite chain_cons, !length_app. pose proof (segment_length (snd c)).
  simpl. lia.
Qed.

(** Behind the receiver, the pattern takes the level, every call of the
    chain and the finishing call. *)
Lemma pattern_behind_receiver l calls gap m cs :
  forallb plain_call calls = true -> blank gap = true ->
  forallb (not_char dq) m = true ->
  rmatch (cat (lit "logger." :: Group 3 level_names :: lit "()"
               :: Group 4 (star chain_call) :: msg_call 5))
         (t "logger." ++ t (level_name l) ++ t "()" ++ chain_of calls
            ++ gap ++ finish m) cs accept
  = Some ([], (5, m) :: (4, chain_of calls) :: (3, t (level_name l)) :: cs).
Proof.
  intros Hp Hg Hm.
  rewrite rmatch_cat_cons, rmatch_lit_t.
  rewrite rmatch_cat_cons, rmatch_group, level_match, firstn_consumed.
  rewrite rmatch_cat_cons, rmatch_lit_t.
  rewrite rmatch_cat_cons, rmatch_group.
  unfold star at 1. cbn [rmatch].
  apply star_over_chain; try assumption.
  - intros s cs0 x H.
    apply rmatch_sound in H as (u & s' & cs' & -> & Hu & _).
    unfold msg_call, lit in Hu. simpl in Hu. lang_inv Hu. quote_chars.
    count_quotes.
  - rewrite firstn_consumed. apply finish_match; [exact Hg|exact Hm|]. reflexivity.
  - rewrite length_app. pose proof (chain_length calls). lia.
Qed.

Lemma pattern_on_source c :
  well_formed c = true ->
  rmatch pattern (source_text c) [] accept = Some ([], statement_caps c).
Proof.
  destruct c as [indent recv l calls gap m].
  unfold well_formed, source_text, statement_caps.
  cbn [zc_indent zc_receiver zc_level zc_calls zc_gap zc_message].
  intros H. apply andb_prop in H as [H Hm]. apply andb_prop in H as [H Hg].
  apply andb_prop in H as [H Hp]. apply andb_prop in H as [Hi Hr].
  unfold pattern, anchor_part. cbn [app].
  rewrite rmatch_cat_cons, rmatch_group.
  apply (rmatch_star_class is_space indent); [exact Hi| |].
  { destruct recv as [[|c0 w]|]; [discriminate Hr| |reflexivity].
    simpl in Hr. apply andb_prop in Hr as [Hc0 _].
    simpl. rewrite (word_stops_space _ Hc0). reflexivity. }
  rewrite firstn_consumed.
  rewrite rmatch_cat_cons. unfold opt. cbn [rmatch].
  destruct recv as [w|]; cbn [receiver_text receiver_caps app].
  - destruct w as [|c0 w]; [discriminate Hr|].
    simpl in Hr. apply andb_prop in Hr as [Hc0 Hw].
    match goal with
    | |- match ?M with _ => _ end = Some ?R => assert (M = Some R) as ->; [|reflexivity]
    end.
    match goal with |- rmatch _ _ _ ?K = _ => set (k := K) end.
    rewrite <- app_assoc, rmatch_cat_cons.
    apply (rmatch_plus_class is_word c0 w); [assumption..|reflexivity|].
    rewrite rmatch_cat_cons, rmatch_lit_t, rmatch_cat_nil.
    unfold k. rewrite firstn_consumed.
    apply pattern_behind_receiver; assumption.
  - rewrite no_receiver.
    2:{ intros s' cs' H. rewrite rmatch_cat_cons in H. unfold lit in H.
        cbn [rmatch] in H.
        destruct (strip_prefix (t "logger.") s') as [s''|] eqn:E; [|congruence].
        apply strip_prefix_Some in E. eauto. }
    apply pattern_behind_receiver; assumption.
Qed.

Lemma statement_groups c :
  group_or_empty (statement_caps c) 1 = zc_indent c
  /\ group_or_empty (statement_caps c) 2 = receiver_text (zc_receiver c)
  /\ group_or_empty (statement_caps c) 3 = t (level_name (zc_level c))
  /\ group_or_empty (statement_caps c) 4 = chain_of (zc_calls c)
  /\ group_or_empty (statement_caps c) 5 = zc_message c.
Proof. destruct c as [? [?|] ? ? ? ?]; repeat split; reflexivity. Qed.

Lemma well_formed_calls c :
  well_formed c = true -> forallb plain_call (zc_calls c) = true.
Proof.
  unfold well_formed. intros H.
  apply andb_prop in H as [H _]. apply andb_prop in H as [H _].
  apply andb_prop in H as [_ H]. exact H.
Qed.

(** The chain pass rewrites the whole statement into one call that lists
    the pairs in the order of the calls. *)
Lemma chain_pass_on_source c :
  well_formed c = true ->
  re_sub pattern replace_match (source_text c)
  = render (zc_indent c) (receiver_text (zc_receiver c))
           (t (level_name (zc_level c))) (zc_message c)
           (map pair_of (fields_of c)).
Proof.
  intros Hc. unfold re_sub. cbn [sub_loop]. unfold re_match at 1.
  rewrite (pattern_on_source c Hc). cbn [m_rest length].
  assert ((0 <? length (source_text c)) = true) as ->.
  { apply Nat.ltb_lt. unfold source_text. rewrite !length_app. simpl. lia. }
  rewrite sub_loop_nil by reflexivity. rewrite app_nil_r.
  unfold replace_match. cbn [m_groups].
  destruct (statement_groups c) as (-> & -> & -> & -> & ->).
  rewrite (build_args_chain _ (well_formed_calls c Hc)). reflexivity.
Qed.

Lemma render_flat c :
  render (zc_indent c) (receiver_text (zc_receiver c))
         (t (level_name (zc_level c))) (zc_message c)
         (map pair_of (fields_of c))
  = slog_text c.
Proof.
  unfold slog_text. destruct (fields_of c) as [|f fs]; [reflexivity|].
  unfold render. cbn [map]. cbv zeta. rewrite join_prefixed.
  change (pair_of f :: map pair_of fs) with (map pair_of (f :: fs)).
  rewrite map_map.
  rewrite (map_ext (fun f => (t "," ++ [nl] ++ zc_indent c ++ [tab]) ++ pair_of f)
                   (continuation (zc_indent c))).
  2:{ intros f0. unfold continuation. list_eq. }
  cbn [map]. list_eq.
Qed.

(** Every word of a pattern that starts with the anchor shows the empty
    argument list of the level call. *)
Lemma anchor_shape rest u :
  lang (cat (anchor_part ++ rest)) u ->
  exists x y, u = x ++ t "()" ++ y /\ lang (cat rest) y.
Proof.
  intros H. unfold anchor_part in H. simpl in H.
  unfold opt, level_names, lit in H. simpl in H.
  lang_inv H.
  all: repeat rewrite app_assoc; rewrite <- app_assoc.
  all: eexists _, _; split; [reflexivity | eassumption].
Qed.

Lemma msg_call_shape n y :
  lang (cat (msg_call n)) y ->
  exists z q, y = z ++ dq :: q ++ dq :: t ")"
    /\ occurrences dq z = 0 /\ occurrences rp z = 0 /\ occurrences dq q = 0.
Proof.
  intros H. unfold msg_call, lit in H. simpl in H.
  lang_inv H. star_classes. quote_chars.
  exists (v ++ t "." ++ v0 ++ t "Msg("), v1.
  split; [simpl; repeat (rewrite <- app_assoc; simpl); reflexivity|].
  repeat split.
  - repeat rewrite occurrences_app.
    rewrite (class_occurrences is_space dq v), (class_occurrences is_space dq v0)
      by (reflexivity || assumption).
    reflexivity.
  - repeat rewrite occurrences_app.
    rewrite (class_occurrences is_space rp v), (class_occurrences is_space rp v0)
      by (reflexivity || assumption).
    reflexivity.
  - apply not_char_occurrences. assumption.
Qed.

Lemma inner_occurrences s : forallb inner s = true -> occurrences rp s = 0.
Proof. apply not_char_occurrences. Qed.

Lemma continuation_no_paren indent f :
  blank indent = true -> plain_field f = true ->
  occurrences rp (continuation indent f) = 0.
Proof.
  intros Hi Hf. unfold continuation.
  pose proof (class_occurrences is_space rp indent eq_refl Hi) as Hip.
  change (t "," ++ nl :: indent ++ tab :: pair_of f)
    with ((t "," ++ [nl]) ++ indent ++ [tab] ++ pair_of f).
  rewrite !occurrences_app, Hip.
  destruct f as [k key value|value]; simpl in Hf.
  - apply andb_prop in Hf as [Hk Hv].
    unfold plain_key in Hk. apply andb_prop in Hk as [_ Hk].
    assert (Hvi : forallb inner value = true).
    { unfold plain_value in Hv. destruct value as [|c v]; [discriminate|].
      apply andb_prop in Hv as [Hv _]. apply andb_prop in Hv as [_ Hv].
      exact Hv. }
    cbn [pair_of].
    change (dq :: key ++ dq :: t ", " ++ value)
      with ([dq] ++ key ++ (dq :: t ", ") ++ value).
    rewrite !occurrences_app, (inner_occurrences key Hk),
      (inner_occurrences value Hvi).
    reflexivity.
  - cbn [pair_of].
    change (dq :: t "error" ++ dq :: t ", " ++ value)
      with ((dq :: t "error" ++ dq :: t ", ") ++ value).
    rewrite !occurrences_app, (inner_occurrences value Hf). reflexivity.
Qed.

Lemma continuations_no_paren indent fields :
  blank indent = true -> forallb plain_field fields = true ->
  occurrences rp (concat (map (continuation indent) fields)) = 0.
Proof.
  intros Hi. induction fields as [|f fs IH]; [reflexivity|].
  cbn [map concat forallb].
  intros H. apply andb_prop in H as [Hf Hfs].
  rewrite occurrences_app, (continuation_no_paren indent f Hi Hf), (IH Hfs).
  reflexivity.
Qed.

(** A continuation line opens with a comma, a newline, the indent, a tab
    and a quote, and the key behind the quote does not start with a
    closing parenthesis. *)
Lemma continuation_head indent f :
  plain_field f = true ->
  exists c r, continuation indent f
              = (t "," ++ nl :: indent ++ [tab]) ++ dq :: c :: r
              /\ is_char rp c = false.
Proof.
  intros Hf. unfold continuation. destruct f as [k key value|value]; simpl in Hf.
  - apply andb_prop in Hf as [Hk _]. unfold plain_key in Hk.
    destruct key as [|c key]; [discriminate|].
    exists c, (key ++ dq :: t ", " ++ value). split; [list_eq|].
    apply andb_prop in Hk as [_ Hk]. simpl in Hk.
    apply andb_prop in Hk as [Hc _].
    unfold inner, not_char in Hc. unfold is_char, rp.
    destruct (Ascii.eqb c ")"); [discriminate|reflexivity].
  - exists "e"%char, (t "rror" ++ dq :: t ", " ++ value). split; [list_eq|reflexivity].
Qed.

Lemma plain_calls_fields calls :
  forallb plain_call calls = true -> forallb plain_field (map snd calls) = true.
Proof.
  induction calls as [|[g f] calls IH]; [reflexivity|].
  cbn [forallb map snd]. intros H. apply andb_prop in H as [Hc H].
  unfold plain_call in Hc. apply andb_prop in Hc as [_ Hf].
  cbn [snd] in Hf. rewrite Hf, (IH H). reflexivity.
Qed.

(** What stands in front of the message in the rewritten call holds
    neither a double quote nor a closing parenthesis. *)
Lemma head_clean c x :
  well_formed c = true -> is_space x = false -> is_word x = false ->
  occurrences x (t "logger." ++ t (level_name (zc_level c)) ++ t "(") = 0 ->
  occurrences x (zc_indent c ++ receiver_text (zc_receiver c) ++ t "logger."
                   ++ t (level_name (zc_level c)) ++ t "(") = 0.
Proof.
  intros Hc Hs Hw Hl. unfold well_formed in Hc.
  apply andb_prop in Hc as [Hc _]. apply andb_prop in Hc as [Hc _].
  apply andb_prop in Hc as [Hc _]. apply andb_prop in Hc as [Hi Hr].
  rewrite !occurrences_app, (class_occurrences is_space x _ Hs Hi).
  rewrite !occurrences_app in Hl. 
  destruct (zc_receiver c) as [w|]; cbn [receiver_text].
  - simpl in Hr. apply andb_prop in Hr as [_ Hr].
    rewrite occurrences_app, (class_occurrences is_word x _ Hw Hr).
    assert (occurrences x (t ".") = 0) as ->.
    { change (t "logger.") with (t "logger" ++ t ".") in Hl.
      rewrite occurrences_app in Hl. lia. }
    lia.
  - change (occurrences x []) with 0. lia.
Qed.

(** The calls of a chain end with a closing parenthesis. *)
Lemma chain_ends_closed u :
  lang (star chain_call) u -> u = [] \/ exists u', u = u' ++ [rp].
Proof.
  unfold star. remember (Star true chain_call) as r eqn:Er. intros H.
  induction H; try discriminate; [left; reflexivity|].
  injection Er as -> ->. right.
  destruct (IHlang2 eq_refl) as [->|[v' ->]].
  - rewrite app_nil_r. clear IHlang1 IHlang2 H0.
    unfold chain_call, lit in H. simpl in H. lang_inv H.
    exists (v ++ t "." ++ v0 ++ v1 ++ t "(" ++ v2).
    rewrite <- !app_assoc. reflexivity.
  - exists (u ++ v'). rewrite app_assoc. reflexivity.
Qed.

Lemma simple_pattern_shape u : lang simple_pattern u -> closes_before_message u.
Proof.
  intros Hu. apply anchor_shape in Hu as (x & y & -> & Hy).
  apply msg_call_shape in Hy as (z & q & -> & Hzq & _ & Hq).
  exists (x ++ t "("), z, q. split; [list_eq|]. split; assumption.
Qed.

Lemma pattern_shape u : lang pattern u -> closes_before_message u.
Proof.
  intros Hu. apply anchor_shape in Hu as (x & y & -> & Hy).
  cbn [app cat] in Hy. apply lang_seq_inv in Hy as (ch & y' & -> & Hch & Hy).
  apply lang_group_inv, chain_ends_closed in Hch.
  apply msg_call_shape in Hy as (z & q & -> & Hzq & _ & Hq).
  destruct Hch as [->|[ch' ->]].
  - exists (x ++ t "("), z, q. split; [list_eq|]. split; assumption.
  - exists (x ++ t "()" ++ ch'), z, q. split; [list_eq|]. split; assumption.
Qed.

(** Neither pattern of the script finds anything in the rewritten call. *)
Lemma no_match_in_slog re c :
  (forall u, lang re u -> closes_before_message u) ->
  well_formed c = true ->
  forall b, suffix_of b (slog_text c) -> re_match re b = None.
Proof.
  intros Hr Hc b [a Hb].
  destruct (re_match re b) as [mo|] eqn:E; [exfalso|reflexivity].
  apply re_match_sound in E as [Eb Hu].
  apply Hr in Hu as (x & z & q & Eu & Hzq & Hq).
  rewrite Eb, Eu in Hb. clear Eb Eu.
  pose proof (head_clean c rp Hc eq_refl eq_refl
                ltac:(destruct (zc_level c); reflexivity)) as HPp.
  pose proof (head_clean c dq Hc eq_refl eq_refl
                ltac:(destruct (zc_level c); reflexivity)) as HPq.
  pose proof (well_formed_calls c Hc) as Hp.
  apply plain_calls_fields in Hp. fold (fields_of c) in Hp.
  assert (Hi : blank (zc_indent c) = true).
  { unfold well_formed in Hc. repeat (apply andb_prop in Hc as [Hc _]). exact Hc. }
  assert (Hm : occurrences dq (zc_message c) = 0).
  { apply not_char_occurrences. unfold well_formed in Hc.
    apply andb_prop in Hc as [_ Hc]. exact Hc. }
  pose proof (continuations_no_paren _ _ Hi Hp) as HTp.
  unfold slog_text in Hb.
  set (m := zc_message c) in *.
  pose (P := zc_indent c ++ receiver_text (zc_receiver c) ++ t "logger."
               ++ t (level_name (zc_level c)) ++ t "(").
  pose (C := concat (map (continuation (zc_indent c)) (fields_of c))).
  pose (Q := q ++ dq :: t ")" ++ m_rest mo).
  assert (E : (a ++ x ++ rp :: z) ++ dq :: Q
              = P ++ dq :: (m ++ dq :: C ++ t ")")).
  { unfold P, Q, C. rewrite <- !app_assoc. cbn [app].
    do 4 (rewrite <- ?app_assoc in Hb; cbn [app] in Hb).
    symmetry. exact Hb. }
  fold P in HPp, HPq. fold C in HTp. clearbody P. clear Hb.
  apply app_eq_app in E as [l1 [[E1 E2]|[E1 E2]]].
  2:{ apply (f_equal (occurrences rp)) in E1.
      rewrite HPp, !occurrences_app, occurrences_cons in E1.
      change (is_char rp rp) with true in E1. cbv iota in E1. lia. }
  destruct l1 as [|d l1]; cbn [app] in E2.
  { rewrite app_nil_r in E1.
    apply (f_equal (occurrences rp)) in E1.
    rewrite HPp, !occurrences_app, occurrences_cons in E1.
    change (is_char rp rp) with true in E1. cbv iota in E1. lia. }
  injection E2 as <- E2.
  assert (Hsite : Q = C ++ t ")" -> False).
  { unfold Q, C. destruct (fields_of c) as [|f fs]; cbn [map concat].
    - intros E4. apply (f_equal (occurrences dq)) in E4.
      rewrite !occurrences_app, occurrences_cons in E4.
      change (is_char dq dq) with true in E4. cbv iota in E4.
      match type of E4 with _ = ?r => change r with 0 in E4 end. lia.
    - simpl in Hp. apply andb_prop in Hp as [Hf _].
      destruct (continuation_head (zc_indent c) f Hf) as (c0 & r & -> & Hc0).
      rewrite <- !app_assoc. cbn [app]. intros E4.
      change (t "," ++ nl :: (zc_indent c ++ [tab]) ++ ?s)
        with ((t "," ++ nl :: zc_indent c ++ [tab]) ++ s) in E4.
      apply first_occurrence_unique in E4 as [_ E4]; [|exact Hq|].
      + change (t ")" ++ m_rest mo) with (rp :: m_rest mo) in E4.
        injection E4 as <- _. discriminate Hc0.
      + change (t "," ++ nl :: zc_indent c ++ [tab])
          with ([","%char; nl] ++ zc_indent c ++ [tab]).
        rewrite !occurrences_app.
        rewrite (class_occurrences is_space dq _ eq_refl Hi). reflexivity. }
  apply app_eq_app in E2 as [l2 [[E3 E4]|[E3 E4]]].
  - (* the match would have to end inside the message *)
    destruct l2 as [|d l2]; cbn [app] in E4.
    + injection E4 as E4. exact (Hsite E4).
    + injection E4 as <- _.
      apply (f_equal (occurrences dq)) in E3.
      rewrite Hm, occurrences_app, occurrences_cons in E3.
      change (is_char dq dq) with true in E3. cbv iota in E3. lia.
  - destruct l2 as [|d l2]; cbn [app] in E4.
    + injection E4 as E4. symmetry in E4. exact (Hsite E4).
    + (* the match would reach into the continuation lines *)
      injection E4 as <- E4. subst l1.
      assert (exists y, l2 = y ++ rp :: z) as [y ->].
      { apply (suffix_after_last dq (a ++ x) (rp :: z) (P ++ dq :: m) l2).
        - rewrite <- !app_assoc. cbn [app]. exact E1.
        - rewrite occurrences_cons, Hzq. reflexivity. }
      match type of E4 with ?T = _ =>
        assert (Hcount : occurrences rp T = 1)
          by (rewrite occurrences_app, HTp; reflexivity)
      end.
      rewrite E4 in Hcount. unfold Q in Hcount.
      rewrite <- app_assoc in Hcount. cbn [app] in Hcount.
      pose proof (occurrences_at rp y (z ++ dq :: q ++ dq :: t ")" ++ m_rest mo))
        as H1.
      assert (H2 : 1 <= occurrences rp (z ++ dq :: q ++ dq :: t ")" ++ m_rest mo)).
      { pose proof (occurrences_at rp (z ++ dq :: q ++ [dq]) (m_rest mo)) as H2.
        rewrite <- !app_assoc in H2. cbn [app] in H2.
        rewrite <- !app_assoc in H2. cbn [app] in H2.
        eapply Nat.le_trans; [|exact H2]. lia. }
      lia.
Qed.

(** The second pattern of the script finds nothing in the rewritten call. *)
Lemma no_simple_match_in_slog c :
  well_formed c = true ->
  forall b, suffix_of b (slog_text c) -> re_match simple_pattern b = None.
Proof. apply no_match_in_slog. exact simple_pattern_shape. Qed.

(** A second run of the engine leaves the rewritten call as it is. *)
Lemma convert_slog_text c :
  well_formed c = true ->
  convert_zerolog_to_slog (slog_text c) = slog_text c.
Proof.
  intros Hc. unfold convert_zerolog_to_slog.
  rewrite (re_sub_no_match pattern)
    by (apply no_match_in_slog; [exact pattern_shape | exact Hc]).
  apply re_sub_no_match. apply no_simple_match_in_slog. exact Hc.
Qed.

(** The engine rewrites the statement into one call with a continuation
    line per field, in the order of the calls. *)
Lemma convert_source_text c :
  well_formed c = true ->
  convert_zerolog_to_slog (source_text c) = slog_text c.
Proof.
  intros Hc. unfold convert_zerolog_to_slog.
  rewrite (chain_pass_on_source c Hc), render_flat.
  apply re_sub_no_match. apply no_simple_match_in_slog. exact Hc.
Qed.



Example three_kinds_in_order :
  convert_zerolog_to_slog (go "logger.Info().Str('user', u).Err(err).Int('n', 3).Msg('m')")
  = go "logger.Info('m',|~'user', u,|~'error', err,|~'n', 3)".
Proof. vm_compute. reflexivity. Qed.


End FieldOrder.

(** * What a rewritten chain looks like *)

Module Rendering.

Import Zerolog Chain.




(** The line-based variant writes every rewrite on one line, however many
    pairs it has, and does not recognise a chain whose first dot stands on
    the next line. *)
Example v2_inline :
  PipelineV2.fix_file_content
    (go "s.logger.Error().Err(err).Str('a', b).Int('n', 2).Msg('failed')|")
    = go "s.logger.Error('failed', 'a', b, 'n', 2, 'error', err)|".
Proof. vm_compute. reflexivity. Qed.

Example v2_leading_dots_untouched :
  let s := go "s.logger.Error()|  .Err(err)|  .Msg('failed')|" in
  PipelineV2.fix_file_content s = s.
Proof. vm_compute. reflexivity. Qed.

End Rendering.

(** * Setters outside the table *)

Module UnknownSetter.

Import Zerolog.


(** C7: the Float64 call of the chain is gone from the output, and so is
    the duration setter that the pipeline scripts do know. *)
Theorem unknown_setter_dropped :
  convert_zerolog_to_slog (go "logger.Info().Str('a', b).Float64('r', x).Msg('m')")
    = go "logger.Info('m',|~'a', b)"
  /\ convert_zerolog_to_slog (go "logger.Info().Str('a', b).Dur('d', x).Msg('m')")
    = go "logger.Info('m',|~'a', b)".
Proof. split; vm_compute; reflexivity. Qed.

(** The regex-based pipeline script leaves such a chain untouched. *)
Example pipeline_keeps_unknown_chain :
  let s := go "s.logger.Info().Str('a', b).Float64('r', x).Msg('m')" in
  Pipeline.fix_logging_style s = s.
Proof. vm_compute. reflexivity. Qed.

End UnknownSetter.

(** * The batch driver and what it writes *)

Module Batch.

Import Driver.

Lemma process_file_cases filepath w :
  process_file filepath w = process_file_spec filepath w.
Proof.
  unfold process_file, process_file_spec, try_catch, needs_conversion.
  unfold mbind, io_bind, bind, mret, io_ret, ret, read_file, write_file, print.
  destruct w as [f out wr]. cbn [fs stdout written].
  destruct (f !! filepath) as [[data writable|]|] eqn:E; try reflexivity.
  destruct (contains (t "logger.") (universal_newlines data));
    destruct (contains (t ".Msg(") (universal_newlines data));
    cbn [negb orb andb]; try reflexivity.
  destruct (teq _ _); cbn [negb fs stdout written]; [reflexivity|].
  rewrite E. destruct writable; reflexivity.
Qed.

Lemma process_file_total filepath w :
  exists ok w', process_file filepath w = (inl ok, w').
Proof.
  rewrite process_file_cases. unfold process_file_spec.
  destruct (fs w !! filepath) as [[data writable|]|]; eauto.
  destruct (_ && _); eauto. destruct writable; eauto.
Qed.

Lemma for_each_process paths w :
  for_each paths (fun filepath => process_file filepath;; ret tt) w
  = (inl tt, process_all paths w).
Proof.
  revert w. induction paths as [|p ps IH]; intros w; [reflexivity|].
  cbn [for_each process_all].
  unfold mbind, io_bind, bind at 1.
  unfold mbind, io_bind, bind at 1.
  destruct (process_file_total p w) as (ok & w' & E). rewrite E.
  cbn [snd]. unfold mret, io_ret, ret. apply IH.
Qed.

Lemma convert_all_count files : forall converted w,
  convert_all files converted w
  = (inl (fst (count_converted files converted w)),
     snd (count_converted files converted w)).
Proof.
  induction files as [|p ps IH]; intros n w; [reflexivity|].
  cbn [convert_all count_converted].
  destruct (is_empty p); cbn [negb]; [apply IH|].
  unfold mbind, io_bind, bind at 1.
  destruct (process_file_total p w) as (ok & w' & E). rewrite E.
  destruct ok; apply IH.
Qed.

(** C9 (as amended): [process_file] never raises and does what
    [process_file_spec] says (one line per converted file, one line per
    error); with arguments [main] processes exactly those files, in order,
    and prints no count; without arguments it reads the newline-separated
    list from zerolog_files.txt, skips empty lines, and ends with the count
    of converted files, or prints a hint when the list is missing.  The
    exit status is 0 in each of these runs; only a list file that exists
    and cannot be read ends the script with status 1. *)
Theorem batch_contract (argv : list text) (w : world) :
  (forall filepath w0, process_file filepath w0 = process_file_spec filepath w0)
  /\ (1 < length argv -> run (main argv) w = (0, process_all (tl argv) w))
  /\ (length argv <= 1 -> forall listing writable,
        fs w !! list_file = Some (Regular listing writable) ->
        run (main argv) w
        = (0, let files := split_on nl (strip (universal_newlines listing)) in
              let result := count_converted files 0 w in
              with_line (count_line (fst result)) (snd result)))
  /\ (length argv <= 1 -> fs w !! list_file = None ->
        run (main argv) w = (0, with_line hint_line w))
  /\ (length argv <= 1 -> fs w !! list_file = Some Unreadable ->
        run (main argv) w = (1, w)).
Proof.
  split; [apply process_file_cases|].
  split.
  { intros H. apply Nat.ltb_lt in H. unfold run, main. rewrite H.
    rewrite for_each_process. reflexivity. }
  assert (Hmode : length argv <= 1 -> (1 <? length argv) = false).
  { intros H. apply Nat.ltb_ge. exact H. }
  split; [|split].
  - intros H listing writable Hl. unfold run, main. rewrite (Hmode H).
    unfold mbind, io_bind, bind, path_exists, read_file. rewrite Hl.
    rewrite bool_decide_eq_true_2 by eauto.
    cbv beta iota. rewrite Hl, convert_all_count. reflexivity.
  - intros H Hl. unfold run, main. rewrite (Hmode H).
    unfold mbind, io_bind, bind, path_exists. rewrite Hl.
    rewrite bool_decide_eq_false_2 by (intros [? ?]; discriminate).
    reflexivity.
  - intros H Hl. unfold run, main. rewrite (Hmode H).
    unfold mbind, io_bind, bind, path_exists, read_file. rewrite Hl.
    rewrite bool_decide_eq_true_2 by eauto.
    cbv beta iota. rewrite Hl. reflexivity.
Qed.

(** C9 (as stated) fails: a run with arguments prints no final count. *)
Lemma no_count_with_arguments :
  stdout (snd (run (main [t "convert.py"; t "a.go"; t "missing.go"; t "b.go"]) sample_world))
  = [ t "Converted: a.go";
      t "Error processing missing.go: [Errno 2] No such file or directory: 'missing.go'" ].
Proof. vm_compute. reflexivity. Qed.

Example count_in_list_mode :
  stdout (snd (run (main [t "convert.py"]) sample_world))
  = [ t "Converted: a.go";
      t "Error processing missing.go: [Errno 2] No such file or directory: 'missing.go'";
      go "|Converted 1 files" ]
  /\ fst (run (main [t "convert.py"]) sample_world) = 0.
Proof. split; vm_compute; reflexivity. Qed.

Lemma batch_contract_witness :
  1 < length [t "convert.py"; t "a.go"; t "missing.go"]
  /\ run (main [t "convert.py"; t "a.go"; t "missing.go"]) sample_world
     = (0, process_all [t "a.go"; t "missing.go"] sample_world).
Proof.
  split; [simpl; lia|].
  apply (proj1 (proj2 (batch_contract [t "convert.py"; t "a.go"; t "missing.go"] sample_world))).
  simpl. lia.
Defined.

(** C4 (as amended): for a regular file, [process_file] of
    convert_zerolog_to_slog.py writes the file exactly when the content
    passes the quick check for logger. and .Msg( and the converted content
    differs from it (and the file is writable; otherwise it reports the
    error); in every other case the world stays as it was. *)
Theorem persist_on_change (filepath data : text) (writable : bool) (w : world) :
  fs w !! filepath = Some (Regular data writable) ->
  let content := universal_newlines data in
  let changed := needs_conversion content
                 && negb (teq (Zerolog.convert_zerolog_to_slog content) content) in
  snd (process_file filepath w)
  = if changed then
      if writable then
        World (<[filepath := Regular (Zerolog.convert_zerolog_to_slog content) true]> (fs w))
              (stdout w ++ [t "Converted: " ++ filepath])
              (written w ++ [filepath])
      else with_line (t "Error processing " ++ filepath ++ t ": "
                        ++ str_exn (PermissionDenied filepath)) w
    else w.
Proof.
  intros Hf content changed.
  rewrite process_file_cases. unfold process_file_spec. rewrite Hf.
  fold content. fold changed. destruct changed, writable; reflexivity.
Qed.

Lemma persist_on_change_witness :
  fs sample_world !! t "a.go" = Some (Regular (go "logger.Info().Msg('x')|") true)
  /\ snd (process_file (t "a.go") sample_world)
     = World (<[t "a.go" := Regular (go "logger.Info('x')|") true]> (fs sample_world))
             [t "Converted: a.go"] [t "a.go"].
Proof.
  split; [reflexivity|].
  apply (persist_on_change (t "a.go") (go "logger.Info().Msg('x')|") true
           sample_world eq_refl).
Defined.

(** The two one-off scripts write every file they read. *)
Lemma one_off_scripts_write (filepath data : text) (w : world) :
  fs w !! filepath = Some (Regular data true) ->
  let content := universal_newlines data in
  pipeline_v2_file filepath w
  = (inl tt,
     World (<[filepath := Regular (PipelineV2.fix_file_content content) true]> (fs w))
           (stdout w ++ [t "Fixed " ++ basename filepath])
           (written w ++ [filepath]))
  /\ security_test_on filepath w
     = (inl tt,
        World (<[filepath := Regular (SecurityTest.fix_content content) true]> (fs w))
              (stdout w ++ [t "Fixed security test logging"])
              (written w ++ [filepath])).
Proof.
  intros Hf content. split.
  - unfold pipeline_v2_file, mbind, io_bind, bind, read_file, write_file, print.
    rewrite Hf. cbn [fs stdout written]. rewrite Hf. reflexivity.
  - unfold security_test_on, mbind, io_bind, bind, read_file, write_file, print.
    rewrite Hf. cbn [fs stdout written]. rewrite Hf. reflexivity.
Qed.

(** C4 (as stated) fails both ways: the quick check keeps [process_file]
    from writing a file whose converted content differs, and two of the
    scripts write back content that the rewrite leaves identical. *)
Lemma write_not_tied_to_change :
  (fs sample_world !! t "c.go" = Some (Regular (go "logger.Info(). Msg('x')|") true)
   /\ Zerolog.convert_zerolog_to_slog (go "logger.Info(). Msg('x')|")
      = go "logger.Info('x')|"
   /\ snd (process_file (t "c.go") sample_world) = sample_world)
  /\ PipelineV2.fix_file_content (go "package pipeline|") = go "package pipeline|"
  /\ written (snd (pipeline_v2_script settled_world)) = PipelineV2.files
  /\ SecurityTest.fix_content (go "package pipeline|") = go "package pipeline|"
  /\ written (snd (security_test_script settled_world)) = [SecurityTest.filepath].
Proof. repeat split; vm_compute; reflexivity. Qed.

End Batch.

(** * More of the scripts

    What the engine and the drivers leave alone, what a second run does,
    and what the batch driver counts. *)

Module Engine.

Import Zerolog Chain.

(** The engine never edits a text that shows none of the four anchor
    calls logger.Debug(), logger.Info(), logger.Warn(), logger.Error(). *)
Theorem convert_without_anchor (s : text) :
  contains_any zerolog_anchors s = false ->
  convert_zerolog_to_slog s = s.
Proof. apply Idempotence.zerolog_fixpoint. Qed.

Lemma convert_without_anchor_witness :
  contains_any zerolog_anchors (go "log.Info().Msg('x')|slog.Info('y')|") = false
  /\ convert_zerolog_to_slog (go "log.Info().Msg('x')|slog.Info('y')|")
     = go "log.Info().Msg('x')|slog.Info('y')|".
Proof.
  split; [reflexivity|].
  apply (convert_without_anchor (go "log.Info().Msg('x')|slog.Info('y')|")).
  reflexivity.
Defined.

(** Run on its own output for a statement of known setter calls, the
    engine changes nothing. *)
Theorem convert_twice_on_statement (c : zerolog_call) :
  well_formed c = true ->
  convert_zerolog_to_slog (convert_zerolog_to_slog (source_text c))
  = convert_zerolog_to_slog (source_text c).
Proof.
  intros Hc. rewrite (FieldOrder.convert_source_text c Hc).
  apply FieldOrder.convert_slog_text. exact Hc.
Qed.

Lemma convert_twice_on_statement_witness :
  let c := ZerologCall (t "  ") (Some (t "s")) Warn
             [ ([], Keyed Str (t "op") (t "name")) ]
             (nl :: t "    ") (t "see logger.Info().Msg(") in
  well_formed c = true
  /\ convert_zerolog_to_slog (convert_zerolog_to_slog (source_text c))
     = convert_zerolog_to_slog (source_text c).
Proof.
  intros c. split; [reflexivity|].
  apply (convert_twice_on_statement c). reflexivity.
Defined.

End Engine.

Module Files.

Import Driver.

(** [process_file] leaves a file without anchor calls alone: nothing is
    written, nothing is printed, and it answers False. *)
Theorem process_file_without_anchor (filepath data : text) (writable : bool)
    (w : world) :
  fs w !! filepath = Some (Regular data writable) ->
  contains_any zerolog_anchors (universal_newlines data) = false ->
  process_file filepath w = (inl false, w).
Proof.
  intros Hf Ha. rewrite Batch.process_file_cases. unfold process_file_spec.
  rewrite Hf. cbv zeta. rewrite (Idempotence.zerolog_fixpoint _ Ha), teq_refl.
  rewrite andb_false_r. reflexivity.
Qed.

Lemma process_file_without_anchor_witness :
  fs sample_world !! t "b.go" = Some (Regular (go "package b|") true)
  /\ contains_any zerolog_anchors (universal_newlines (go "package b|")) = false
  /\ process_file (t "b.go") sample_world = (inl false, sample_world).
Proof.
  split; [reflexivity|]. split; [reflexivity|].
  apply (process_file_without_anchor (t "b.go") (go "package b|") true sample_world);
    reflexivity.
Defined.

Lemma process_file_spec_frame filepath w :
  (forall p, p <> filepath ->
     fs (snd (process_file_spec filepath w)) !! p = fs w !! p)
  /\ (written (snd (process_file_spec filepath w)) = written w
      /\ fst (process_file_spec filepath w) = inl false
      \/ written (snd (process_file_spec filepath w)) = written w ++ [filepath]
         /\ fst (process_file_spec filepath w) = inl true).
Proof.
  unfold process_file_spec.
  destruct (fs w !! filepath) as [[data writable|]|]; cbn [snd fst fs written];
    try (split; [reflexivity | left; split; reflexivity]).
  cbv zeta. destruct (_ && _); [destruct writable|]; cbn [snd fst fs written].
  - split; [|right; split; reflexivity].
    intros p Hp. apply lookup_insert_ne. congruence.
  - split; [reflexivity | left; split; reflexivity].
  - split; [reflexivity | left; split; reflexivity].
Qed.

(** [process_file] touches no file but the one it is given, writes that
    one at most once, and answers True exactly when it has written it. *)
Theorem process_file_frame (filepath : text) (w : world) :
  (forall p, p <> filepath -> fs (snd (process_file filepath w)) !! p = fs w !! p)
  /\ (written (snd (process_file filepath w)) = written w
      /\ fst (process_file filepath w) = inl false
      \/ written (snd (process_file filepath w)) = written w ++ [filepath]
         /\ fst (process_file filepath w) = inl true).
Proof. rewrite Batch.process_file_cases. apply process_file_spec_frame. Qed.

Lemma process_all_frame paths : forall w p,
  ~ In p paths -> fs (process_all paths w) !! p = fs w !! p.
Proof.
  induction paths as [|q paths IH]; intros w p Hp; [reflexivity|].
  cbn [process_all]. rewrite IH by (intros H; apply Hp; right; exact H).
  apply (proj1 (process_file_frame q w)). intros ->. apply Hp. left. reflexivity.
Qed.

Lemma count_converted_frame files : forall n w p,
  ~ In p files -> fs (snd (count_converted files n w)) !! p = fs w !! p.
Proof.
  induction files as [|q files IH]; intros n w p Hp; [reflexivity|].
  cbn [count_converted].
  assert (Hq : p <> q) by (intros ->; apply Hp; left; reflexivity).
  assert (Hrest : ~ In p files) by (intros H; apply Hp; right; exact H).
  destruct (is_empty q); [apply IH; exact Hrest|].
  pose proof (proj1 (process_file_frame q w) p Hq) as Hstep.
  destruct (process_file q w) as [[[]|e] w']; cbn [snd] in Hstep;
    rewrite IH by exact Hrest; exact Hstep.
Qed.

(** A run of [main] leaves every file alone that it is not asked to
    process: the arguments, or else the lines of zerolog_files.txt. *)
Theorem main_frame (argv : list text) (w : world) (p : text) :
  ~ In p (targets argv w) ->
  fs (snd (run (main argv) w)) !! p = fs w !! p.
Proof.
  unfold targets, run, main. destruct (1 <? length argv).
  - intros Hp. rewrite Batch.for_each_process. cbn [snd].
    apply process_all_frame. exact Hp.
  - unfold mbind, io_bind, bind, path_exists, read_file.
    destruct (fs w !! list_file) as [[listing writable|]|] eqn:El.
    + intros Hp. rewrite bool_decide_eq_true_2 by eauto.
      cbv beta iota. rewrite El, Batch.convert_all_count.
      cbn [snd print fs]. apply count_converted_frame. exact Hp.
    + intros _. rewrite bool_decide_eq_true_2 by eauto.
      cbv beta iota. rewrite El. reflexivity.
    + intros _. rewrite bool_decide_eq_false_2 by (intros [? ?]; discriminate).
      reflexivity.
Qed.

Lemma main_frame_witness :
  ~ In (t "b.go") (targets [t "convert.py"; t "a.go"] sample_world)
  /\ fs (snd (run (main [t "convert.py"; t "a.go"]) sample_world)) !! t "b.go"
     = fs sample_world !! t "b.go".
Proof.
  assert (H : ~ In (t "b.go") (targets [t "convert.py"; t "a.go"] sample_world)).
  { intros [H|[]]. discriminate H. }
  split; [exact H|].
  apply (main_frame [t "convert.py"; t "a.go"] sample_world (t "b.go") H).
Defined.

Lemma count_converted_writes files : forall n w,
  length (written (snd (count_converted files n w)))
  + n = length (written w) + fst (count_converted files n w).
Proof.
  induction files as [|q files IH]; intros n w; [cbn; lia|].
  cbn [count_converted]. destruct (is_empty q); [apply IH|].
  pose proof (proj2 (process_file_frame q w)) as Hstep.
  destruct (process_file q w) as [[[]|e] w']; cbn [snd fst] in Hstep;
    destruct Hstep as [[Hw Hr]|[Hw Hr]]; try discriminate Hr.
  - pose proof (IH (S n) w') as H. rewrite Hw, length_app in H. simpl in H. lia.
  - pose proof (IH n w') as H. rewrite Hw in H. lia.
Qed.

(** In list mode the count that [main] prints last is the number of files
    the run has written. *)
Theorem count_is_number_written (argv : list text) (w : world)
    (listing : text) (writable : bool) :
  length argv <= 1 ->
  fs w !! list_file = Some (Regular listing writable) ->
  let w' := snd (run (main argv) w) in
  List.last (stdout w') []
  = count_line (length (written w') - length (written w)).
Proof.
  intros Hargs Hl. cbv zeta. unfold run, main.
  apply Nat.ltb_ge in Hargs. rewrite Hargs.
  unfold mbind, io_bind, bind, path_exists, read_file. rewrite Hl.
  rewrite bool_decide_eq_true_2 by eauto.
  cbv beta iota. rewrite Hl, Batch.convert_all_count.
  cbn [snd print stdout written]. rewrite last_last.
  pose proof (count_converted_writes
                (split_on nl (strip (universal_newlines listing))) 0 w) as H.
  unfold count_line. do 4 f_equal. lia.
Qed.

Lemma count_is_number_written_witness :
  length [t "convert.py"] <= 1
  /\ fs sample_world !! list_file = Some (Regular (go "a.go|missing.go||b.go|") true)
  /\ List.last (stdout (snd (run (main [t "convert.py"]) sample_world))) []
     = count_line (length (written (snd (run (main [t "convert.py"]) sample_world)))
                   - length (written sample_world)).
Proof.
  split; [simpl; lia|]. split; [reflexivity|].
  apply (count_is_number_written [t "convert.py"] sample_world
           (go "a.go|missing.go||b.go|") true); [simpl; lia | reflexivity].
Defined.

End Files.

Module MessagefFile.

Import Driver.

(** [fix_messagef_in_file] leaves a file alone whose content shows no
    .Messagef( followed by a double quote: nothing is written or printed,
    and it answers False. *)
Theorem messagef_file_without_anchor (filepath data : text) (writable : bool)
    (w : world) :
  fs w !! filepath = Some (Regular data writable) ->
  contains messagef_anchor (universal_newlines data) = false ->
  fix_messagef_in_file filepath w = (inl false, w).
Proof.
  intros Hf Ha. unfold fix_messagef_in_file, mbind, io_bind, bind, read_file.
  rewrite Hf. unfold Messagef.fix_messagef.
  rewrite (Idempotence.rewrite_content_without_anchor _ Ha), teq_refl.
  reflexivity.
Qed.

Lemma messagef_file_without_anchor_witness :
  let data := go "return b.Message('save failed').Cause(err)|" in
  let w := World {[ t "x.go" := Regular data true ]} [] [] in
  fs w !! t "x.go" = Some (Regular data true)
  /\ contains messagef_anchor (universal_newlines data) = false
  /\ fix_messagef_in_file (t "x.go") w = (inl false, w).
Proof.
  intros data w. split; [reflexivity|]. split; [reflexivity|].
  apply (messagef_file_without_anchor (t "x.go") data true w); reflexivity.
Defined.

End MessagefFile.

Module PipelineScripts.

Lemma pipeline_head_anchor rest u :
  lang (cat (Group 1 (cat [plus word; lit ".logger."; Group 2 pipeline_levels])
             :: lit "()" :: rest)) u ->
  contains_any pipeline_anchors u = true.
Proof.
  intros H. simpl in H. unfold pipeline_levels, lit in H. simpl in H.
  lang_inv H.
  all: let try_needle n :=
         solve [ eapply (contains_any_at pipeline_anchors n _ v0 w0);
                 [ simpl; tauto
                 | simpl; repeat (rewrite <- app_assoc; simpl); reflexivity ] ] in
       first [ try_needle (t ".logger.Info()") | try_needle (t ".logger.Debug()")
             | try_needle (t ".logger.Warn()") | try_needle (t ".logger.Error()") ].
Qed.

(** fix_pipeline_logging.py never edits a text that shows none of the
    anchor calls .logger.Info(), .logger.Debug(), .logger.Warn(),
    .logger.Error(). *)
Theorem fix_logging_style_without_anchor (s : text) :
  contains_any pipeline_anchors s = false ->
  Pipeline.fix_logging_style s = s.
Proof.
  intros H. unfold Pipeline.fix_logging_style.
  rewrite (re_sub_no_match Pipeline.pattern).
  - apply re_sub_no_match.
    apply (no_match_without pipeline_anchors); [|exact H].
    intros u. apply (pipeline_head_anchor _ u).
  - apply (no_match_without pipeline_anchors); [|exact H].
    intros u. apply (pipeline_head_anchor _ u).
Qed.

Lemma fix_logging_style_without_anchor_witness :
  contains_any pipeline_anchors (go "logger.Info().Str('a', b).Msg('m')|") = false
  /\ Pipeline.fix_logging_style (go "logger.Info().Str('a', b).Msg('m')|")
     = go "logger.Info().Str('a', b).Msg('m')|".
Proof.
  split; [reflexivity|].
  apply (fix_logging_style_without_anchor (go "logger.Info().Str('a', b).Msg('m')|")).
  reflexivity.
Defined.

(** ** The line-based variant *)

Lemma readlines_shape s :
  concat (readlines s) = s
  /\ forall line, In line (readlines s) -> exists a b, s = a ++ line ++ b.
Proof.
  induction s as [|c s [IHc IHl]]; [split; [reflexivity|intros ? []]|].
  cbn [readlines]. destruct (Ascii.eqb c nl).
  - split; [cbn [concat app]; rewrite IHc; reflexivity|].
    intros line [<-|H].
    + exists [], s. reflexivity.
    + destruct (IHl line H) as (a & b & ->). exists (c :: a), b. reflexivity.
  - destruct (readlines s) as [|l ls] eqn:E.
    + cbn [concat] in IHc. subst s. split; [reflexivity|].
      intros line [<-|[]]. exists [], []. reflexivity.
    + split; [cbn [concat app] in *; rewrite IHc; reflexivity|].
      intros line [<-|H].
      * destruct (IHl l (or_introl eq_refl)) as (a & b & Hs).
        cbn [concat] in IHc. exists [], (concat ls).
        cbn [app]. rewrite <- IHc. reflexivity.
      * destruct (IHl line (or_intror H)) as (a & b & ->).
        exists (c :: a), b. reflexivity.
Qed.

Lemma chain_start_anchor u :
  lang PipelineV2.chain_start u -> contains_any pipeline_anchors u = true.
Proof.
  intros H. unfold PipelineV2.chain_start in H. simpl in H.
  unfold pipeline_levels, lit in H. simpl in H.
  lang_inv H.
  all: let try_needle n :=
         solve [ eapply (contains_any_at pipeline_anchors n _ [] _);
                 [ simpl; tauto | simpl; reflexivity ] ] in
       first [ try_needle (t ".logger.Info()") | try_needle (t ".logger.Debug()")
             | try_needle (t ".logger.Warn()") | try_needle (t ".logger.Error()") ].
Qed.

Lemma process_lines_copy lines : forall fuel,
  (forall line, In line lines -> contains_any pipeline_anchors line = false) ->
  PipelineV2.process_lines fuel lines = lines.
Proof.
  induction lines as [|line rest IH]; intros fuel H;
    (destruct fuel as [|fuel]; [reflexivity|]); [reflexivity|].
  cbn [PipelineV2.process_lines].
  rewrite re_search_no_match.
  - cbn [PipelineV2.found]. f_equal. apply IH.
    intros l Hl. apply H. right. exact Hl.
  - apply (no_match_without pipeline_anchors);
      [exact chain_start_anchor | apply H; left; reflexivity].
Qed.

(** fix_pipeline_logging_v2.py hands back, character for character, a
    content that shows none of the anchor calls. *)
Theorem fix_file_content_without_anchor (s : text) :
  contains_any pipeline_anchors s = false ->
  PipelineV2.fix_file_content s = s.
Proof.
  intros H. unfold PipelineV2.fix_file_content.
  destruct (readlines_shape s) as [Hc Hl].
  rewrite process_lines_copy; [exact Hc|].
  intros line Hin. destruct (Hl line Hin) as (a & b & E).
  destruct (contains_any pipeline_anchors line) eqn:X; [|reflexivity].
  apply (contains_any_inside _ a _ b) in X. rewrite <- E in X. congruence.
Qed.

Lemma fix_file_content_without_anchor_witness :
  contains_any pipeline_anchors (go "package pipeline||func f() {}|// no newline at the end") = false
  /\ PipelineV2.fix_file_content (go "package pipeline||func f() {}|// no newline at the end")
     = go "package pipeline||func f() {}|// no newline at the end".
Proof.
  split; [reflexivity|].
  apply (fix_file_content_without_anchor
           (go "package pipeline||func f() {}|// no newline at the end")).
  reflexivity.
Defined.

End PipelineScripts.

Module Security.

Lemma zerolog_literal l u :
  (exists a b, l = a ++ t "zerolog." ++ b) ->
  lang (Lit l) u -> contains_any [t "zerolog."] u = true.
Proof.
  intros (a & b & ->) H. apply lang_lit_inv in H. subst u.
  apply (contains_any_at [t "zerolog."] (t "zerolog.") _ a b); [left|]; reflexivity.
Qed.

(** fix_security_test_logging.py never edits a text without zerolog. in
    it. *)
Theorem fix_content_without_zerolog (s : text) :
  contains (t "zerolog.") s = false -> SecurityTest.fix_content s = s.
Proof.
  intros H. unfold SecurityTest.fix_content.
  assert (Ha : contains_any [t "zerolog."] s = false)
    by (unfold contains_any; cbn [existsb]; rewrite H; reflexivity).
  rewrite (re_sub_no_match SecurityTest.nop_pattern).
  - apply re_sub_no_match. apply (no_match_without [t "zerolog."]); [|exact Ha].
    intros u. apply zerolog_literal. exists [], (t "New(os.Stdout)"). reflexivity.
  - apply (no_match_without [t "zerolog."]); [|exact Ha].
    intros u. apply zerolog_literal. exists (t "logger := "), (t "Nop()"). reflexivity.
Qed.

Lemma fix_content_without_zerolog_witness :
  contains (t "zerolog.") (go "logger := slog.Default()|") = false
  /\ SecurityTest.fix_content (go "logger := slog.Default()|")
     = go "logger := slog.Default()|".
Proof.
  split; [reflexivity|].
  apply (fix_content_without_zerolog (go "logger := slog.Default()|")). reflexivity.
Defined.

End Security.

Module PipelineCalls.

Import Chain.

(** A pattern whose words all show [n] occurrences of [x] finds nothing in
    a text that shows fewer. *)
Lemma no_match_by_count x n r s :
  (forall u, lang r u -> n <= occurrences x u) ->
  occurrences x s < n ->
  forall b, suffix_of b s -> re_match r b = None.
Proof.
  intros Hr Hs b [a ->].
  destruct (re_match r b) as [mo|] eqn:E; [|reflexivity]. exfalso.
  apply re_match_sound in E as [-> Hu]. apply Hr in Hu.
  rewrite !occurrences_app in Hs. lia.
Qed.

Ltac count_literals :=
  repeat match goal with
         | |- context [occurrences rp (t ?s)] =>
             let v := eval vm_compute in (occurrences rp (t s)) in
             change (occurrences rp (t s)) with v
         end.

Ltac count_closing :=
  repeat first [ rewrite occurrences_app | rewrite occurrences_cons ];
  change (is_char rp ")"%char) with true; cbv iota; lia.

Lemma pattern_closes_thrice u : lang Pipeline.pattern u -> 3 <= occurrences rp u.
Proof.
  intros H. unfold Pipeline.pattern, pipeline_levels, not_close, lit, plus in H.
  simpl in H. lang_inv H.
  all: count_closing.
Qed.



Lemma rmatch_star_stop p s cs k :
  stops p s = true -> rmatch (star (Chr p)) s cs k = k s cs.
Proof.
  intros H. unfold star. cbn [rmatch].
  destruct s as [|c s]; [reflexivity|].
  cbn [length star_loop rmatch]. simpl in H. apply negb_true_iff in H.
  rewrite H. reflexivity.
Qed.


Lemma pipeline_level_match l rest cs k :
  rmatch pipeline_levels (t (level_name l) ++ rest) cs k = k rest cs.
Proof.
  unfold pipeline_levels, lit.
  destruct l; simpl; destruct (k rest cs); reflexivity.
Qed.


Lemma finisher_match formatted rest cs k :
  (forall r cs', k ("f"%char :: r) cs' = None) ->
  rmatch (alts [lit "Msg"; lit "Msgf"]) (t (finisher formatted) ++ "("%char :: rest) cs k
  = k ("("%char :: rest) cs.
Proof.
  intros Hk. unfold lit. destruct formatted; simpl.
  - rewrite Hk. reflexivity.
  - destruct (k ("("%char :: rest) cs); reflexivity.
Qed.

(** The head of both patterns: the receiver, .logger. and the level. *)
Lemma head_match recv l rest cs k x :
  receiver_word recv = true ->
  k rest ((1, pipeline_head recv l) :: (2, t (level_name l)) :: cs) = Some x ->
  rmatch (Group 1 (cat [plus word; lit ".logger."; Group 2 pipeline_levels]))
         (pipeline_head recv l ++ rest) cs k = Some x.
Proof.
  intros Hr Hk. unfold receiver_word in Hr. apply andb_prop in Hr as [Hne Hw].
  assert (recv <> []) by (destruct recv; [discriminate|discriminate]).
  rewrite rmatch_group. unfold pipeline_head. rewrite <- !app_assoc.
  rewrite rmatch_cat_cons.
  apply FieldOrder.rmatch_plus_word; [assumption..|reflexivity|].
  rewrite rmatch_cat_cons, rmatch_lit_t.
  rewrite rmatch_cat_cons, rmatch_group, pipeline_level_match, rmatch_cat_nil.
  rewrite firstn_consumed.
  rewrite !app_assoc, firstn_consumed, <- !app_assoc. exact Hk.
Qed.

Lemma args_match n args cs k x :
  call_args args = true -> k [] ((n, args) :: cs) = Some x ->
  rmatch (cat [lit "("; Group n (plus not_close); lit ")"])
         ("("%char :: args ++ t ")") cs k = Some x.
Proof.
  intros Ha Hk. unfold call_args in Ha. apply andb_prop in Ha as [Hne Hi].
  assert (args <> []) by (destruct args; [discriminate|discriminate]).
  change ("("%char :: args ++ t ")") with (t "(" ++ args ++ t ")").
  rewrite rmatch_cat_cons, rmatch_lit_t.
  rewrite rmatch_cat_cons, rmatch_group. unfold not_close.
  apply FieldOrder.rmatch_plus_word; [assumption..|reflexivity|].
  rewrite firstn_consumed, rmatch_cat_cons, rmatch_lit_end, rmatch_cat_nil.
  exact Hk.
Qed.

Lemma simple_rmatch recv l formatted args :
  receiver_word recv = true -> call_args args = true ->
  rmatch Pipeline.simple_pattern (bare_call recv l formatted args) [] accept
  = Some ([], [ (4, args); (3, t (finisher formatted));
                (1, pipeline_head recv l); (2, t (level_name l)) ]).
Proof.
  intros Hr Ha. unfold Pipeline.simple_pattern, bare_call, ws.
  rewrite rmatch_cat_cons. apply head_match; [exact Hr|].
  rewrite rmatch_cat_cons, rmatch_lit_t.
  rewrite rmatch_cat_cons, rmatch_star_stop by reflexivity.
  rewrite rmatch_cat_cons, rmatch_lit_t.
  rewrite rmatch_cat_cons, rmatch_group.
  change (t "(" ++ args ++ t ")") with ("("%char :: args ++ t ")").
  rewrite finisher_match by (intros r cs'; reflexivity).
  change (t (finisher formatted) ++ "("%char :: args ++ t ")")
    with (t (finisher formatted) ++ ("("%char :: args ++ t ")")).
  rewrite firstn_consumed.
  apply args_match; [exact Ha|]. reflexivity.
Qed.


Lemma head_closings recv l :
  receiver_word recv = true -> occurrences rp (pipeline_head recv l) = 0.
Proof.
  intros Hr. unfold receiver_word in Hr. apply andb_prop in Hr as [_ Hw].
  unfold pipeline_head.
  rewrite !occurrences_app, (class_occurrences is_word rp recv eq_refl Hw).
  destruct l; reflexivity.
Qed.

Lemma args_closings args : call_args args = true -> occurrences rp args = 0.
Proof.
  intros Ha. unfold call_args in Ha. apply andb_prop in Ha as [_ Hi].
  apply not_char_occurrences. exact Hi.
Qed.

Lemma finisher_closings formatted : occurrences rp (t (finisher formatted)) = 0.
Proof. destruct formatted; reflexivity. Qed.


(** A call without setters loses its empty argument list and the
    finishing method: recv.logger.Level().Msg(args) becomes
    recv.logger.Level(args), and so does the Msgf form. *)
Theorem bare_call_flattened (recv : text) (l : level) (formatted : bool)
    (args : text) :
  receiver_word recv = true -> call_args args = true ->
  Pipeline.fix_logging_style (bare_call recv l formatted args)
  = flat_pipeline_call recv l args.
Proof.
  intros Hr Ha. unfold Pipeline.fix_logging_style.
  rewrite (re_sub_no_match Pipeline.pattern).
  2:{ apply (no_match_by_count rp 3); [exact pattern_closes_thrice|].
      unfold bare_call.
      rewrite !occurrences_app, (head_closings recv l Hr), (args_closings args Ha),
        finisher_closings.
      count_literals. lia. }
  unfold re_sub. cbn [sub_loop]. unfold re_match at 1.
  rewrite (simple_rmatch recv l formatted args Hr Ha). cbn [m_rest length].
  assert ((0 <? length (bare_call recv l formatted args)) = true) as ->.
  { apply Nat.ltb_lt. unfold bare_call. rewrite !length_app. simpl. lia. }
  rewrite sub_loop_nil by reflexivity. rewrite app_nil_r.
  unfold expand, Pipeline.simple_template, flat_pipeline_call.
  cbn [map concat m_groups]. rewrite app_nil_r. reflexivity.
Qed.

Lemma bare_call_flattened_witness :
  receiver_word (t "s") = true
  /\ call_args (go "'cache miss for %s', key") = true
  /\ Pipeline.fix_logging_style (go "s.logger.Warn().Msgf('cache miss for %s', key)")
     = go "s.logger.Warn('cache miss for %s', key)".
Proof.
  split; [reflexivity|]. split; [reflexivity|].
  apply (bare_call_flattened (t "s") Warn true (go "'cache miss for %s', key"));
    reflexivity.
Defined.














End PipelineCalls.

Module SpacedVerb.

Import Messagef.

(** Two texts that agree up to their first character outside a class split
    there in the same way. *)
Lemma class_prefix_unique (p : ascii -> bool) : forall w1 w2 x y r1 r2,
  forallb p w1 = true -> forallb p w2 = true -> p x = false -> p y = false ->
  w1 ++ x :: r1 = w2 ++ y :: r2 -> w1 = w2 /\ x = y /\ r1 = r2.
Proof.
  induction w1 as [|c w1 IH]; intros w2 x y r1 r2 H1 H2 Hx Hy E.
  - destruct w2 as [|d w2]; simpl in E.
    + injection E as -> ->. auto.
    + injection E as -> _. simpl in H2. rewrite Hx in H2. discriminate.
  - destruct w2 as [|d w2]; simpl in E.
    + injection E as -> _. simpl in H1. rewrite Hy in H1. discriminate.
    + injection E as -> E. simpl in H1, H2.
      apply andb_prop in H1 as [_ H1]. apply andb_prop in H2 as [_ H2].
      destruct (IH w2 x y r1 r2 H1 H2 Hx Hy E) as (-> & -> & ->). auto.
Qed.

Lemma blank_tail_absurd msg w1 w2 :
  plain_end msg = true -> msg = w1 ++ w2 -> w2 <> [] ->
  forallb is_space w2 = true -> False.
Proof.
  intros Hp -> Hne Hw. unfold plain_end in Hp.
  assert (Hl : (exists w c, w2 = w ++ [c]) \/ w2 = [])
    by (induction w2 using rev_ind; [right|left]; eauto).
  destruct Hl as [(w & c & ->)| ->]; [|congruence].
  rewrite app_assoc, rev_unit in Hp.
  rewrite forallb_app in Hw. apply andb_prop in Hw as [_ Hc]. simpl in Hc.
  apply andb_prop in Hc as [Hc _]. rewrite Hc in Hp. discriminate.
Qed.

Lemma colon_tail_absurd msg sep q ws :
  plain_end msg = true -> forallb is_space sep = true ->
  forallb is_space ws = true ->
  q ++ ":"%char :: ws = msg ++ sep -> False.
Proof.
  intros Hp Hs Hw E. apply (f_equal (@rev ascii)) in E.
  rewrite !rev_app_distr in E. cbn [rev] in E. rewrite <- app_assoc in E.
  cbn [app] in E.
  assert (Hrw : forallb is_space (rev ws) = true)
    by (rewrite forallb_forall in *; intros c Hc; apply Hw, in_rev; exact Hc).
  assert (Hrs : forallb is_space (rev sep) = true)
    by (rewrite forallb_forall in *; intros c Hc; apply Hs, in_rev; exact Hc).
  unfold plain_end in Hp. destruct (rev msg) as [|y r2].
  - rewrite app_nil_r in E. rewrite <- E, forallb_app in Hrs.
    apply andb_prop in Hrs as [_ H]. discriminate H.
  - apply andb_prop in Hp as [Hy1 Hy2]. apply negb_true_iff in Hy1, Hy2.
    apply (class_prefix_unique is_space) in E as (_ & <- & _);
      [discriminate Hy2 | assumption | assumption | reflexivity | exact Hy1].
Qed.

(** In the statement a pattern can only match at the head. *)
Lemma only_at_head r b post :
  two_quotes r -> contains messagef_anchor b = false ->
  occurrences dq post <= 1 ->
  re_match r (messagef_head ++ dq :: post) = None ->
  forall b', suffix_of b' (b ++ messagef_head ++ dq :: post) ->
  re_match r b' = None.
Proof.
  intros Hr Hb Hpost Hhead b' Hb'.
  apply suffix_of_app_inv in Hb' as [(b1 & b2 & -> & Hne & ->)|[a Ha]].
  - apply (SingleVerb.no_match_across r b1 b2 (t "Messagef(" ++ dq :: post));
      [apply SingleVerb.two_quotes_anchored, Hr | exact Hb | exact Hne].
  - destruct (re_match r b') as [mo|] eqn:E; [|reflexivity]. exfalso.
    assert (Ea : a ++ messagef_head = messagef_head).
    { apply (SingleVerb.match_site r a b' messagef_head post mo);
        [exact Hr | exact E | symmetry; exact Ha | reflexivity | exact Hpost]. }
    assert (a = []).
    { apply (f_equal (@length ascii)) in Ea. rewrite length_app in Ea.
      destruct a; [reflexivity|simpl in Ea; lia]. }
    subst a. cbn [app] in Ha. subst b'. congruence.
Qed.

Lemma two_quotes_not_empty r : two_quotes r -> re_match r [] = None.
Proof.
  intros Hr. destruct (re_match r []) as [mo|] eqn:E; [|reflexivity]. exfalso.
  apply re_match_sound in E as [E Hu]. apply Hr in Hu as (y & Hu & _).
  rewrite Hu in E. discriminate E.
Qed.

(** A substitution that takes the whole statement behind the receiver. *)
Lemma sub_at_head r b post caps0 :
  two_quotes r -> contains messagef_anchor b = false ->
  rmatch r (messagef_head ++ dq :: post) [] accept = Some ([], caps0) ->
  re_sub r (expand cause_template) (b ++ messagef_head ++ dq :: post)
  = b ++ expand cause_template
           (MatchObj (messagef_head ++ dq :: post) caps0 []).
Proof.
  intros Hr Hb Hm. unfold re_sub.
  rewrite length_app, <- Nat.add_succ_r.
  rewrite sub_loop_copy.
  - f_equal. cbn [sub_loop]. unfold re_match at 1. rewrite Hm.
    cbn [m_rest length].
    assert ((0 <? length (messagef_head ++ dq :: post)) = true) as ->
      by (apply Nat.ltb_lt; simpl; lia).
    rewrite sub_loop_nil by (apply two_quotes_not_empty; exact Hr).
    rewrite app_nil_r, Nat.sub_0_r, firstn_all. reflexivity.
  - intros b1 b2 -> Hn.
    apply (SingleVerb.no_match_across r b1 b2 (t "Messagef(" ++ dq :: post));
      [apply SingleVerb.two_quotes_anchored, Hr | exact Hb | exact Hn].
Qed.

Lemma msg_quotes msg sep e :
  forallb (not_char dq) msg = true -> forallb is_space sep = true ->
  forallb is_ident e = true ->
  occurrences dq (msg ++ sep ++ verb_ending e) <= 1.
Proof.
  intros Hm Hs He. unfold verb_ending.
  repeat first [rewrite occurrences_app | rewrite occurrences_cons].
  rewrite (not_char_occurrences _ _ Hm), (class_occurrences is_space dq sep eq_refl Hs),
    (SingleVerb.ident_not_quote e He), dq_is_dq.
  vm_compute. lia.
Qed.

Lemma space_not_quote c : is_space c = true -> is_char dq c = false.
Proof.
  intros H. destruct (is_char dq c) eqn:X; [|reflexivity].
  apply Ascii.eqb_eq in X. subst c. discriminate H.
Qed.

(** Reads off what stands in front of the verb, in the statement and in a
    word of a pattern that matches there. *)
Lemma before_verb m sep e rest x y :
  forallb (not_char dq) m = true -> forallb is_space sep = true ->
  occurrences dq x = 0 ->
  m ++ sep ++ verb_ending e = (x ++ t "%w" ++ [dq] ++ y) ++ rest ->
  m ++ sep = x.
Proof.
  intros Hm Hs Hx E.
  assert (Ea : m ++ sep ++ t "%w" = x ++ t "%w").
  { apply (first_occurrence_flex dq (m ++ sep ++ t "%w") (x ++ t "%w")
             (t "," ++ t " " ++ e ++ t ")") (y ++ rest) _ _ E).
    - unfold verb_ending. rewrite <- !app_assoc. reflexivity.
    - rewrite <- !app_assoc. reflexivity.
    - rewrite !occurrences_app, (not_char_occurrences _ _ Hm),
        (class_occurrences is_space dq sep eq_refl Hs). reflexivity.
    - rewrite occurrences_app, Hx. reflexivity. }
  rewrite app_assoc in Ea. apply app_inv_tail in Ea. exact Ea.
Qed.

Lemma between_quotes msg sep e rest x y :
  forallb (not_char dq) msg = true -> forallb is_space sep = true ->
  occurrences dq x = 0 ->
  messagef_head ++ dq :: msg ++ sep ++ verb_ending e
  = (messagef_head ++ [dq] ++ x ++ t "%w" ++ [dq] ++ y) ++ rest ->
  msg ++ sep = x.
Proof.
  intros Hm Hs Hx E.
  rewrite <- !app_assoc in E. apply app_inv_head in E.
  cbn [app] in E. injection E as E.
  apply (before_verb msg sep e rest x y Hm Hs Hx).
  rewrite E, <- !app_assoc. reflexivity.
Qed.

Lemma colon_not_at_head msg sep e :
  forallb (not_char dq) msg = true -> plain_end msg = true ->
  forallb is_space sep = true ->
  re_match colon_pattern (messagef_head ++ dq :: msg ++ sep ++ verb_ending e) = None.
Proof.
  intros Hm Hp Hs.
  destruct (re_match colon_pattern _) as [mo|] eqn:E; [|reflexivity]. exfalso.
  apply re_match_sound in E as [E Hu].
  set (u := m_text mo) in *. clearbody u.
  unfold colon_pattern, cause_tail, lit in Hu. simpl in Hu. lang_inv Hu.
  star_classes. quote_chars.
  apply (colon_tail_absurd msg sep v v0 Hp Hs L0). symmetry.
  apply (between_quotes msg sep e (m_rest mo) (v ++ ":"%char :: v0)
           (v1 ++ [","%char] ++ v2 ++ v3 ++ [")"%char])); [exact Hm | exact Hs | |].
  - rewrite occurrences_app, occurrences_cons, (not_char_occurrences _ _ L),
      (class_occurrences is_space dq v0 eq_refl L0). reflexivity.
  - rewrite E. repeat (rewrite <- ?app_assoc; cbn [app]). reflexivity.
Qed.

Lemma space_not_at_head msg e :
  forallb (not_char dq) msg = true -> plain_end msg = true ->
  re_match space_pattern (messagef_head ++ dq :: msg ++ [] ++ verb_ending e) = None.
Proof.
  intros Hm Hp.
  destruct (re_match space_pattern _) as [mo|] eqn:E; [|reflexivity]. exfalso.
  apply re_match_sound in E as [E Hu].
  set (u := m_text mo) in *. clearbody u.
  unfold space_pattern, cause_tail, lit in Hu. unfold plus at 1 in Hu.
  unfold ws in Hu. simpl in Hu. lang_inv Hu.
  star_classes. quote_chars.
  apply (blank_tail_absurd msg v (c0 :: w) Hp).
  - rewrite <- (app_nil_r msg).
    apply (between_quotes msg [] e (m_rest mo) (v ++ c0 :: w)
             (v0 ++ [","%char] ++ v1 ++ v2 ++ [")"%char])); [exact Hm | reflexivity | |].
    + rewrite occurrences_app, occurrences_cons, (not_char_occurrences _ _ L),
        (class_occurrences is_space dq w eq_refl L3).
      replace (is_char dq c0) with false; [reflexivity|].
      symmetry. destruct (is_char dq c0) eqn:X; [|reflexivity].
      apply Ascii.eqb_eq in X. subst c0. discriminate E1.
    + rewrite E. repeat (rewrite <- ?app_assoc; cbn [app]). reflexivity.
  - discriminate.
  - simpl. rewrite E1, L3. reflexivity.
Qed.

(** Inside the message the rest of the second pattern finds nothing. *)
Lemma space_tail_fails_inside msg w1 w2 sep e cs k :
  forallb (not_char dq) msg = true -> plain_end msg = true ->
  forallb is_space sep = true ->
  msg = w1 ++ w2 -> w2 <> [] ->
  rmatch space_tail (w2 ++ sep ++ verb_ending e) cs k = None.
Proof.
  intros Hm Hp Hs -> Hne.
  assert (Hw2 : forallb (not_char dq) w2 = true).
  { rewrite forallb_app in Hm. apply andb_prop in Hm as [_ H]. exact H. }
  destruct (rmatch space_tail _ cs k) as [x|] eqn:E; [|reflexivity]. exfalso.
  apply rmatch_sound in E as (u & s' & cs' & E & Hu & _).
  unfold space_tail, cause_tail, lit in Hu. unfold plus at 1 in Hu.
  unfold ws in Hu. simpl in Hu. lang_inv Hu.
  star_classes. quote_chars.
  lazymatch type of E with
  | _ = (([?c0] ++ ?w0) ++ _ ++ [dq] ++ ?y) ++ _ =>
      assert (Ex : w2 ++ sep = c0 :: w0);
      [ apply (before_verb w2 sep e s' (c0 :: w0) y Hw2 Hs);
        [ rewrite occurrences_cons, (class_occurrences is_space dq w0 eq_refl),
            space_not_quote by assumption; reflexivity
        | rewrite E; repeat (rewrite <- ?app_assoc; cbn [app]); reflexivity ]
      | ];
      assert (Hb : forallb is_space (c0 :: w0) = true)
        by (cbn [forallb]; apply andb_true_intro; split; assumption)
  end.
  apply (blank_tail_absurd (w1 ++ w2) w1 w2 Hp eq_refl Hne).
  rewrite <- Ex, forallb_app in Hb. apply andb_prop in Hb as [Hb _]. exact Hb.
Qed.

(** Inside the message the rest of the third pattern finds nothing. *)
Lemma bare_tail_fails_inside msg w1 w2 e cs k :
  forallb (not_char dq) msg = true ->
  msg = w1 ++ w2 -> w2 <> [] ->
  rmatch bare_tail (w2 ++ [] ++ verb_ending e) cs k = None.
Proof.
  intros Hm -> Hne.
  assert (Hw2 : forallb (not_char dq) w2 = true).
  { rewrite forallb_app in Hm. apply andb_prop in Hm as [_ H]. exact H. }
  destruct (rmatch bare_tail _ cs k) as [x|] eqn:E; [|reflexivity]. exfalso.
  apply rmatch_sound in E as (u & s' & cs' & E & Hu & _).
  unfold bare_tail, cause_tail, lit in Hu. simpl in Hu. lang_inv Hu.
  star_classes. quote_chars.
  lazymatch type of E with
  | _ = (_ ++ [dq] ++ ?y) ++ _ =>
      assert (Ex : w2 ++ [] = []);
      [ apply (before_verb w2 [] e s' [] y Hw2 eq_refl eq_refl);
        rewrite E; repeat (rewrite <- ?app_assoc; cbn [app]); reflexivity | ]
  end.
  rewrite app_nil_r in Ex. congruence.
Qed.

(** The tail the three patterns share takes the rest of the statement. *)
Lemma cause_tail_match e0 e' cs k x :
  is_ident e0 = true -> forallb is_ident e' = true ->
  k [] ((2, e0 :: e') :: cs) = Some x ->
  rmatch (cat cause_tail) (dq :: t "," ++ t " " ++ (e0 :: e') ++ t ")") cs k
  = Some x.
Proof.
  intros He0 He' Hk. unfold cause_tail, ws.
  rewrite rmatch_cat_cons, rmatch_chr_ok by reflexivity.
  rewrite rmatch_cat_cons.
  apply rmatch_star_none; [reflexivity|].
  rewrite rmatch_cat_cons, rmatch_lit_t.
  rewrite rmatch_cat_cons.
  apply (rmatch_star_class is_space (t " ")); [reflexivity| |].
  { simpl. rewrite (ident_stops_space _ He0). reflexivity. }
  rewrite rmatch_cat_cons, rmatch_group.
  apply (rmatch_plus_class is_ident e0 e' (t ")")); [assumption..|reflexivity|].
  change (e0 :: e' ++ t ")") with ((e0 :: e') ++ t ")").
  rewrite firstn_consumed.
  rewrite rmatch_cat_cons, rmatch_lit_end, rmatch_cat_nil.
  exact Hk.
Qed.

Lemma space_rmatch msg c sep e0 e' :
  forallb (not_char dq) msg = true -> plain_end msg = true ->
  forallb is_space (c :: sep) = true ->
  is_ident e0 = true -> forallb is_ident e' = true ->
  rmatch space_pattern
         (messagef_head ++ dq :: msg ++ (c :: sep) ++ verb_ending (e0 :: e'))
         [] accept
  = Some ([], [(2, e0 :: e'); (1, msg)]).
Proof.
  intros Hm Hp Hs He0 He'.
  unfold space_pattern, messagef_head. cbn [app].
  rewrite rmatch_cat_cons, rmatch_lit_t.
  rewrite rmatch_cat_cons, rmatch_chr_ok by reflexivity.
  rewrite rmatch_cat_cons, rmatch_group.
  apply rmatch_lazy_star_class; [exact Hm | |].
  - intros w1 w2 E Hne.
    apply (space_tail_fails_inside msg w1 w2 (c :: sep) (e0 :: e')); assumption.
  - change (msg ++ c :: sep ++ verb_ending (e0 :: e'))
      with (msg ++ (c :: sep ++ verb_ending (e0 :: e'))).
    rewrite firstn_consumed.
    simpl in Hs. apply andb_prop in Hs as [Hc Hs].
    rewrite rmatch_cat_cons. unfold ws.
    apply (rmatch_plus_class is_space c sep); [assumption..|reflexivity|].
    unfold verb_ending.
    rewrite rmatch_cat_cons, rmatch_lit_t.
    apply cause_tail_match; [assumption..|reflexivity].
Qed.

Lemma bare_rmatch msg e0 e' :
  forallb (not_char dq) msg = true ->
  is_ident e0 = true -> forallb is_ident e' = true ->
  rmatch bare_pattern
         (messagef_head ++ dq :: msg ++ [] ++ verb_ending (e0 :: e'))
         [] accept
  = Some ([], [(2, e0 :: e'); (1, msg)]).
Proof.
  intros Hm He0 He'.
  unfold bare_pattern, messagef_head. cbn [app].
  rewrite rmatch_cat_cons, rmatch_lit_t.
  rewrite rmatch_cat_cons, rmatch_chr_ok by reflexivity.
  rewrite rmatch_cat_cons, rmatch_group.
  apply rmatch_lazy_star_class; [exact Hm | |].
  - intros w1 w2 E Hne.
    apply (bare_tail_fails_inside msg w1 w2 (e0 :: e')); assumption.
  - rewrite firstn_consumed. unfold verb_ending.
    rewrite rmatch_cat_cons, rmatch_lit_t.
    apply cause_tail_match; [assumption..|reflexivity].
Qed.

(** The white space between the message and a lone %w goes with the verb:
    for a receiver text [b] without .Messagef( and a double quote, a
    message without double quotes that does not end in white space or a
    colon, white space [sep] (possibly none) and a plain identifier [e],
    the three substitutions turn b.Messagef('msg<sep>%w', e) into
    b.Message('msg').Cause(e). *)
Theorem single_verb_pass_spaced (b msg sep e : text) :
  contains messagef_anchor b = false ->
  forallb (not_char dq) msg = true -> plain_end msg = true ->
  forallb is_space sep = true ->
  e <> [] -> forallb is_ident e = true ->
  single_verb_pass (spaced_statement b msg sep e) = rewritten b msg e.
Proof.
  intros Hb Hm Hp Hs Hne He.
  pose proof (msg_quotes msg sep e Hm Hs He) as Hq.
  destruct e as [|e0 e']; [congruence|]. clear Hne.
  pose proof He as He2. simpl in He2. apply andb_prop in He2 as [He0 He'].
  unfold single_verb_pass, spaced_statement.
  rewrite (re_sub_no_match colon_pattern).
  2:{ apply only_at_head;
        [ apply SingleVerb.colon_two_quotes | exact Hb | exact Hq
        | apply colon_not_at_head; assumption ]. }
  destruct sep as [|c sep].
  - rewrite (re_sub_no_match space_pattern).
    2:{ apply only_at_head;
          [ apply SingleVerb.space_two_quotes | exact Hb | exact Hq
          | apply space_not_at_head; assumption ]. }
    rewrite (sub_at_head bare_pattern b _ _ SingleVerb.bare_two_quotes Hb
               (bare_rmatch msg e0 e' Hm He0 He')).
    unfold rewritten, expand, cause_template. cbn [map concat m_groups].
    list_eq.
  - rewrite (sub_at_head space_pattern b _ _ SingleVerb.space_two_quotes Hb
               (space_rmatch msg c sep e0 e' Hm Hp Hs He0 He')).
    assert (E : b ++ expand cause_template
                       (MatchObj (messagef_head ++ dq :: msg ++ (c :: sep)
                                    ++ verb_ending (e0 :: e'))
                                 [(2, e0 :: e'); (1, msg)] [])
                = rewritten b msg (e0 :: e')).
    { unfold rewritten, expand, cause_template. cbn [map concat m_groups].
      list_eq. }
    rewrite E.
    apply SingleVerb.no_match_in_rewritten;
      [apply SingleVerb.bare_two_quotes | assumption..].
Qed.

Lemma single_verb_pass_spaced_witness :
  contains messagef_anchor (t "b") = false
  /\ forallb (not_char dq) (t "save failed") = true
  /\ plain_end (t "save failed") = true
  /\ forallb is_space (t "  ") = true
  /\ t "err" <> []
  /\ forallb is_ident (t "err") = true
  /\ single_verb_pass (go "b.Messagef('save failed  %w', err)")
     = go "b.Message('save failed').Cause(err)".
Proof.
  split; [reflexivity|]. split; [reflexivity|]. split; [reflexivity|].
  split; [reflexivity|]. split; [discriminate|]. split; [reflexivity|].
  apply (single_verb_pass_spaced (t "b") (t "save failed") (t "  ") (t "err"));
    [reflexivity | reflexivity | reflexivity | reflexivity | discriminate
    | reflexivity].
Defined.

End SpacedVerb.

Module PipelineRun.

Import Driver.

Lemma for_each_app {A} (body : A -> io unit) (xs ys : list A) : forall w,
  for_each (xs ++ ys) body w
  = match for_each xs body w with
    | (inl _, w') => for_each ys body w'
    | (inr e, w') => (inr e, w')
    end.
Proof.
  induction xs as [|x xs IH]; intros w; [reflexivity|].
  cbn [app for_each]. unfold mbind, io_bind, bind.
  destruct (body x w) as [[[]|e] w']; [apply IH|reflexivity].
Qed.

(** One turn of the loop on a file that can be written. *)
Lemma v2_file_written p w :
  writable_file w p ->
  exists w', pipeline_v2_file p w = (inl tt, w')
    /\ written w' = written w ++ [p]
    /\ stdout w' = stdout w ++ [fixed_line p]
    /\ (forall q, q <> p -> fs w' !! q = fs w !! q)
    /\ (forall q, writable_file w q -> writable_file w' q).
Proof.
  intros [data Hp].
  destruct (Batch.one_off_scripts_write p data w Hp) as [E _].
  cbv zeta in E. eexists. split; [exact E|]. cbn [written stdout fs].
  split; [reflexivity|]. split; [reflexivity|]. split.
  - intros q Hq. apply lookup_insert_ne. congruence.
  - intros q [d Hq]. unfold writable_file. cbn [fs].
    destruct (decide (p = q)) as [->|Hne].
    + exists (PipelineV2.fix_file_content (universal_newlines data)).
      apply lookup_insert_eq.
    + rewrite lookup_insert_ne by exact Hne. eauto.
Qed.

(** One turn of the loop on anything else raises and changes nothing. *)
Lemma v2_file_refused p w :
  ~ writable_file w p -> exists e, pipeline_v2_file p w = (inr e, w).
Proof.
  intros Hp. unfold pipeline_v2_file, mbind, io_bind, bind, read_file, write_file.
  destruct (fs w !! p) as [[data [|]|]|] eqn:E; cbn [fs]; rewrite ?E; eauto.
  exfalso. apply Hp. exists data. exact E.
Qed.

Lemma v2_loop files : forall w,
  Forall (writable_file w) files ->
  exists w', for_each files pipeline_v2_file w = (inl tt, w')
    /\ written w' = written w ++ files
    /\ stdout w' = stdout w ++ map fixed_line files
    /\ (forall q, ~ In q files -> fs w' !! q = fs w !! q).
Proof.
  induction files as [|p files IH]; intros w Hall.
  - exists w. rewrite !app_nil_r. auto.
  - inversion Hall as [|? ? Hp Hrest]; subst.
    destruct (v2_file_written p w Hp) as (w1 & E1 & Hw1 & Ho1 & Hf1 & Hk1).
    destruct (IH w1) as (w2 & E2 & Hw2 & Ho2 & Hf2).
    { eapply Forall_impl; [exact Hrest|exact Hk1]. }
    exists w2. cbn [for_each]. unfold mbind, io_bind, bind. rewrite E1.
    split; [exact E2|]. rewrite Hw2, Ho2, Hw1, Ho1, <- !app_assoc.
    split; [reflexivity|]. split; [reflexivity|].
    intros q Hq. rewrite Hf2 by (intros H; apply Hq; right; exact H).
    apply Hf1. intros ->. apply Hq. left. reflexivity.
Qed.

(** fix_pipeline_logging_v2.py works through its list in order.  If every
    file up to one can be opened and written and that one cannot, the
    script has written the files before it, printed their progress lines
    and no Done!, touched nothing else, and ends with status 1; the files
    behind it are never reached.  If every file can be written, it writes
    them all, prints Done! and ends with status 0. *)
Theorem v2_stops_at_first_failure (files : list text) (w : world) :
  Forall (writable_file w) files ->
  (exists w', run (pipeline_v2_over files) w = (0, w')
     /\ written w' = written w ++ files
     /\ stdout w' = stdout w ++ map fixed_line files ++ [t "Done!"]
     /\ (forall q, ~ In q files -> fs w' !! q = fs w !! q))
  /\ (forall (f : text) (rest : list text),
        ~ writable_file w f ->
        exists w', run (pipeline_v2_over (files ++ f :: rest)) w = (1, w')
          /\ written w' = written w ++ files
          /\ stdout w' = stdout w ++ map fixed_line files
          /\ (forall q, ~ In q files -> fs w' !! q = fs w !! q)).
Proof.
  intros Hall. destruct (v2_loop files w Hall) as (w1 & E1 & Hw1 & Ho1 & Hf1).
  split.
  - eexists. unfold run, pipeline_v2_over, mbind, io_bind, bind. rewrite E1.
    cbn [print]. split; [reflexivity|]. cbn [written stdout fs].
    rewrite Hw1, Ho1, <- app_assoc. auto.
  - intros f rest Hf. exists w1.
    assert (Hf1' : ~ writable_file w1 f).
    { intros [d Hd]. apply Hf. exists d. rewrite <- Hd. symmetry. apply Hf1.
      intros Hin. apply Hf. rewrite List.Forall_forall in Hall. apply Hall, Hin. }
    destruct (v2_file_refused f w1 Hf1') as [e Ee].
    unfold run, pipeline_v2_over, mbind, io_bind, bind.
    rewrite for_each_app, E1. cbn [for_each]. unfold mbind, io_bind, bind.
    rewrite Ee. auto.
Qed.

Lemma v2_stops_at_first_failure_witness :
  let p := hd [] PipelineV2.files in
  Forall (writable_file settled_world) [p]
  /\ ~ writable_file settled_world (t "missing.go")
  /\ exists w', run (pipeline_v2_over ([p] ++ t "missing.go" :: [])) settled_world
                = (1, w')
       /\ written w' = written settled_world ++ [p]
       /\ stdout w' = stdout settled_world ++ map fixed_line [p]
       /\ (forall q, ~ In q [p] -> fs w' !! q = fs settled_world !! q).
Proof.
  intros p.
  assert (H1 : Forall (writable_file settled_world) [p]).
  { constructor; [|constructor]. exists (go "package pipeline|"). reflexivity. }
  assert (H2 : ~ writable_file settled_world (t "missing.go")).
  { intros [d Hd]. vm_compute in Hd. discriminate Hd. }
  split; [exact H1|]. split; [exact H2|].
  exact (proj2 (v2_stops_at_first_failure [p] settled_world H1)
           (t "missing.go") [] H2).
Defined.

End PipelineRun.

(** Every way of cutting the closed text on the left of [H] in two. *)
Ltac cuts H x y :=
  cbn in H;
  repeat (destruct x as [|? x];
          [ cbn [app] in H; try subst y
          | cbn [app] in H; first [discriminate H | injection H as <- H] ]).

Module SecurityMentions.

Lemma lit_match_inv l s mo : re_match (Lit l) s = Some mo -> exists rest, s = l ++ rest.
Proof.
  intros H. apply re_match_sound in H as [E H]. apply lang_lit_inv in H.
  rewrite H in E. eauto.
Qed.

Lemma lit_match l tail : re_match (Lit l) (l ++ tail) = Some (MatchObj l [] tail).
Proof.
  unfold re_match. rewrite rmatch_lit_app. unfold accept.
  rewrite firstn_consumed. reflexivity.
Qed.

(** An occurrence of [n] in [x ++ y] lies in [x], lies in [y], or
    straddles the seam. *)
Lemma contains_app_false n x y :
  contains n x = false -> contains n y = false ->
  (forall n1 n2 x' y', n = n1 ++ n2 -> n1 <> [] -> n2 <> [] ->
     x = x' ++ n1 -> y = n2 ++ y' -> False) ->
  contains n (x ++ y) = false.
Proof.
  intros Hx Hy Hs. destruct (contains n (x ++ y)) eqn:E; [exfalso|reflexivity].
  apply contains_true in E as (u & v & E).
  apply app_eq_app in E as [l [[-> E]|[-> ->]]].
  - symmetry in E. apply app_eq_app in E as [l' [[-> ->]|[-> ->]]].
    + assert (contains n (u ++ n ++ l') = true) by (apply contains_true; eauto).
      congruence.
    + destruct l as [|c l].
      * assert (contains l' (l' ++ v) = true)
          by (apply contains_true; exists [], v; reflexivity).
        cbn [app] in Hy. congruence.
      * destruct l' as [|c' l'].
        -- assert (contains ((c :: l) ++ []) (u ++ ((c :: l) ++ []) ++ []) = true)
             by (apply contains_true; eauto).
           rewrite !app_nil_r in *. congruence.
        -- apply (Hs (c :: l) (c' :: l') u v); try reflexivity; discriminate.
  - assert (contains n (l ++ n ++ v) = true) by (apply contains_true; eauto).
    congruence.
Qed.

Section Pass.

Variables (l r n : text).
Hypothesis Hn : contains n l = true.
Hypothesis Hl : l <> [].

Lemma lit_in_language u : lang (Lit l) u -> contains_any [n] u = true.
Proof using Hn Hl.
  intros H. apply lang_lit_inv in H. subst u.
  unfold contains_any. cbn [existsb]. rewrite Hn. reflexivity.
Qed.

Lemma no_match_in_filler a b1 b2 s tail :
  contains n a = false -> stands_apart l s -> a = b1 ++ b2 -> b2 <> [] ->
  re_match (Lit l) (b2 ++ s ++ tail) = None.
Proof using Hn Hl.
  intros Ha [Hb _] -> Hne.
  destruct (re_match (Lit l) (b2 ++ s ++ tail)) as [mo|] eqn:E; [exfalso|reflexivity].
  apply lit_match_inv in E as [rest E].
  assert (Hin : forall x, b2 = l ++ x -> False).
  { intros x ->. apply contains_true in Hn as (p & q & Hpq).
    assert (contains n (b1 ++ l ++ x) = true).
    { apply contains_true. exists (b1 ++ p), (q ++ x). rewrite Hpq at 1.
      rewrite <- !app_assoc. reflexivity. }
    congruence. }
  apply app_eq_app in E as [x [[E1 E2]|[E1 E2]]].
  - exact (Hin x E1).
  - destruct x as [|c x].
    + rewrite app_nil_r in E1. apply (Hin []). rewrite app_nil_r. symmetry. exact E1.
    + apply (Hb b2 (c :: x) tail rest); auto.
Qed.

Lemma pass : forall rest head fuel,
  contains n head = false ->
  Forall (fun p => stands_apart l (fst p) /\ contains n (snd p) = false) rest ->
  length (pieces head rest) < fuel ->
  sub_loop fuel (Lit l) (fun _ => r) (pieces head rest)
  = pieces head (map (fun p => (if teq (fst p) l then r else fst p, snd p)) rest).
Proof using Hn Hl.
  induction rest as [|[s a] rest IH]; intros head fuel Hh Hall Hfuel.
  - unfold pieces. cbn [map concat]. apply sub_loop_no_match.
    apply (no_match_without [n]); [exact lit_in_language|].
    rewrite app_nil_r. unfold contains_any. cbn [existsb]. rewrite Hh. reflexivity.
  - inversion Hall as [|? ? [Hs Ha] Hrest]; subst.
    cbn [fst snd] in Hs, Ha.
    assert (Eshape : forall (q : text) rs, pieces head ((q, a) :: rs)
                                           = head ++ q ++ pieces a rs).
    { intros q rs. unfold pieces. cbn [map concat fst snd].
      rewrite <- !app_assoc. reflexivity. }
    cbn [map fst snd]. rewrite !Eshape. rewrite Eshape in Hfuel.
    rewrite !length_app in Hfuel.
    replace fuel with (length head + (fuel - length head)) by lia.
    rewrite sub_loop_copy
      by (intros b1 b2 E Hne; exact (no_match_in_filler head b1 b2 s _ Hh Hs E Hne)).
    f_equal.
    destruct Hs as [Hb [->|Hi]].
    + rewrite teq_refl.
      destruct (fuel - length head) as [|f] eqn:Ef; [lia|].
      cbn [sub_loop]. rewrite lit_match. cbn [m_rest].
      assert (Hlt : (length (pieces a rest) <? length (l ++ pieces a rest)) = true).
      { apply Nat.ltb_lt. rewrite length_app. destruct l; [congruence|cbn; lia]. }
      rewrite Hlt. f_equal. apply IH; [exact Ha|exact Hrest|].
      destruct l; [congruence|]. cbn [length] in Hfuel. lia.
    + assert (Hne : teq s l = false).
      { apply teq_false. intros ->. destruct l as [|c l']; [congruence|].
        apply (Hi [] (c :: l') [] []); [reflexivity|discriminate|reflexivity]. }
      rewrite Hne.
      replace (fuel - length head)
        with (length s + (fuel - length head - length s)) by lia.
      rewrite sub_loop_copy.
      * f_equal. apply IH; [exact Ha|exact Hrest|lia].
      * intros s1 s2 -> Hs2.
        destruct (re_match (Lit l) (s2 ++ pieces a rest)) as [mo|] eqn:E;
          [exfalso|reflexivity].
        apply lit_match_inv in E as [rest' E].
        exact (Hi s1 s2 _ rest' eq_refl Hs2 E).
Qed.

End Pass.

Ltac absurd_cut :=
  cbn in *; try congruence; try discriminate.

Ltac stands_apart_tac :=
  split;
  [ intros a2 l2 tail rest E Ha Hl E2; cuts E a2 l2; absurd_cut
  | first
      [ left; reflexivity
      | right; intros s1 s2 tail rest E Hs E2; cuts E s1 s2; absurd_cut ] ].

Lemma nop_apart m :
  stands_apart (t "logger := zerolog.Nop()") (mention_text m).
Proof. destruct m; stands_apart_tac. Qed.

Lemma new_apart m :
  stands_apart (t "zerolog.New(os.Stdout)") (mention_midway m).
Proof. destruct m; stands_apart_tac. Qed.

Lemma fillers_free {A} (show : A -> text) l (rest : list (A * text)) :
  (forall m, stands_apart l (show m)) ->
  forallb (fun p => negb (contains (t "zerolog.") (snd p))) rest = true ->
  Forall (fun p => stands_apart l (fst p) /\ contains (t "zerolog.") (snd p) = false)
         (map (fun p => (show (fst p), snd p)) rest).
Proof.
  intros Hs H. apply List.Forall_forall. intros [s a] Hin.
  apply in_map_iff in Hin as ([m a'] & E & Hin). cbn [fst snd] in E.
  injection E as <- <-. cbn [fst snd]. split; [apply Hs|].
  rewrite forallb_forall in H. apply H in Hin. cbn [snd] in Hin.
  apply negb_true_iff. exact Hin.
Qed.

(** The first substitution. *)
Lemma nop_pass head rest :
  contains (t "zerolog.") head = false ->
  forallb (fun p => negb (contains (t "zerolog.") (snd p))) rest = true ->
  re_sub SecurityTest.nop_pattern
         (fun _ => t "logger := " ++ SecurityTest.slog_handler)
         (mentions_only mention_text head rest)
  = mentions_only mention_midway head rest.
Proof.
  intros Hh Hr. unfold re_sub, SecurityTest.nop_pattern, lit, mentions_only.
  rewrite (pass _ _ (t "zerolog.")); try assumption; try reflexivity.
  - f_equal. rewrite map_map. apply map_ext. intros [[] a]; reflexivity.
  - discriminate.
  - apply fillers_free; [apply nop_apart|exact Hr].
  - lia.
Qed.

(** The second substitution. *)
Lemma new_pass head rest :
  contains (t "zerolog.") head = false ->
  forallb (fun p => negb (contains (t "zerolog.") (snd p))) rest = true ->
  re_sub SecurityTest.new_pattern (fun _ => SecurityTest.slog_handler)
         (mentions_only mention_midway head rest)
  = mentions_only mention_slog head rest.
Proof.
  intros Hh Hr. unfold re_sub, SecurityTest.new_pattern, lit, mentions_only.
  rewrite (pass _ _ (t "zerolog.")); try assumption; try reflexivity.
  - f_equal. rewrite map_map. apply map_ext. intros [[] a]; reflexivity.
  - discriminate.
  - apply fillers_free; [apply new_apart|exact Hr].
  - lia.
Qed.

(** zerolog. does not reach across the seams of the rewritten text. *)
Lemma slog_then_free m tail :
  contains (t "zerolog.") tail = false ->
  contains (t "zerolog.") (mention_slog m ++ tail) = false.
Proof.
  intros Ht. apply contains_app_false; [destruct m; reflexivity|exact Ht|].
  intros n1 n2 x' y' E H1 H2 Ex _.
  apply (f_equal (@rev ascii)) in Ex. rewrite rev_app_distr in Ex.
  destruct m; cuts E n1 n2; absurd_cut.
Qed.

Lemma free_then_slog head m tail :
  contains (t "zerolog.") head = false ->
  contains (t "zerolog.") (mention_slog m ++ tail) = false ->
  contains (t "zerolog.") (head ++ mention_slog m ++ tail) = false.
Proof.
  intros Hh Ht. apply contains_app_false; [exact Hh|exact Ht|].
  intros n1 n2 x' y' E H1 H2 _ Ey.
  destruct m; cuts E n1 n2; absurd_cut.
Qed.

Lemma slog_text_free : forall rest head,
  contains (t "zerolog.") head = false ->
  forallb (fun p => negb (contains (t "zerolog.") (snd p))) rest = true ->
  contains (t "zerolog.") (mentions_only mention_slog head rest) = false.
Proof.
  induction rest as [|[m a] rest IH]; intros head Hh Hr.
  - unfold mentions_only, pieces. cbn [map concat]. rewrite app_nil_r. exact Hh.
  - cbn [forallb snd] in Hr. apply andb_prop in Hr as [Ha Hr].
    apply negb_true_iff in Ha.
    unfold mentions_only, pieces. cbn [map concat fst snd].
    rewrite <- app_assoc.
    apply free_then_slog; [exact Hh|]. apply slog_then_free.
    apply (IH a Ha Hr).
Qed.

(** A text that mentions zerolog. only in the two calls the script
    knows -- any number of them, in any order, with zerolog-free text in
    between -- comes out with every such call replaced by its slog form,
    and with no zerolog. left. *)
Theorem known_mentions_replaced (head : text) (rest : list (mention * text)) :
  contains (t "zerolog.") head = false ->
  forallb (fun p => negb (contains (t "zerolog.") (snd p))) rest = true ->
  SecurityTest.fix_content (mentions_only mention_text head rest)
  = mentions_only mention_slog head rest
  /\ contains (t "zerolog.") (mentions_only mention_slog head rest) = false.
Proof.
  intros Hh Hr. split.
  - unfold SecurityTest.fix_content.
    rewrite (nop_pass head rest Hh Hr). exact (new_pass head rest Hh Hr).
  - exact (slog_text_free rest head Hh Hr).
Qed.

Lemma known_mentions_replaced_witness :
  let head := go "func TestScan(t *testing.T) {|~" in
  let rest := [ (NopLogger, go "|~w := ");
                (StdoutLogger, go "|~scan(logger, w)|}|") ] in
  contains (t "zerolog.") head = false
  /\ forallb (fun p => negb (contains (t "zerolog.") (snd p))) rest = true
  /\ SecurityTest.fix_content
       (go "func TestScan(t *testing.T) {|~logger := zerolog.Nop()|~w := zerolog.New(os.Stdout)|~scan(logger, w)|}|")
     = go "func TestScan(t *testing.T) {|~logger := slog.New(slog.NewTextHandler(os.Stdout, nil))|~w := slog.New(slog.NewTextHandler(os.Stdout, nil))|~scan(logger, w)|}|".
Proof.
  intros head rest.
  split; [reflexivity|]. split; [reflexivity|].
  exact (proj1 (known_mentions_replaced head rest eq_refl eq_refl)).
Defined.

End SecurityMentions.

Module WholeFile.

Import Zerolog Chain.

Lemma forallb_weaken (p q : ascii -> bool) s :
  (forall c, p c = true -> q c = true) ->
  forallb p s = true -> forallb q s = true.
Proof.
  intros Hpq. induction s as [|c s IH]; [reflexivity|].
  cbn [forallb]. intros H. apply andb_prop in H as [Hc Hs].
  rewrite (Hpq c Hc), (IH Hs). reflexivity.
Qed.

Lemma space_lead s : forallb is_space s = true -> forallb lead_char s = true.
Proof.
  apply forallb_weaken. intros c H. unfold lead_char. rewrite H. reflexivity.
Qed.

Lemma word_lead s : forallb is_word s = true -> forallb lead_char s = true.
Proof.
  apply forallb_weaken. intros c H. unfold lead_char. rewrite H.
  rewrite orb_true_r. reflexivity.
Qed.

(** Every word of a pattern that starts with the anchor part shows an
    anchor behind characters of the indent and the receiver. *)
Lemma anchor_lead rest u :
  lang (cat (anchor_part ++ rest)) u ->
  exists x a y, u = x ++ a ++ y /\ In a zerolog_anchors
                /\ forallb lead_char x = true.
Proof.
  intros H. unfold anchor_part in H. simpl in H.
  unfold opt, level_names, lit, plus, word, ws in H. simpl in H.
  lang_inv H. all: star_classes.
  all: match goal with
       | |- exists x a y, ?v ++ ?r ++ ?lg ++ ?lv ++ ?pp ++ ?w = _ /\ _ =>
           exists (v ++ r), (lg ++ lv ++ pp), w
       end.
  all: split; [rewrite <- !app_assoc; reflexivity|].
  all: split;
    [ first [ left; reflexivity | right; left; reflexivity
            | right; right; left; reflexivity
            | right; right; right; left; reflexivity ] | ].
  all: rewrite forallb_app, (space_lead _ L); cbn [andb].
  1-4: rewrite !forallb_app, (word_lead _ L4); cbn [forallb andb];
       unfold lead_char at 1; rewrite E, orb_true_r; reflexivity.
  all: reflexivity.
Qed.

(** A statement starts with a character of the indent or the receiver. *)
Lemma source_head c tail :
  well_formed c = true ->
  exists ch s, source_text c ++ tail = ch :: s /\ lead_char ch = true.
Proof.
  destruct c as [indent recv l calls gap m].
  unfold well_formed, source_text.
  cbn [zc_indent zc_receiver zc_level zc_calls zc_gap zc_message].
  intros H. apply andb_prop in H as [H _]. apply andb_prop in H as [H _].
  apply andb_prop in H as [H _]. apply andb_prop in H as [Hi Hr].
  destruct indent as [|c0 indent].
  - destruct recv as [[|c1 w]|]; [discriminate Hr| |].
    + simpl in Hr. apply andb_prop in Hr as [Hc _].
      eexists _, _. split; [reflexivity|].
      unfold lead_char. rewrite Hc, orb_true_r. reflexivity.
    + eexists _, _. split; [reflexivity|]. reflexivity.
  - cbn [blank forallb] in Hi. apply andb_prop in Hi as [Hc _].
    eexists _, _. split; [reflexivity|]. unfold lead_char. rewrite Hc. reflexivity.
Qed.

Lemma ends_clear_snoc s c : ends_clear (s ++ [c]) = negb (lead_char c).
Proof. unfold ends_clear. rewrite rev_app_distr. reflexivity. Qed.

Lemma ends_clear_lead a b :
  b <> [] -> forallb lead_char b = true -> ends_clear (a ++ b) = false.
Proof.
  intros Hne Hb.
  assert (exists w c, b = w ++ [c]) as (w & c & ->).
  { destruct b as [|c b] using rev_ind; [congruence|]. eauto. }
  rewrite app_assoc, ends_clear_snoc.
  rewrite forallb_app in Hb. apply andb_prop in Hb as [_ Hc].
  cbn [forallb] in Hc. rewrite andb_true_r in Hc. rewrite Hc. reflexivity.
Qed.

Lemma anchor_inside a x l :
  In a zerolog_anchors -> contains_any zerolog_anchors (x ++ a ++ l) = true.
Proof.
  intros Ha. apply (contains_any_at zerolog_anchors a _ x l Ha). reflexivity.
Qed.

(** No match of a pattern with the anchor part starts in the text in
    front of a statement. *)
Lemma no_match_before rest pre1 p2 c tail :
  p2 <> [] -> ends_clear (pre1 ++ p2) = true ->
  contains_any zerolog_anchors (pre1 ++ p2) = false ->
  well_formed c = true ->
  re_match (cat (anchor_part ++ rest)) (p2 ++ source_text c ++ tail) = None.
Proof.
  intros Hne He Hfree Hc.
  destruct (re_match _ _) as [mo|] eqn:E; [exfalso|reflexivity].
  apply re_match_sound in E as [E Hu].
  apply anchor_lead in Hu as (x & a & y & Eu & Ha & Hx).
  rewrite Eu in E. rewrite <- !app_assoc in E.
  destruct (source_head c tail Hc) as (ch & s & Es & Hch).
  rewrite Es in E.
  assert (Hlead : forall b, forallb lead_char (p2 ++ b) = true -> False).
  { intros b Hb. rewrite forallb_app in Hb. apply andb_prop in Hb as [Hb _].
    rewrite (ends_clear_lead pre1 p2 Hne Hb) in He. discriminate He. }
  assert (Hin : forall b, p2 = x ++ a ++ b -> False).
  { intros b ->. rewrite (app_assoc pre1 x) in Hfree.
    rewrite (anchor_inside a (pre1 ++ x) b Ha) in Hfree. discriminate Hfree. }
  apply app_eq_app in E as [l [[E1 E2]|[E1 E2]]].
  - symmetry in E2. apply app_eq_app in E2 as [l2 [[E3 E4]|[E3 E4]]].
    + apply (Hin l2). rewrite E1, E3. reflexivity.
    + (* the anchor reaches into the statement *)
      subst p2.
      cbn in Ha. destruct Ha as [Ha|[Ha|[Ha|[Ha|[]]]]]; subst a.
      all: cuts Ha l l2.
      all: try (apply (Hlead []); rewrite !app_nil_r; exact Hx).
      all: try (eapply (Hin []); rewrite app_nil_r; reflexivity).
      all: try (cbn in E4; injection E4 as -> _; vm_compute in Hch;
                discriminate Hch).
      all: unfold ends_clear in He; rewrite !rev_app_distr in He;
           cbn in He; vm_compute in He; discriminate He.
  - apply (Hlead l). rewrite <- E1. exact Hx.
Qed.

Lemma finish_with_tail m tail :
  finish m ++ tail = t "." ++ t "Msg(" ++ dq :: m ++ dq :: t ")" ++ tail.
Proof. unfold finish. list_eq. Qed.

Lemma finish_match_in n gap m tail cs k x :
  blank gap = true -> forallb (not_char dq) m = true ->
  k tail ((n, m) :: cs) = Some x ->
  rmatch (cat (msg_call n)) (gap ++ finish m ++ tail) cs k = Some x.
Proof.
  intros Hg Hm Hk. unfold msg_call. rewrite finish_with_tail.
  rewrite rmatch_cat_cons. apply (rmatch_star_class is_space gap); [exact Hg|reflexivity|].
  rewrite rmatch_cat_cons, rmatch_lit_t.
  rewrite rmatch_cat_cons. apply rmatch_star_none; [reflexivity|].
  rewrite rmatch_cat_cons, rmatch_lit_t.
  rewrite rmatch_cat_cons, rmatch_chr_ok by reflexivity.
  rewrite rmatch_cat_cons, rmatch_group.
  apply (rmatch_star_class (not_char dq) m (dq :: t ")" ++ tail));
    [exact Hm|reflexivity|].
  rewrite firstn_consumed.
  rewrite rmatch_cat_cons, rmatch_chr_ok by reflexivity.
  rewrite rmatch_cat_cons, rmatch_lit_t, rmatch_cat_nil.
  exact Hk.
Qed.

Lemma starts_clear_dot g s :
  forallb is_space g = true -> starts_clear (g ++ "."%char :: s) = false.
Proof.
  intros Hg. unfold starts_clear. induction g as [|c g IH]; [reflexivity|].
  cbn [forallb] in Hg. apply andb_prop in Hg as [Hc Hg].
  cbn [app lstrip_with]. rewrite Hc. exact (IH Hg).
Qed.

(** A call of the chain starts with a dot behind white space and shows
    its one closing parenthesis at its end. *)
Lemma chain_call_form u :
  lang chain_call u ->
  exists g r u0, u = g ++ "."%char :: r /\ forallb is_space g = true
                 /\ u = u0 ++ [rp] /\ occurrences rp u0 = 0.
Proof.
  intros H. unfold chain_call, lit, plus, word, ws in H. simpl in H.
  lang_inv H. star_classes.
  exists v, (v0 ++ ([c] ++ w) ++ ["("%char] ++ v1 ++ [")"%char] ++ []),
         (v ++ ["."%char] ++ v0 ++ ([c] ++ w) ++ ["("%char] ++ v1).
  split; [reflexivity|]. split; [exact L|]. split.
  - rewrite <- !app_assoc. reflexivity.
  - assert (Hw : forallb is_word [c] = true)
      by (cbn [forallb]; rewrite E; reflexivity).
    rewrite !occurrences_app.
    rewrite (class_occurrences is_space rp v eq_refl L),
            (class_occurrences is_space rp v0 eq_refl L0),
            (class_occurrences is_word rp [c] eq_refl Hw),
            (class_occurrences is_word rp w eq_refl L4),
            (not_char_occurrences rp v1 L1).
    reflexivity.
Qed.

(** Behind the finishing call the loop over the calls of the chain finds
    nothing to go on with. *)
Lemma star_at_finish_in k gap m tail cs fuel :
  (forall s cs' x, k s cs' = Some x -> starts_clear s = false) ->
  blank gap = true -> forallb (not_char dq) m = true ->
  forallb inner m = true -> starts_clear tail = true ->
  star_loop (rmatch chain_call) true k fuel (gap ++ finish m ++ tail) cs
  = k (gap ++ finish m ++ tail) cs.
Proof.
  intros Hk Hg Hm Hi Ht. destruct fuel as [|fuel]; [reflexivity|].
  cbn [star_loop].
  destruct (rmatch chain_call (gap ++ finish m ++ tail) cs _) as [x|] eqn:E;
    [|reflexivity].
  exfalso.
  apply rmatch_sound in E as (u & s' & cs' & E & Hu & Hagain).
  destruct (length s' <? length (gap ++ finish m ++ tail)); [|discriminate].
  apply (star_loop_sound x true chain_call (rmatch_sound x chain_call)) in Hagain
    as (v & s'' & cs'' & -> & Hv & Hk').
  apply chain_call_form in Hu as (_ & _ & u0 & _ & _ & -> & Hu0).
  assert (Es : u0 = gap ++ t ".Msg(" ++ dq :: m ++ [dq] /\ v ++ s'' = tail).
  { apply (first_occurrence_unique rp); [exact Hu0| |].
    - rewrite !occurrences_app, occurrences_cons, occurrences_app.
      rewrite (class_occurrences is_space rp gap eq_refl Hg).
      rewrite (not_char_occurrences rp m Hi). reflexivity.
    - transitivity ((u0 ++ [rp]) ++ v ++ s''); [list_eq|].
      rewrite <- E, finish_with_tail.
      simpl. repeat (rewrite <- app_assoc; simpl). reflexivity. }
  destruct Es as [_ Es].
  inversion Hv as [| |? | | | |g a Eg|g a u1 v1 Hu1 Hv1 Eg|]; subst.
  - cbn [app] in Ht. apply Hk in Hk'. congruence.
  - apply chain_call_form in Hu1 as (g & r & _ & -> & Hgs & _ & _).
    rewrite <- !app_assoc in Ht. cbn [app] in Ht.
    rewrite (starts_clear_dot g _ Hgs) in Ht. discriminate Ht.
Qed.

(** The greedy loop takes every call of the chain and hands over at the
    finishing call, whatever follows the statement. *)
Lemma star_over_chain_in k gap m tail x cs : forall calls fuel,
  (forall s cs' y, k s cs' = Some y -> starts_clear s = false) ->
  blank gap = true -> forallb (not_char dq) m = true ->
  forallb inner m = true -> starts_clear tail = true ->
  forallb plain_call calls = true ->
  k (gap ++ finish m ++ tail) cs = Some x ->
  length calls <= fuel ->
  star_loop (rmatch chain_call) true k fuel
            (chain_of calls ++ gap ++ finish m ++ tail) cs
  = Some x.
Proof.
  induction calls as [|[g f] calls IH]; intros fuel Hk Hg Hm Hi Ht Hp Hx Hfuel.
  - change (chain_of [] ++ gap ++ finish m ++ tail) with (gap ++ finish m ++ tail).
    rewrite star_at_finish_in by assumption. exact Hx.
  - destruct fuel as [|fuel]; [simpl in Hfuel; lia|].
    cbn [forallb] in Hp. apply andb_prop in Hp as [Hc Hp].
    unfold plain_call in Hc. cbn [fst snd] in Hc. apply andb_prop in Hc as [Hgf Hf].
    rewrite FieldOrder.chain_cons. cbn [fst snd]. rewrite <- !app_assoc.
    cbn [star_loop].
    rewrite (FieldOrder.call_on_segment g f _ cs _ x Hgf Hf); [reflexivity|].
    assert ((length (chain_of calls ++ gap ++ finish m ++ tail)
             <? length (g ++ segment f ++ chain_of calls ++ gap ++ finish m ++ tail))
            = true) as ->.
    { apply Nat.ltb_lt. rewrite (length_app g), (length_app (segment f)).
      pose proof (FieldOrder.segment_length f). lia. }
    apply IH; try assumption. simpl in Hfuel. lia.
Qed.

Lemma msg_call_dot n s cs k x :
  rmatch (cat (msg_call n)) s cs k = Some x -> starts_clear s = false.
Proof.
  intros H. apply rmatch_sound in H as (u & s' & cs' & -> & Hu & _).
  unfold msg_call, lit, ws in Hu. simpl in Hu. lang_inv Hu. star_classes.
  rewrite <- !app_assoc. cbn [app]. apply starts_clear_dot. assumption.
Qed.

Lemma pattern_behind_receiver_in l calls gap m tail cs :
  forallb plain_call calls = true -> blank gap = true ->
  forallb (not_char dq) m = true -> forallb inner m = true ->
  starts_clear tail = true ->
  rmatch (cat (lit "logger." :: Group 3 level_names :: lit "()"
               :: Group 4 (star chain_call) :: msg_call 5))
         (t "logger." ++ t (level_name l) ++ t "()" ++ chain_of calls
            ++ gap ++ finish m ++ tail) cs accept
  = Some (tail, (5, m) :: (4, chain_of calls) :: (3, t (level_name l)) :: cs).
Proof.
  intros Hp Hg Hm Hi Ht.
  rewrite rmatch_cat_cons, rmatch_lit_t.
  rewrite rmatch_cat_cons, rmatch_group, FieldOrder.level_match, firstn_consumed.
  rewrite rmatch_cat_cons, rmatch_lit_t.
  rewrite rmatch_cat_cons, rmatch_group.
  unfold star at 1. cbn [rmatch].
  apply star_over_chain_in; try assumption.
  - intros s cs0 x H. exact (msg_call_dot _ _ _ _ _ H).
  - rewrite firstn_consumed. apply finish_match_in; [exact Hg|exact Hm|]. reflexivity.
  - rewrite length_app. pose proof (FieldOrder.chain_length calls). lia.
Qed.

Lemma source_with_tail c tail :
  source_text c ++ tail
  = zc_indent c ++ receiver_text (zc_receiver c) ++ t "logger."
      ++ t (level_name (zc_level c)) ++ t "()"
      ++ chain_of (zc_calls c) ++ zc_gap c ++ finish (zc_message c) ++ tail.
Proof. unfold source_text. rewrite <- !app_assoc. reflexivity. Qed.

(** The chain pattern takes exactly the statement and leaves what
    follows it. *)
Lemma pattern_on_statement c tail :
  well_formed c = true -> forallb inner (zc_message c) = true ->
  starts_clear tail = true ->
  rmatch pattern (source_text c ++ tail) [] accept = Some (tail, statement_caps c).
Proof.
  rewrite source_with_tail.
  destruct c as [indent recv l calls gap m].
  unfold well_formed, statement_caps.
  cbn [zc_indent zc_receiver zc_level zc_calls zc_gap zc_message].
  intros H Hin Ht. apply andb_prop in H as [H Hm]. apply andb_prop in H as [H Hg].
  apply andb_prop in H as [H Hp]. apply andb_prop in H as [Hi Hr].
  unfold pattern, anchor_part. cbn [app].
  rewrite rmatch_cat_cons, rmatch_group.
  apply (rmatch_star_class is_space indent); [exact Hi| |].
  { destruct recv as [[|c0 w]|]; [discriminate Hr| |reflexivity].
    simpl in Hr. apply andb_prop in Hr as [Hc0 _].
    simpl. rewrite (word_stops_space _ Hc0). reflexivity. }
  rewrite firstn_consumed.
  rewrite rmatch_cat_cons. unfold opt. cbn [rmatch].
  destruct recv as [w|]; cbn [receiver_text receiver_caps app].
  - destruct w as [|c0 w]; [discriminate Hr|].
    simpl in Hr. apply andb_prop in Hr as [Hc0 Hw].
    match goal with
    | |- match ?M with _ => _ end = Some ?R => assert (M = Some R) as ->; [|reflexivity]
    end.
    match goal with |- rmatch _ _ _ ?K = _ => set (k := K) end.
    rewrite <- app_assoc, rmatch_cat_cons.
    apply (rmatch_plus_class is_word c0 w); [assumption..|reflexivity|].
    rewrite rmatch_cat_cons, rmatch_lit_t, rmatch_cat_nil.
    unfold k. rewrite firstn_consumed.
    apply pattern_behind_receiver_in; assumption.
  - rewrite FieldOrder.no_receiver.
    2:{ intros s' cs' H. rewrite rmatch_cat_cons in H. unfold lit in H.
        cbn [rmatch] in H.
        destruct (strip_prefix (t "logger.") s') as [s''|] eqn:E; [|congruence].
        apply strip_prefix_Some in E. eauto. }
    apply pattern_behind_receiver_in; assumption.
Qed.

Lemma statement_replaced c tail :
  well_formed c = true ->
  replace_match (MatchObj (source_text c) (statement_caps c) tail) = slog_text c.
Proof.
  intros Hc. unfold replace_match. cbn [m_groups].
  destruct (FieldOrder.statement_groups c) as (-> & -> & -> & -> & ->).
  rewrite (FieldOrder.build_args_chain _ (FieldOrder.well_formed_calls c Hc)).
  apply FieldOrder.render_flat.
Qed.

Lemma match_on_statement c tail :
  well_formed c = true -> forallb inner (zc_message c) = true ->
  starts_clear tail = true ->
  re_match pattern (source_text c ++ tail)
  = Some (MatchObj (source_text c) (statement_caps c) tail).
Proof.
  intros Hc Hi Ht. unfold re_match.
  rewrite (pattern_on_statement c tail Hc Hi Ht), firstn_consumed. reflexivity.
Qed.

Lemma file_text_cons show head c f rest :
  file_text show head ((c, f) :: rest) = head ++ show c ++ file_text show f rest.
Proof.
  unfold file_text, pieces. cbn [map concat fst snd].
  rewrite <- !app_assoc. reflexivity.
Qed.

Lemma file_text_nil show head : file_text show head [] = head.
Proof. unfold file_text, pieces. cbn [map concat]. apply app_nil_r. Qed.

Lemma anchor_free_parts a b :
  contains_any zerolog_anchors (a ++ b) = false ->
  contains_any zerolog_anchors a = false /\ contains_any zerolog_anchors b = false.
Proof.
  intros H. split.
  - destruct (contains_any zerolog_anchors a) eqn:E; [|reflexivity].
    apply (contains_any_inside _ [] a b) in E. cbn [app] in E. congruence.
  - destruct (contains_any zerolog_anchors b) eqn:E; [|reflexivity].
    apply (contains_any_inside _ a b []) in E. rewrite app_nil_r in E. congruence.
Qed.

Lemma fillers_anchor_free show : forall rest head,
  contains_any zerolog_anchors (file_text show head rest) = false ->
  contains_any zerolog_anchors head = false
  /\ Forall (fun p => contains_any zerolog_anchors (snd p) = false) rest.
Proof.
  induction rest as [|[c f] rest IH]; intros head H.
  - rewrite file_text_nil in H. split; [exact H|constructor].
  - rewrite file_text_cons in H.
    apply anchor_free_parts in H as [Hh H]. apply anchor_free_parts in H as [_ H].
    destruct (IH f H) as [Hf Hr]. split; [exact Hh|]. constructor; assumption.
Qed.

Lemma source_length c : 0 < length (source_text c).
Proof. unfold source_text. rewrite !length_app. simpl. lia. Qed.

(** The chain pass over a file. *)
Lemma chain_pass_file : forall rest head fuel,
  statements_clear head rest = true ->
  contains_any zerolog_anchors head = false ->
  Forall (fun p => contains_any zerolog_anchors (snd p) = false) rest ->
  length (file_text source_text head rest) < fuel ->
  sub_loop fuel pattern replace_match (file_text source_text head rest)
  = file_text slog_text head rest.
Proof.
  induction rest as [|[c f] rest IH]; intros head fuel Hs Hh Hr Hfuel.
  - rewrite !file_text_nil. apply sub_loop_no_match.
    apply (no_match_without zerolog_anchors); [|exact Hh].
    intros u. apply Idempotence.zerolog_head_anchor.
  - cbn [statements_clear] in Hs.
    apply andb_prop in Hs as [Hs Hrest]. apply andb_prop in Hs as [Hs Ht].
    apply andb_prop in Hs as [Hs Hi]. apply andb_prop in Hs as [He Hc].
    inversion Hr as [|? ? Hf Hr']; subst. cbn [snd] in Hf.
    rewrite !file_text_cons. rewrite file_text_cons in Hfuel.
    rewrite !length_app in Hfuel. pose proof (source_length c) as Hlen.
    replace fuel with (length head + (fuel - length head)) by lia.
    rewrite sub_loop_copy.
    2:{ intros b1 b2 E Hne. subst head.
        apply (no_match_before _ b1 b2 c); assumption. }
    f_equal.
    destruct (fuel - length head) as [|fuel'] eqn:Ef; [lia|].
    cbn [sub_loop]. rewrite (match_on_statement c _ Hc Hi Ht). cbn [m_rest].
    assert ((length (file_text source_text f rest)
             <? length (source_text c ++ file_text source_text f rest)) = true) as ->.
    { apply Nat.ltb_lt. rewrite length_app. lia. }
    rewrite (statement_replaced c _ Hc). f_equal.
    apply IH; try assumption. lia.
Qed.

(** A file in which every zerolog statement is a chain of the known form
    -- well formed, without closing parenthesis in its message, behind a
    text that does not end in white space, a word character or a dot, and
    not followed by a further call -- and which shows none of the anchor
    calls once the statements are rewritten, is converted statement by
    statement: every statement becomes its slog call and everything else
    stays as it is. *)
Theorem convert_file (head : text) (rest : list (zerolog_call * text)) :
  statements_clear head rest = true ->
  contains_any zerolog_anchors (file_text slog_text head rest) = false ->
  convert_zerolog_to_slog (file_text source_text head rest)
  = file_text slog_text head rest.
Proof.
  intros Hs Hfree. unfold convert_zerolog_to_slog.
  destruct (fillers_anchor_free slog_text rest head Hfree) as [Hh Hr].
  unfold re_sub at 2.
  rewrite (chain_pass_file rest head _ Hs Hh Hr) by lia.
  apply re_sub_no_match. apply (no_match_without zerolog_anchors); [|exact Hfree].
  intros u. apply Idempotence.zerolog_head_anchor.
Qed.

Lemma convert_file_witness :
  let head := go "func f() {" in
  let rest :=
    [ (ZerologCall (go "|~") None Info [([], Keyed Str (t "user") (t "u"))] []
                   (t "login"), []);
      (ZerologCall (go "|~") (Some (t "s")) Error [(go "|~~", Err (t "err"))]
                   (go "|~~") (t "save failed"), go "|}|") ] in
  statements_clear head rest = true
  /\ contains_any zerolog_anchors (file_text slog_text head rest) = false
  /\ convert_zerolog_to_slog
       (go "func f() {|~logger.Info().Str('user', u).Msg('login')|~s.logger.Error()|~~.Err(err)|~~.Msg('save failed')|}|")
     = go "func f() {|~logger.Info('login',||~~'user', u)|~s.logger.Error('save failed',||~~'error', err)|}|".
Proof.
  intros head rest.
  split; [reflexivity|]. split; [reflexivity|].
  exact (convert_file head rest eq_refl eq_refl).
Defined.

End WholeFile.

Module Indentation.

Section Captures.

(** A property of the captures that no group of the pattern disturbs. *)
Variable I : caps -> Prop.
Variable x : text * caps.





End Captures.









End Indentation.

Module DroppedCalls.

Import Zerolog Chain.

















End DroppedCalls.
